(** * Markdown Code Block Highlighter: tokenizer, colorizer, theme kind, LRU cache

    A shallow embedding of the algorithmic core of the extension:
    - [src/preview/previewScript.ts]: [tokenizeCode], [getColorForTokenType],
      [parseColor], [detectThemeKind], [extractTokenColorsFromTheme],
      [applyHighlighting], [extractLanguage], [simpleHash];
    - [src/services/tokenizationService.ts]: [createMinimalHighlighting],
      [getColorForTokenType], [tokenizeWithTimeout], [tokenizeWithStreaming],
      [tokenize], [normalizeLanguage], [parseSemanticTokens],
      [getSemanticTokenTypeName], [fillGapsWithPlainTokens];
    - the cache manager ([CacheManager]: [get], [set], [delete], [clear],
      [setMaxSize], [hashCode], [generateKey], LRU bookkeeping);
    - [src/previewEnhancer.ts]: [handleTokenizeRequest], [calculatePriority],
      [queueRequest], [sortQueue], [processQueue], [processRequest].

    JavaScript strings are sequences of UTF-16 code units and are modelled as
    lists of [N]; JavaScript numbers used as offsets are modelled as [Z];
    the luminance computation uses binary64 floats.  Reading a property of
    an object literal also finds the members that every object inherits
    from [Object.prototype] ([Theme.get]). *)

From Stdlib Require Import ZArith NArith Floats.
From stdpp Require Import strings gmap.

Set Warnings "-inexact-float,-clear-no-such-hyp".
Local Open Scope Z_scope.

(** ** JavaScript strings *)

Module JSString.

Definition jsstring := list N.

(** Code units of an ASCII literal. *)
Definition codes (s : string) : jsstring :=
  map Ascii.N_of_ascii (String.list_ascii_of_string s).

(** [s.length] *)
Definition len (s : jsstring) : Z := Z.of_nat (length s).

(** [s.substring(a, b)]: both bounds are clamped to [0, s.length] and
    swapped when out of order. *)
Definition substring (s : jsstring) (a b : Z) : jsstring :=
  let a' := Z.min (Z.max a 0) (len s) in
  let b' := Z.min (Z.max b 0) (len s) in
  let from := Z.min a' b' in
  let to := Z.max a' b' in
  take (Z.to_nat (to - from)) (drop (Z.to_nat from) s).

(** [s.substring(a)] *)
Definition substringFrom (s : jsstring) (a : Z) : jsstring :=
  substring s a (len s).

(** [s.split(sep)] for a one-code-unit separator: never the empty list. *)
Fixpoint split (sep : N) (s : jsstring) : list jsstring :=
  match s with
  | [] => [[]]
  | c :: s' =>
      if N.eqb c sep then [] :: split sep s'
      else match split sep s' with
           | l :: ls => (c :: l) :: ls
           | [] => [[c]]
           end
  end.

(** [lines.join(sep)] *)
Fixpoint join (sep : N) (ls : list jsstring) : jsstring :=
  match ls with
  | [] => []
  | [l] => l
  | l :: ls' => l ++ sep :: join sep ls'
  end.

Definition LF : N := 10%N.

Definition eqb (a b : jsstring) : bool := bool_decide (a = b).

(** A string of ASCII code units. *)
Definition isASCII (s : jsstring) : bool := forallb (fun c => (c <? 128)%N) s.

(** [s.toLowerCase()] on the ASCII code units: the letters [A] to [Z] are
    lowered.  This is what the source computes on a string of ASCII code
    units.  From code unit 128 on the source applies the Unicode case
    mapping (U+212A becomes [k]), which is not modelled: such a unit is
    left as it is here, and what is proved of the lowered string itself is
    stated for ASCII strings. *)
Definition toLowerCase (s : jsstring) : jsstring :=
  map (fun c => if (65 <=? c)%N && (c <=? 90)%N then (c + 32)%N else c) s.

End JSString.
Import JSString.

(** ** JavaScript numbers used as 32-bit integers

    The hash functions of the cache manager and of the preview script keep
    their accumulator in the range of ToInt32; between two conversions the
    values stay far below 2^53, so the arithmetic on doubles is exact and is
    written on [Z]. *)

Module JSInt32.

(** ToInt32: the signed 32-bit integer congruent to [z]. *)
Definition toInt32 (z : Z) : Z := (z + 2 ^ 31) mod 2 ^ 32 - 2 ^ 31.

(** [x << n] for a shift count [0 <= n < 32] *)
Definition shiftLeft (x n : Z) : Z := toInt32 (Z.shiftl (toInt32 x) n).

(** [x & y] *)
Definition bitAnd (x y : Z) : Z := Z.land (toInt32 x) (toInt32 y).

(** The digit characters [0-9a-z]. *)
Definition digitChar (d : Z) : N := Z.to_N (if d <? 10 then 48 + d else 87 + d).

(** The digits of [n] in base 36, most significant first, in front of
    [acc]; a number below [2 ^ fuel] has at most [fuel] digits. *)
Fixpoint digits36 (fuel : nat) (n : Z) (acc : jsstring) : jsstring :=
  match fuel with
  | O => digitChar n :: acc
  | S fuel' =>
      if n <? 36 then digitChar n :: acc
      else digits36 fuel' (n / 36) (digitChar (n mod 36) :: acc)
  end.

(** [n.toString(36)] for an integer [0 <= n]. *)
Definition toString36 (n : Z) : jsstring :=
  digits36 (Z.to_nat (Z.log2 n)) n [].

End JSInt32.

(** ** Regular expressions (the ECMAScript backtracking matcher)

    Only the constructs the source's literals use are modelled.  The matcher
    follows the continuation-passing semantics of the language standard:
    a matcher takes a position, the captures so far and a continuation. *)

Module RegExp.

Inductive charset :=
| Dot                         (* .  : any code unit but a line terminator *)
| Digit                       (* \d *)
| Space                       (* \s *)
| NotSpace                    (* \S *)
| OneOf (cs : list N)         (* [abc] *)
| Union (a b : charset).      (* [xy] with class escapes, e.g. [\s\S] *)

Inductive regex :=
| Eps
| Lit (c : N)
| Cls (cs : charset)
| Seq (r1 r2 : regex)
| Alt (r1 r2 : regex)
| Quant (min : nat) (max : option nat) (greedy : bool) (r : regex)
| Group (n : nat) (r : regex)      (* n-th capturing parenthesis *)
| Backref (n : nat)                (* \n *)
| Lookahead (r : regex)            (* (?=r) *)
| WordB                            (* \b *)
| Eol.                             (* $ *)

Definition Star (r : regex) := Quant 0 None true r.       (* r*  *)
Definition StarLazy (r : regex) := Quant 0 None false r.  (* r*? *)
Definition Plus (r : regex) := Quant 1 None true r.       (* r+  *)
Definition Opt (r : regex) := Quant 0 (Some 1%nat) true r. (* r?  *)

Fixpoint seqs (rs : list regex) : regex :=
  match rs with
  | [] => Eps
  | [r] => r
  | r :: rs' => Seq r (seqs rs')
  end.

Fixpoint alts (rs : list regex) : regex :=
  match rs with
  | [] => Eps
  | [r] => r
  | r :: rs' => Alt r (alts rs')
  end.

(** A literal run of characters. *)
Definition str (s : string) : regex := seqs (map Lit (codes s)).

Definition isLineTerminator (c : N) : bool :=
  bool_decide (c ∈ [10; 13; 8232; 8233]%N).

Definition isDigit (c : N) : bool := ((48 <=? c) && (c <=? 57))%N.

Definition isWhiteSpace (c : N) : bool :=
  bool_decide (c ∈ [9; 11; 12; 32; 160; 5760; 8239; 8287; 12288; 65279]%N)
  || ((8192 <=? c) && (c <=? 8202))%N
  || isLineTerminator c.

(** \w without the unicode flag: [A-Za-z0-9_]. *)
Definition isWordChar (c : N) : bool :=
  (((97 <=? c) && (c <=? 122)) || ((65 <=? c) && (c <=? 90))
   || ((48 <=? c) && (c <=? 57)) || (c =? 95))%N.

Fixpoint inSet (cs : charset) (c : N) : bool :=
  match cs with
  | Dot => negb (isLineTerminator c)
  | Digit => isDigit c
  | Space => isWhiteSpace c
  | NotSpace => negb (isWhiteSpace c)
  | OneOf l => bool_decide (c ∈ l)
  | Union a b => inSet a c || inSet b c
  end.

(** Canonicalize under the [i] flag.  The patterns that carry the flag in
    the source are made of ASCII literals only, for which upper-casing the
    ASCII letters is exact: no code unit above 127 canonicalizes to an
    ASCII one. *)
Definition canonicalize (ignoreCase : bool) (c : N) : N :=
  if ignoreCase && ((97 <=? c) && (c <=? 122))%N then (c - 32)%N else c.

(** Captures: parenthesis number to the (start, end) of its last match. *)
Definition captures := list (nat * (nat * nat)).

Definition getCapture (n : nat) (c : captures) : option (nat * nat) :=
  snd <$> List.find (fun p => Nat.eqb (fst p) n) c.

Definition setCapture (n : nat) (v : nat * nat) (c : captures) : captures :=
  (n, v) :: List.filter (fun p => negb (Nat.eqb (fst p) n)) c.

Definition clearCaptures (ns : list nat) (c : captures) : captures :=
  List.filter (fun p => negb (bool_decide (fst p ∈ ns))) c.

(** The capturing parentheses inside a pattern. *)
Fixpoint groupsOf (r : regex) : list nat :=
  match r with
  | Seq a b | Alt a b => groupsOf a ++ groupsOf b
  | Quant _ _ _ a | Lookahead a => groupsOf a
  | Group n a => n :: groupsOf a
  | _ => []
  end.

Definition state := (nat * captures)%type.
Definition continuation := nat -> captures -> option state.

Section Matcher.
Variable ignoreCase : bool.
Variable multiline : bool.
Variable input : jsstring.

Definition charAt (i : nat) : option N := input !! i.

Definition wordAt (i : Z) : bool :=
  if (i <? 0) then false
  else match charAt (Z.to_nat i) with
       | Some c => isWordChar c
       | None => false
       end.

(** Do the code units at [a, a+n) and [i, i+n) agree up to case? *)
Fixpoint sameRun (n a i : nat) : bool :=
  match n with
  | O => true
  | S n' =>
      match charAt a, charAt i with
      | Some x, Some y =>
          N.eqb (canonicalize ignoreCase x) (canonicalize ignoreCase y)
          && sameRun n' (S a) (S i)
      | _, _ => false
      end
  end.

(** RepeatMatcher: [mr] matches the quantified atom, [groups] are its
    capturing parentheses.  Every round either uses up one of the [min]
    mandatory rounds or moves strictly forward, so the fuel
    [min + remaining input + 1] given by [m] is never exhausted. *)
Fixpoint repeatMatcher (mr : nat -> captures -> continuation -> option state)
    (groups : list nat) (greedy : bool) (k : continuation)
    (fuel min : nat) (max : option nat) (i : nat) (c : captures)
    {struct fuel} : option state :=
  match max with
  | Some O => k i c
  | _ =>
      match fuel with
      | O => None
      | S fuel' =>
          let d := fun j c' =>
            if Nat.eqb min 0 && Nat.eqb j i then None
            else repeatMatcher mr groups greedy k fuel' (Nat.pred min)
                   (Nat.pred <$> max) j c' in
          let xr := clearCaptures groups c in
          if negb (Nat.eqb min 0) then mr i xr d
          else if greedy then
            match mr i xr d with
            | Some z => Some z
            | None => k i c
            end
          else
            match k i c with
            | Some z => Some z
            | None => mr i xr d
            end
      end
  end.

Fixpoint m (r : regex) (i : nat) (c : captures) (k : continuation)
  {struct r} : option state :=
  match r with
  | Eps => k i c
  | Lit ch =>
      match charAt i with
      | Some x =>
          if N.eqb (canonicalize ignoreCase x) (canonicalize ignoreCase ch)
          then k (S i) c else None
      | None => None
      end
  | Cls cs =>
      match charAt i with
      | Some x => if inSet cs x then k (S i) c else None
      | None => None
      end
  | Seq r1 r2 => m r1 i c (fun j c' => m r2 j c' k)
  | Alt r1 r2 =>
      match m r1 i c k with
      | Some z => Some z
      | None => m r2 i c k
      end
  | Quant min max greedy r' =>
      repeatMatcher (m r') (groupsOf r') greedy k
        (min + (length input - i) + 1)%nat min max i c
  | Group n r' => m r' i c (fun j c' => k j (setCapture n (i, j) c'))
  | Backref n =>
      match getCapture n c with
      | None => k i c
      | Some (a, b) =>
          if sameRun (b - a) a i then k (i + (b - a))%nat c else None
      end
  | Lookahead r' =>
      match m r' i c (fun j c' => Some (j, c')) with
      | Some (_, c') => k i c'
      | None => None
      end
  | WordB =>
      if xorb (wordAt (Z.of_nat i - 1)) (wordAt (Z.of_nat i))
      then k i c else None
  | Eol =>
      match charAt i with
      | None => if Nat.eqb i (length input) then k i c else None
      | Some x => if multiline && isLineTerminator x then k i c else None
      end
  end.

(** One attempt at position [i]: the end of the match and its captures. *)
Definition matchAt (r : regex) (i : nat) : option state :=
  m r i [] (fun j c => Some (j, c)).

(** The scan of [RegExpBuiltinExec]: first position from [i] on where the
    pattern matches; [n] counts the positions left to try. *)
Fixpoint scan (r : regex) (n i : nat) : option (nat * state) :=
  match n with
  | O => None
  | S n' =>
      match matchAt r i with
      | Some z => Some (i, z)
      | None => scan r n' (S i)
      end
  end.

(** [re.exec(input)] with [re.lastIndex = lastIndex] (global flag):
    the index of the match, and its end, which becomes [lastIndex]. *)
Definition exec (r : regex) (lastIndex : nat) : option (nat * state) :=
  if (length input <? lastIndex)%nat then None
  else scan r (S (length input - lastIndex)) lastIndex.

(** [while ((x = re.exec(input)) !== null) push(x.index, x.index + x[0].length)].
    A match of length zero would leave [lastIndex] in place and the
    source loop would never end; [None] stands for that. *)
Fixpoint execLoop (r : regex) (fuel lastIndex : nat)
  : option (list (nat * nat)) :=
  match fuel with
  | O => None
  | S fuel' =>
      match exec r lastIndex with
      | None => Some []
      | Some (i, (e, _)) => (fun l => (i, e) :: l) <$> execLoop r fuel' e
      end
  end.

Definition execAll (r : regex) : option (list (nat * nat)) :=
  execLoop r (S (length input)) 0.

End Matcher.

(** A lower bound on the number of code units a match of [r] uses. *)
Fixpoint minLength (r : regex) : nat :=
  match r with
  | Lit _ | Cls _ => 1
  | Seq a b => minLength a + minLength b
  | Alt a b => Nat.min (minLength a) (minLength b)
  | Quant min max _ a =>
      match max, min with
      | Some O, _ | _, O => 0
      | _, _ => minLength a
      end
  | Group _ a => minLength a
  | _ => 0
  end.

End RegExp.
Import RegExp.

(** ** The four pattern families

    [previewScript.ts] and [tokenizationService.ts] write the same three
    literals for comments, strings and numbers, and build the keyword
    pattern from their own keyword list. *)

Module Patterns.

(** A candidate match on a line: [{ start, end, type }]. *)
Record Match := { start : Z; end_ : Z; type : jsstring }.

#[global] Instance Match_eq_dec : EqDecision Match.
Proof. solve_decision. Defined.

(** [/(\/\/.*$|\/\*[\s\S]*?\*\/|#.*$)/gm] *)
Definition commentPattern : regex :=
  Group 1 (alts [ seqs [str "//"; Star (Cls Dot); Eol];
                  seqs [str "/*"; StarLazy (Cls (Union Space NotSpace)); str "*/"];
                  seqs [str "#"; Star (Cls Dot); Eol] ]).

(** The string literal of the source, flag [g]:
    [(Q)(?:(?=(\\?))\2.)*?\1] where [Q] is the class of the three quote
    characters: double quote (34), single quote (39) and backtick (96). *)
Definition stringPattern : regex :=
  seqs [ Group 1 (Cls (OneOf [34; 39; 96]%N));
         StarLazy (seqs [ Lookahead (Group 2 (Opt (Lit 92%N)));
                          Backref 2; Cls Dot ]);
         Backref 1 ].

(** [/\b\d+\.?\d*\b/g] *)
Definition numberPattern : regex :=
  seqs [ WordB; Plus (Cls Digit); Opt (Lit 46%N); Star (Cls Digit); WordB ].

(** [new RegExp(`\\b(${keywords.join('|')})\\b`, 'gi')] *)
Definition keywordPattern (keywords : list string) : regex :=
  seqs [ WordB; Group 1 (alts (map str keywords)); WordB ].

(** The [while ((x = pattern.exec(line)) !== null) matches.push(...)] loop
    of one family; the flags are those of the literal. *)
Definition findAll (ignoreCase multiline : bool) (r : regex) (ty : string)
    (line : jsstring) : option (list Match) :=
  map (fun p => {| start := Z.of_nat (fst p); end_ := Z.of_nat (snd p);
                   type := codes ty |})
    <$> execAll ignoreCase multiline line r.

Definition findComments := findAll false true commentPattern "comment".
Definition findStrings := findAll false false stringPattern "string".
Definition findNumbers := findAll false false numberPattern "number".
Definition findKeywords (keywords : list string) :=
  findAll true false (keywordPattern keywords) "keyword".

(** [matches.sort((a, b) => a.start - b.start)]: the sort is stable, so the
    result is the one of a stable insertion sort. *)
Fixpoint insertByStart (x : Match) (l : list Match) : list Match :=
  match l with
  | [] => [x]
  | y :: l' =>
      if start x <=? start y then x :: y :: l' else y :: insertByStart x l'
  end.

Definition sortByStart (ms : list Match) : list Match :=
  foldr insertByStart [] ms.

(** The overlap filter: [lastEnd] starts at -1. *)
Fixpoint removeOverlaps (lastEnd : Z) (ms : list Match) : list Match :=
  match ms with
  | [] => []
  | x :: ms' =>
      if lastEnd <=? start x then x :: removeOverlaps (end_ x) ms'
      else removeOverlaps lastEnd ms'
  end.

End Patterns.

(** ** Theme data (the [ThemeData] interface of both files) *)

Module Theme.

Inductive ThemeKind := light | dark | highContrast.

#[global] Instance ThemeKind_eq_dec : EqDecision ThemeKind.
Proof. solve_decision. Defined.

Record ThemeData := {
  kind : ThemeKind;
  colors : gmap jsstring jsstring;
  background : jsstring;
  foreground : jsstring;
  borderColor : jsstring;
  borderColorSubtle : jsstring;
  buttonBackground : jsstring;
  buttonForeground : jsstring;
  buttonHoverBackground : jsstring;
  accentColor : jsstring
}.

(** The own properties of an object literal whose keys and values are
    strings. *)
Definition object (l : list (string * string)) : gmap jsstring jsstring :=
  list_to_map (map (fun p => (codes (fst p), codes (snd p))) l).

(** The names every object literal inherits from [Object.prototype]. *)
Definition prototypeNames : list jsstring :=
  map codes
    [ "constructor"; "__defineGetter__"; "__defineSetter__"; "hasOwnProperty";
      "__lookupGetter__"; "__lookupSetter__"; "isPrototypeOf";
      "propertyIsEnumerable"; "toString"; "valueOf"; "__proto__";
      "toLocaleString" ]%string.

(** What reading a property of such an object gives: a string of the
    object, or the member of [Object.prototype] of that name (a function;
    for [__proto__] the prototype itself). *)
Inductive Value :=
| Str (s : jsstring)
| Member (name : jsstring).

#[global] Instance Value_eq_dec : EqDecision Value.
Proof. solve_decision. Defined.

(** [o[key]]: an own property first, then the prototype; [None] is
    [undefined]. *)
Definition get (o : gmap jsstring jsstring) (key : jsstring) : option Value :=
  match o !! key with
  | Some s => Some (Str s)
  | None => if bool_decide (key ∈ prototypeNames) then Some (Member key) else None
  end.

(** [x || d] for [x : string | undefined]: the empty string is falsy. *)
Definition orElse (x : option jsstring) (d : jsstring) : jsstring :=
  match x with
  | Some (c :: s) => c :: s
  | _ => d
  end.

(** [x || d] for what [o[key]] gave: a function or an object is truthy. *)
Definition valueOrElse (x : option Value) (d : jsstring) : Value :=
  match x with
  | Some (Str (c :: s)) => Str (c :: s)
  | Some (Member name) => Member name
  | _ => Str d
  end.

(** The property key a value stands for when it is used as an index: a
    string is its own key; a function is converted to its source text,
    which for the built-in functions is [function name() { [native code] }]
    in V8, the engine of the editor and of its preview, [constructor] being
    the function [Object]; the prototype is converted to
    [[object Object]]. *)
Definition propertyKey (v : Value) : jsstring :=
  match v with
  | Str s => s
  | Member name =>
      if bool_decide (name = codes "__proto__") then codes "[object Object]"
      else codes "function "
             ++ (if bool_decide (name = codes "constructor") then codes "Object"
                 else name)
             ++ codes "() { [native code] }"
  end.

End Theme.

(** A string is a value. *)
Coercion Theme.Str : jsstring >-> Theme.Value.

(** ** previewScript.ts: the tokenizer that runs inside the preview *)

Module PreviewScript.
Import Patterns.

Record Token := { text : jsstring; type : jsstring }.

Definition keywords : list string :=
  [ "function"; "return"; "if"; "else"; "for"; "while"; "do"; "switch"; "case";
    "break"; "continue"; "const"; "let"; "var"; "class"; "interface"; "enum";
    "type"; "import"; "export"; "from"; "as"; "default"; "async"; "await";
    "try"; "catch"; "finally"; "throw"; "new"; "this"; "super"; "extends";
    "implements"; "public"; "private"; "protected"; "static"; "readonly";
    "def"; "lambda"; "yield"; "raise"; "with"; "pass"; "assert"; "global";
    "in"; "is"; "not"; "and"; "or"; "true"; "false"; "null"; "undefined" ]%string.

(** All candidate matches of a line, in discovery order: comments, strings,
    numbers, keywords. *)
Definition candidates (line : jsstring) : option (list Match) :=
  cs ← findComments line;
  ss ← findStrings line;
  ns ← findNumbers line;
  ks ← findKeywords keywords line;
  Some (cs ++ ss ++ ns ++ ks).

(** Sort and remove overlaps. *)
Definition filtered (line : jsstring) : option (list Match) :=
  removeOverlaps (-1) ∘ sortByStart <$> candidates line.

(** The [for (const m of filtered)] loop: the tokens pushed and the final
    [position]. *)
Fixpoint createTokens (line : jsstring) (position : Z) (ms : list Match)
  : list Token * Z :=
  match ms with
  | [] => ([], position)
  | x :: ms' =>
      let gap :=
        if position <? Patterns.start x
        then [ {| text := substring line position (Patterns.start x);
                  type := codes "text" |} ]
        else [] in
      let tok := {| text := substring line (Patterns.start x) (end_ x);
                    type := Patterns.type x |} in
      let r := createTokens line (end_ x) ms' in
      (gap ++ tok :: fst r, snd r)
  end.

(** The body of the loop over the lines; [isLast] is
    [lineIndex = lines.length - 1]. *)
Definition tokenizeLine (line : jsstring) (isLast : bool)
  : option (list Token) :=
  ms ← filtered line;
  let r := createTokens line 0 ms in
  let rest :=
    if snd r <? len line
    then [ {| text := substringFrom line (snd r); type := codes "text" |} ]
    else [] in
  let newline :=
    if isLast then [] else [ {| text := [LF]; type := codes "text" |} ] in
  Some (fst r ++ rest ++ newline).

Fixpoint tokenizeLines (lines : list jsstring) : option (list Token) :=
  match lines with
  | [] => Some []
  | line :: rest =>
      ts ← tokenizeLine line (bool_decide (rest = []));
      more ← tokenizeLines rest;
      Some (ts ++ more)
  end.

(** [tokenizeCode(code, language)]; [None] would mean that the source does
    not return. *)
Definition tokenizeCode (code : jsstring) (language : jsstring)
  : option (list Token) :=
  tokenizeLines (split LF code).

(** *** Colors *)

Definition typeMap : gmap jsstring jsstring :=
  Theme.object
    [ ("comment", "comment"); ("string", "string"); ("keyword", "keyword");
      ("number", "number"); ("function", "function"); ("class", "class");
      ("variable", "variable"); ("constant", "constant");
      ("operator", "operator"); ("type", "type");
      ("punctuation", "punctuation"); ("regexp", "regexp") ]%string.

(** [getColorForTokenType(tokenType)], reading the module-level
    [currentTheme]; [None] is the source's [null] or [undefined]: the
    caller sets no color then.  [typeMap[tokenType]] also finds the members
    that [typeMap] inherits, which are truthy.  The key looked up in
    [colors] is one of the twelve names or the text of an inherited
    member, and none of them names a member of [Object.prototype]
    ([preview_key_not_inherited]), so that lookup finds own properties
    only. *)
Definition getColorForTokenType (currentTheme : option Theme.ThemeData)
    (tokenType : jsstring) : option jsstring :=
  match currentTheme with
  | None => None
  | Some theme =>
      match Theme.get typeMap tokenType with
      | Some (Theme.Str (c :: mappedType)) =>
          Theme.colors theme !! (c :: mappedType)
      | Some (Theme.Member name) =>
          Theme.colors theme !! Theme.propertyKey (Theme.Member name)
      | _ => None
      end
  end.

(** *** Theme kind from the background color *)

(** The nearest binary64 number to an integer. *)
Definition numberOfZ (z : Z) : float :=
  SF2Prim (binary_normalize prec emax z 0 false).

Definition digitValue (c : N) : option Z :=
  if ((48 <=? c) && (c <=? 57))%N then Some (Z.of_N c - 48)
  else if ((97 <=? c) && (c <=? 122))%N then Some (Z.of_N c - 87)
  else if ((65 <=? c) && (c <=? 90))%N then Some (Z.of_N c - 55)
  else None.

Fixpoint skipWhiteSpace (s : jsstring) : jsstring :=
  match s with
  | c :: s' => if isWhiteSpace c then skipWhiteSpace s' else s
  | [] => []
  end.

Fixpoint radixDigits (R : Z) (s : jsstring) : list Z :=
  match s with
  | c :: s' =>
      match digitValue c with
      | Some v => if v <? R then v :: radixDigits R s' else []
      | None => []
      end
  | [] => []
  end.

(** The global [parseInt(s, radix)]; [radix = None] is [parseInt(s)]. *)
Definition parseInt (s : jsstring) (radix : option Z) : float :=
  let s1 := skipWhiteSpace s in
  let negative := match s1 with 45%N :: _ => true | _ => false end in
  let s2 := match s1 with
            | 45%N :: t => t
            | 43%N :: t => t
            | _ => s1
            end in
  let R0 := match radix with Some r => r | None => 0 end in
  if negb (R0 =? 0) && ((R0 <? 2) || (36 <? R0)) then nan
  else
    let stripPrefix := (R0 =? 0) || (R0 =? 16) in
    let R1 := if R0 =? 0 then 10 else R0 in
    let hasPrefix := match s2 with
                     | 48%N :: x :: _ => stripPrefix && ((x =? 120) || (x =? 88))%N
                     | _ => false
                     end in
    let R := if hasPrefix then 16 else R1 in
    let s3 := if hasPrefix then drop 2 s2 else s2 in
    match radixDigits R s3 with
    | [] => nan
    | ds =>
        let mathInt := foldl (fun acc d => acc * R + d) 0 ds in
        if negative then (- numberOfZ mathInt)%float else numberOfZ mathInt
    end.

Record RGB := { r : float; g : float; b : float }.

(** [/rgba?\((\d+),\s*(\d+),\s*(\d+)/] *)
Definition rgbPattern : regex :=
  seqs [ str "rgb"; Opt (Lit 97%N); Lit 40%N;
         Group 1 (Plus (Cls Digit)); Lit 44%N; Star (Cls Space);
         Group 2 (Plus (Cls Digit)); Lit 44%N; Star (Cls Space);
         Group 3 (Plus (Cls Digit)) ].

(** The text of a capture of [color.match(...)]. *)
Definition captured (color : jsstring) (c : captures) (n : nat) : jsstring :=
  match getCapture n c with
  | Some (a, e) => substring color (Z.of_nat a) (Z.of_nat e)
  | None => []
  end.

(** [s.substr(from, n)] for [0 <= from] and [0 <= n]. *)
Definition substr (s : jsstring) (from n : nat) : jsstring :=
  take n (drop from s).

Definition parseColor (color : jsstring) : option RGB :=
  let hex6 :=
    match color with
    | 35%N :: hex =>                      (* startsWith('#'); replace('#', '') *)
        if (length hex =? 6)%nat
        then Some {| r := parseInt (substr hex 0 2) (Some 16);
                     g := parseInt (substr hex 2 2) (Some 16);
                     b := parseInt (substr hex 4 2) (Some 16) |}
        else None
    | _ => None
    end in
  match hex6 with
  | Some rgb => Some rgb
  | None =>
      match exec false false color rgbPattern 0 with
      | Some (_, (_, c)) =>
          Some {| r := parseInt (captured color c 1) None;
                  g := parseInt (captured color c 2) None;
                  b := parseInt (captured color c 3) None |}
      | None => None
      end
  end.

Definition luminance (rgb : RGB) : float :=
  ((0.299 * r rgb + 0.587 * g rgb + 0.114 * b rgb) / 255)%float.

Definition detectThemeKind (bgColor : jsstring) : Theme.ThemeKind :=
  match parseColor bgColor with
  | None => Theme.dark
  | Some rgb =>
      let luminance := luminance rgb in
      if ((luminance <? 0.05) || (0.95 <? luminance))%float
      then Theme.highContrast
      else if (0.5 <? luminance)%float then Theme.light else Theme.dark
  end.

(** *** The palette of a theme kind and the rendering of the spans *)

Definition extractTokenColorsFromTheme (kind : Theme.ThemeKind)
  : gmap jsstring jsstring :=
  match kind with
  | Theme.light =>
      Theme.object
        [ ("comment", "#008000"); ("string", "#a31515"); ("keyword", "#0000ff");
          ("number", "#098658"); ("function", "#795e26"); ("class", "#267f99");
          ("variable", "#001080"); ("constant", "#0070c1");
          ("operator", "#000000"); ("type", "#267f99");
          ("parameter", "#001080"); ("property", "#001080");
          ("punctuation", "#000000"); ("regexp", "#811f3f") ]%string
  | Theme.dark =>
      Theme.object
        [ ("comment", "#6a9955"); ("string", "#ce9178"); ("keyword", "#569cd6");
          ("number", "#b5cea8"); ("function", "#dcdcaa"); ("class", "#4ec9b0");
          ("variable", "#9cdcfe"); ("constant", "#4fc1ff");
          ("operator", "#d4d4d4"); ("type", "#4ec9b0");
          ("parameter", "#9cdcfe"); ("property", "#9cdcfe");
          ("punctuation", "#d4d4d4"); ("regexp", "#d16969") ]%string
  | Theme.highContrast =>
      Theme.object
        [ ("comment", "#7ca668"); ("string", "#ce9178"); ("keyword", "#569cd6");
          ("number", "#b5cea8"); ("function", "#dcdcaa"); ("class", "#4ec9b0");
          ("variable", "#ffffff"); ("constant", "#4fc1ff");
          ("operator", "#ffffff"); ("type", "#4ec9b0");
          ("parameter", "#ffffff"); ("property", "#ffffff");
          ("punctuation", "#ffffff"); ("regexp", "#d16969") ]%string
  end.

(** A [span] element: its text content and the color set on its style,
    if any. *)
Record Span := { textContent : jsstring; styleColor : option jsstring }.

(** [applyHighlighting(codeElement, tokens)]: the children the code element
    gets; [None] when no theme is set and the element is left as it is.
    [if (color)] sets no color for [null] and for the empty string. *)
Definition applyHighlighting (currentTheme : option Theme.ThemeData)
    (tokens : list Token) : option (list Span) :=
  match currentTheme with
  | None => None
  | Some _ =>
      Some (map (fun token =>
                   {| textContent := text token;
                      styleColor :=
                        match getColorForTokenType currentTheme (type token) with
                        | Some (c :: color) => Some (c :: color)
                        | _ => None
                        end |})
                tokens)
  end.

(** *** The language of a code element and the hash of a block *)

(** The class [\w]. *)
Definition wordClass : charset :=
  OneOf (List.filter isWordChar (map N.of_nat (seq 0 128))).

(** [/language-(\w+)/] *)
Definition languagePattern : regex :=
  seqs [ str "language-"; Group 1 (Plus (Cls wordClass)) ].

(** [extractLanguage(codeElement)], from the element's [className]. *)
Definition extractLanguage (className : jsstring) : jsstring :=
  match exec false false className languagePattern 0 with
  | Some (_, (_, c)) => captured className c 1
  | None => codes "plaintext"
  end.

(** [simpleHash(str)] *)
Definition simpleHash (str : jsstring) : jsstring :=
  let hash :=
    foldl (fun hash char =>
             let hash := JSInt32.shiftLeft hash 5 - hash + Z.of_N char in
             JSInt32.bitAnd hash hash)
          0 str in
  JSInt32.toString36 (Z.abs hash).

End PreviewScript.

(** ** tokenizationService.ts *)

Module TokenizationService.
Import Patterns Theme.

Record Token := {
  text : jsstring;
  scopes : list jsstring;
  startIndex : Z;
  endIndex : Z;
  color : option jsstring      (* [color?: string] *)
}.

(** [language] is declared a string; the chunked path stores in it what
    [normalizeLanguage] returned, which is not always one. *)
Record TokenizedCode := { language : Value; tokens : list Token }.

Definition STREAMING_CHUNK_SIZE : nat := 500.

(** *** Colors *)

Definition typeMapping : gmap jsstring jsstring :=
  Theme.object
    [ ("comment", "comment"); ("string", "string"); ("keyword", "keyword");
      ("number", "number"); ("function", "function"); ("method", "function");
      ("class", "class"); ("type", "type"); ("interface", "type");
      ("variable", "variable"); ("parameter", "parameter");
      ("property", "property"); ("constant", "constant");
      ("operator", "operator"); ("punctuation", "punctuation");
      ("regexp", "regexp"); ("namespace", "type"); ("enum", "type");
      ("struct", "type"); ("typeParameter", "type");
      ("enumMember", "constant"); ("event", "function");
      ("macro", "function"); ("modifier", "keyword") ]%string.

(** [getColorForTokenType(tokenType, themeData)].  [typeMapping[tokenType]]
    also finds the members that [typeMapping] inherits; they are truthy, so
    the fallback to [variable] is skipped for them.  The key looked up in
    [colors] is a palette name of the table or the text of an inherited
    member, and none of them names a member of [Object.prototype]
    ([service_key_not_inherited]), so that lookup finds own properties
    only. *)
Definition getColorForTokenType (tokenType : jsstring) (themeData : ThemeData)
  : jsstring :=
  let mappedType := valueOrElse (get typeMapping tokenType) (codes "variable") in
  orElse (colors themeData !! propertyKey mappedType) (foreground themeData).

(** *** Tier 3: minimal highlighting *)

Definition keywords : list string :=
  [ "function"; "return"; "if"; "else"; "for"; "while"; "do"; "switch"; "case";
    "break"; "continue"; "const"; "let"; "var"; "class"; "interface"; "enum";
    "type"; "import"; "export"; "from"; "as"; "default"; "async"; "await";
    "try"; "catch"; "finally"; "throw"; "new"; "this"; "super"; "extends";
    "implements"; "public"; "private"; "protected"; "static"; "readonly";
    "def"; "lambda"; "yield"; "raise"; "with"; "pass"; "assert"; "global";
    "nonlocal"; "in"; "is"; "not"; "and"; "or"; "true"; "false"; "null";
    "undefined"; "void"; "any"; "boolean"; "number"; "string"; "object" ]%string.

(** Candidate matches in discovery order: comments, strings, keywords,
    numbers. *)
Definition candidates (line : jsstring) : option (list Match) :=
  cs ← findComments line;
  ss ← findStrings line;
  ks ← findKeywords keywords line;
  ns ← findNumbers line;
  Some (cs ++ ss ++ ks ++ ns).

Definition filteredMatches (line : jsstring) : option (list Match) :=
  removeOverlaps (-1) ∘ sortByStart <$> candidates line.

Definition plain (themeData : ThemeData) (s : jsstring) (from to : Z) : Token :=
  {| text := s; scopes := [codes "text"]; startIndex := from; endIndex := to;
     color := Some (foreground themeData) |}.

(** The [for (const m of filteredMatches)] loop: the tokens pushed and the
    final [linePosition]. *)
Fixpoint createTokens (themeData : ThemeData) (line : jsstring)
    (position linePosition : Z) (ms : list Match) : list Token * Z :=
  match ms with
  | [] => ([], linePosition)
  | x :: ms' =>
      let gap :=
        if linePosition <? start x
        then [ plain themeData (substring line linePosition (start x))
                 (position + linePosition) (position + start x) ]
        else [] in
      let tok :=
        {| text := substring line (start x) (end_ x);
           scopes := [type x];
           startIndex := position + start x;
           endIndex := position + end_ x;
           color := Some (getColorForTokenType (type x) themeData) |} in
      let r := createTokens themeData line position (end_ x) ms' in
      (gap ++ tok :: fst r, snd r)
  end.

(** One round of the loop over the lines: the tokens pushed and the new
    [position]. *)
Definition tokenizeLine (themeData : ThemeData) (line : jsstring)
    (position : Z) (isLast : bool) : option (list Token * Z) :=
  ms ← filteredMatches line;
  let r := createTokens themeData line position 0 ms in
  let rest :=
    if snd r <? len line
    then [ plain themeData (substringFrom line (snd r))
             (position + snd r) (position + len line) ]
    else [] in
  let position' := position + len line in
  if isLast then Some (fst r ++ rest, position')
  else Some (fst r ++ rest ++ [plain themeData [LF] position' (position' + 1)],
             position' + 1).

Fixpoint tokenizeLines (themeData : ThemeData) (lines : list jsstring)
    (position : Z) : option (list Token) :=
  match lines with
  | [] => Some []
  | line :: rest =>
      r ← tokenizeLine themeData line position (bool_decide (rest = []));
      more ← tokenizeLines themeData rest (snd r);
      Some (fst r ++ more)
  end.

(** [createMinimalHighlighting(code, language, themeData)]; [None] would
    mean that the source does not return. *)
Definition createMinimalHighlighting (code language : jsstring)
    (themeData : ThemeData) : option TokenizedCode :=
  ts ← tokenizeLines themeData (split LF code) 0;
  Some {| language := Str language;
          tokens := match ts with
                    | [] => [ plain themeData code 0 (len code) ]
                    | _ => ts
                    end |}.

(** *** Language aliases *)

Definition aliases : gmap jsstring jsstring :=
  Theme.object
    [ ("js", "javascript"); ("ts", "typescript"); ("py", "python");
      ("rb", "ruby"); ("sh", "shellscript"); ("bash", "shellscript");
      ("zsh", "shellscript"); ("yml", "yaml"); ("dockerfile", "docker");
      ("md", "markdown"); ("cs", "csharp"); ("cpp", "cpp"); ("c++", "cpp");
      ("kt", "kotlin"); ("rs", "rust"); ("go", "go"); ("java", "java");
      ("php", "php"); ("swift", "swift"); ("html", "html"); ("css", "css");
      ("scss", "scss"); ("less", "less"); ("json", "json"); ("xml", "xml");
      ("sql", "sql") ]%string.

(** [normalizeLanguage(language)].  [aliases[...]] also finds the members
    that [aliases] inherits: for [constructor] and [__proto__] the result is
    that member and no string. *)
Definition normalizeLanguage (language : jsstring) : Value :=
  valueOrElse (get aliases (toLowerCase language)) (toLowerCase language).

(** *** The public operation and its two paths

    How a promise settles. *)
Inductive Settled (A : Type) :=
| Fulfilled (a : A)
| Rejected.
Arguments Fulfilled {A} a.
Arguments Rejected {A}.

Definition isLargeBlock (code : jsstring) (maxBlockSize : Z) : bool :=
  maxBlockSize <? len code.

(** [lines.slice(i, i + n)] for [i = 0, n, 2n, ...] while [i < lines.length];
    [fuel] bounds the number of rounds. *)
Fixpoint slices (fuel n : nat) (lines : list jsstring) : list (list jsstring) :=
  match fuel, lines with
  | S fuel', _ :: _ => take n lines :: slices fuel' n (drop n lines)
  | _, _ => []
  end.

Definition shift (currentPosition : Z) (t : Token) : Token :=
  {| text := text t; scopes := scopes t;
     startIndex := startIndex t + currentPosition;
     endIndex := endIndex t + currentPosition;
     color := color t |}.

Section Service.
(** The environment: how
    [Promise.race([tokenizeInternal(code, language, themeData), timer(timeout)])]
    settles.  [tokenizeInternal] goes through the editor's language
    services; it is fulfilled with their result, or rejected when they
    throw or when the timer fires first. *)
Variable race : jsstring -> jsstring -> ThemeData -> float -> Settled TokenizedCode.

(** The [.catch] handler turns a rejection into the tier-3 result. *)
Definition tokenizeWithTimeout (code language : jsstring)
    (themeData : ThemeData) (timeout : float)
  : option (Settled TokenizedCode) :=
  match race code language themeData timeout with
  | Fulfilled result => Some (Fulfilled result)
  | Rejected => Fulfilled <$> createMinimalHighlighting code language themeData
  end.

(** The loop over the chunks: the tokens pushed. *)
Fixpoint streamChunks (language : jsstring) (themeData : ThemeData)
    (timeout : float) (chunks : list (list jsstring)) (currentPosition : Z)
  : option (list Token) :=
  match chunks with
  | [] => Some []
  | chunkLines :: rest =>
      let chunk := join LF chunkLines in
      settled ← tokenizeWithTimeout chunk language themeData (timeout / 10)%float;
      match settled with
      | Fulfilled chunkResult =>
          let pushed := map (shift currentPosition) (tokens chunkResult) in
          let position' := currentPosition + len chunk in
          let position'' :=
            if bool_decide (rest = []) then position' else position' + 1 in
          more ← streamChunks language themeData timeout rest position'';
          Some (pushed ++ more)
      | Rejected =>
          let pushed :=
            [ plain themeData chunk currentPosition (currentPosition + len chunk) ] in
          more ← streamChunks language themeData timeout rest
                   (currentPosition + len chunk + 1);
          Some (pushed ++ more)
      end
  end.

Definition tokenizeWithStreaming (code language : jsstring)
    (themeData : ThemeData) (timeout : float)
  : option (Settled TokenizedCode) :=
  let lines := split LF code in
  ts ← streamChunks language themeData timeout
         (slices (length lines) STREAMING_CHUNK_SIZE lines) 0;
  Some (Fulfilled {| language := normalizeLanguage language; tokens := ts |}).

(** [tokenize(code, language, themeData, maxBlockSize, timeout)]:
    [None] would mean that the promise never settles. *)
Definition tokenize (code language : jsstring) (themeData : ThemeData)
    (maxBlockSize : Z) (timeout : float) : option (Settled TokenizedCode) :=
  settled ← (if isLargeBlock code maxBlockSize
             then tokenizeWithStreaming code language themeData timeout
             else tokenizeWithTimeout code language themeData timeout);
  match settled with
  | Fulfilled result => Some (Fulfilled result)
  | Rejected => Fulfilled <$> createMinimalHighlighting code language themeData
  end.

End Service.

(** *** Tier 1: semantic tokens of the language services *)

Definition semanticTokenTypes : list string :=
  [ "namespace"; "type"; "class"; "enum"; "interface";
    "struct"; "typeParameter"; "parameter"; "variable"; "property";
    "enumMember"; "event"; "function"; "method"; "macro";
    "keyword"; "modifier"; "comment"; "string"; "number";
    "regexp"; "operator" ]%string.

(** [types[tokenType] || 'unknown'] for an element of the [Uint32Array]. *)
Definition getSemanticTokenTypeName (tokenType : N) : jsstring :=
  if (22 <=? tokenType)%N then codes "unknown"
  else match semanticTokenTypes !! N.to_nat tokenType with
       | Some name => codes name
       | None => codes "unknown"
       end.

(** The loop of [fillGapsWithPlainTokens]: the tokens pushed and the final
    [lastEnd]. *)
Fixpoint fillGaps (themeData : ThemeData) (text : jsstring) (lastEnd : Z)
    (tokens : list Token) : list Token * Z :=
  match tokens with
  | [] => ([], lastEnd)
  | token :: rest =>
      let gap :=
        if lastEnd <? startIndex token
        then [ plain themeData (substring text lastEnd (startIndex token))
                 lastEnd (startIndex token) ]
        else [] in
      let r := fillGaps themeData text (endIndex token) rest in
      (gap ++ token :: fst r, snd r)
  end.

Definition fillGapsWithPlainTokens (text : jsstring) (tokens : list Token)
    (themeData : ThemeData) : list Token :=
  match tokens with
  | [] => [ plain themeData text 0 (len text) ]
  | _ =>
      let r := fillGaps themeData text 0 tokens in
      fst r ++ (if snd r <? len text
                then [ plain themeData (substringFrom text (snd r))
                         (snd r) (len text) ]
                else [])
  end.

(** One group of five elements of [semanticTokens.data]; the protocol
    delivers whole groups. *)
Record SemanticToken := {
  deltaLine : N;
  deltaStartChar : N;
  length_ : N;
  tokenType : N;
  tokenModifiers : N
}.

(** [absoluteStart] before [currentChar] is added: the loop over the lines
    in front of [currentLine].  Reading [lines[l].length] past the last line
    throws: [None]. *)
Fixpoint lineStart (lines : list jsstring) (currentLine : nat) {struct currentLine}
  : option Z :=
  match currentLine with
  | O => Some 0
  | S l =>
      match lines with
      | [] => None
      | line :: rest => (fun start => len line + 1 + start) <$> lineStart rest l
      end
  end.

(** The loop over the groups: the tokens pushed. *)
Fixpoint decodeSemanticTokens (themeData : ThemeData) (text : jsstring)
    (data : list SemanticToken) (currentLine currentChar : N)
  : option (list Token) :=
  match data with
  | [] => Some []
  | d :: rest =>
      let currentLine := (currentLine + deltaLine d)%N in
      let currentChar :=
        if (deltaLine d =? 0)%N then (currentChar + deltaStartChar d)%N
        else deltaStartChar d in
      start ← lineStart (split LF text) (N.to_nat currentLine);
      let absoluteStart := start + Z.of_N currentChar in
      let tokenTypeName := getSemanticTokenTypeName (tokenType d) in
      more ← decodeSemanticTokens themeData text rest currentLine currentChar;
      Some ({| text := substring text absoluteStart
                         (absoluteStart + Z.of_N (length_ d));
               scopes := [tokenTypeName];
               startIndex := absoluteStart;
               endIndex := absoluteStart + Z.of_N (length_ d);
               color := Some (getColorForTokenType tokenTypeName themeData) |}
            :: more)
  end.

(** [parseSemanticTokens(text, semanticTokens, themeData)]; [None] when it
    throws. *)
Definition parseSemanticTokens (text : jsstring) (data : list SemanticToken)
    (themeData : ThemeData) : option (list Token) :=
  tokens ← decodeSemanticTokens themeData text data 0 0;
  Some (fillGapsWithPlainTokens text tokens themeData).

End TokenizationService.

(** ** The cache manager *)

Module CacheManager.

Section Cache.
(** The cached value: [TokenizedCode] in the source. *)
Context {V : Type}.

Record CacheEntry := { key : jsstring; value : V; timestamp : Z }.

Record CacheManager := {
  cache : gmap jsstring CacheEntry;   (* Map<string, CacheEntry> *)
  maxSize : Z;
  accessOrder : list jsstring
}.

(** [new CacheManager(maxSize)] *)
Definition new (maxSize : Z) : CacheManager :=
  {| cache := ∅; maxSize := maxSize; accessOrder := [] |}.

Definition size (c : CacheManager) : Z := Z.of_nat (base.size (cache c)).

Definition has (c : CacheManager) (k : jsstring) : bool :=
  bool_decide (is_Some (cache c !! k)).

Definition updateAccessOrder (k : jsstring) (c : CacheManager) : CacheManager :=
  {| cache := cache c; maxSize := maxSize c;
     accessOrder := filter (fun k' => k' <> k) (accessOrder c) ++ [k] |}.

(** [shift()] takes the first key; [if (keyToEvict)] is false for the
    empty string as well as for [undefined]. *)
Definition evictLeastRecentlyUsed (c : CacheManager) : CacheManager :=
  match accessOrder c with
  | [] => c
  | keyToEvict :: rest =>
      {| cache := match keyToEvict with
                  | [] => cache c
                  | _ :: _ => delete keyToEvict (cache c)
                  end;
         maxSize := maxSize c;
         accessOrder := rest |}
  end.

(** [get(key)] at time [now]: the result ([None] is [null]) and the new
    state. *)
Definition get (k : jsstring) (now : Z) (c : CacheManager)
  : option V * CacheManager :=
  match cache c !! k with
  | None => (None, c)
  | Some entry =>
      let c' := updateAccessOrder k c in
      (Some (value entry),
       {| cache := <[ k := {| key := key entry; value := value entry;
                               timestamp := now |} ]> (cache c');
          maxSize := maxSize c';
          accessOrder := accessOrder c' |})
  end.

(** [set(key, value)] at time [now]. *)
Definition set (k : jsstring) (v : V) (now : Z) (c : CacheManager)
  : CacheManager :=
  match cache c !! k with
  | Some entry =>
      updateAccessOrder k
        {| cache := <[ k := {| key := key entry; value := v;
                                timestamp := now |} ]> (cache c);
           maxSize := maxSize c;
           accessOrder := accessOrder c |}
  | None =>
      let c1 := if maxSize c <=? size c then evictLeastRecentlyUsed c else c in
      {| cache := <[ k := {| key := k; value := v; timestamp := now |} ]> (cache c1);
         maxSize := maxSize c1;
         accessOrder := accessOrder c1 ++ [k] |}
  end.

(** What [get] returns, without the state. *)
Definition lookup (k : jsstring) (c : CacheManager) : option V :=
  value <$> cache c !! k.

End Cache.
Arguments CacheEntry : clear implicits.
Arguments CacheManager : clear implicits.

Section Maintenance.
Context {V : Type}.

(** [clear()] *)
Definition clear (c : CacheManager V) : CacheManager V :=
  {| cache := ∅; maxSize := maxSize c; accessOrder := [] |}.

(** [delete(key)]: what [Map.delete] returned, and the new state. *)
Definition delete (k : jsstring) (c : CacheManager V) : bool * CacheManager V :=
  match cache c !! k with
  | Some _ =>
      (true, {| cache := base.delete k (cache c);
                maxSize := maxSize c;
                accessOrder := filter (fun k' => k' <> k) (accessOrder c) |})
  | None => (false, c)
  end.

(** [getStats()]: size, maxSize and the constant hit rate 0. *)
Definition getStats (c : CacheManager V) : Z * Z * Z := (size c, maxSize c, 0).

(** The [while (this.cache.size > this.maxSize)] loop of [setMaxSize].  A
    round that finds [accessOrder] empty changes nothing, so the loop either
    ends within [length accessOrder] rounds or never ends; [None] stands for
    a loop that never ends. *)
Fixpoint evictWhileOver (fuel : nat) (c : CacheManager V)
  : option (CacheManager V) :=
  match fuel with
  | O => if maxSize c <? size c then None else Some c
  | S fuel' =>
      if maxSize c <? size c
      then evictWhileOver fuel' (evictLeastRecentlyUsed c)
      else Some c
  end.

(** [setMaxSize(newMaxSize)] *)
Definition setMaxSize (newMaxSize : Z) (c : CacheManager V)
  : option (CacheManager V) :=
  evictWhileOver (length (accessOrder c))
    {| cache := cache c; maxSize := newMaxSize; accessOrder := accessOrder c |}.

End Maintenance.

(** [hashCode(str)]: the loop, then [Math.abs(hash).toString(36)]. *)
Definition hashLoop (str : jsstring) : Z :=
  foldl (fun hash char =>
           let hash := JSInt32.shiftLeft hash 5 - hash + Z.of_N char in
           JSInt32.bitAnd hash hash)
        0 str.

Definition hashCode (str : jsstring) : jsstring :=
  match str with
  | [] => codes "0"
  | _ => JSInt32.toString36 (Z.abs (hashLoop str))
  end.

(** [generateKey(code, language, themeKind)] *)
Definition generateKey (code language themeKind : jsstring) : jsstring :=
  language ++ codes ":" ++ themeKind ++ codes ":" ++ hashCode code.

End CacheManager.

(** ** previewEnhancer.ts: the request queue and the cached tokenization *)

Module PreviewEnhancer.
Import Theme.

Record TokenizeRequestMessage := {
  id : jsstring;
  code : jsstring;
  language : jsstring
}.

Record PrioritizedRequest := {
  request : TokenizeRequestMessage;
  priority : Z;
  timestamp : Z
}.

Record TokenizedResponseMessage := {
  responseId : jsstring;
  tokens : list TokenizationService.Token;
  themeData : ThemeData
}.

Definition commonLanguages : list jsstring :=
  map codes ["javascript"; "typescript"; "python"; "java"; "cpp"]%string.

Definition calculatePriority (request : TokenizeRequestMessage) : Z :=
  let priority := 100 in
  let priority :=
    if len (code request) <? 1000 then priority + 50
    else if len (code request) <? 5000 then priority + 20
    else priority in
  if bool_decide (toLowerCase (language request) ∈ commonLanguages)
  then priority + 10 else priority.

(** [requestQueue.sort((a, b) => b.priority - a.priority)]: the sort is
    stable, so the result is the one of a stable insertion sort by
    descending priority. *)
Fixpoint insertByPriority (x : PrioritizedRequest) (l : list PrioritizedRequest)
  : list PrioritizedRequest :=
  match l with
  | [] => [x]
  | y :: l' =>
      if priority y <=? priority x then x :: y :: l'
      else y :: insertByPriority x l'
  end.

Definition sortQueue (requestQueue : list PrioritizedRequest)
  : list PrioritizedRequest :=
  foldr insertByPriority [] requestQueue.

(** [requestQueue.findIndex(r => r.request.id === id)] together with the
    element found. *)
Definition findIndex (requestId : jsstring) (requestQueue : list PrioritizedRequest)
  : option (nat * PrioritizedRequest) :=
  list_find (fun r => id (request r) = requestId) requestQueue.

Definition queueRequest (prioritizedRequest : PrioritizedRequest)
    (requestQueue : list PrioritizedRequest) : list PrioritizedRequest :=
  match findIndex (id (request prioritizedRequest)) requestQueue with
  | Some (existingIndex, existing) =>
      if priority existing <? priority prioritizedRequest
      then sortQueue (<[ existingIndex := prioritizedRequest ]> requestQueue)
      else requestQueue
  | None => sortQueue (requestQueue ++ [prioritizedRequest])
  end.

(** The state the request handling works on. *)
Record State := {
  requestQueue : list PrioritizedRequest;
  activeRequests : gset jsstring;
  maxConcurrentRequests : Z
}.

(** [handleTokenizeRequest(request)] at time [now], up to the scheduling of
    the queue processing. *)
Definition handleTokenizeRequest (highlightingEnabled : bool) (maxBlockSize : Z)
    (now : Z) (request : TokenizeRequestMessage) (s : State) : State :=
  if negb highlightingEnabled then s
  else if bool_decide (id request ∈ activeRequests s) then s
  else if maxBlockSize * 2 <? len (code request) then s
  else {| requestQueue :=
            queueRequest {| request := request;
                            priority := calculatePriority request;
                            timestamp := now |} (requestQueue s);
          activeRequests := activeRequests s;
          maxConcurrentRequests := maxConcurrentRequests s |}.

(** The loop of [processQueue]: the requests handed to [processRequest], in
    order, and the state when the loop is left.  The completion handlers
    that remove an id from [activeRequests] run after the loop. *)
Fixpoint processQueue (maxConcurrentRequests : Z)
    (requestQueue : list PrioritizedRequest) (activeRequests : gset jsstring)
  : list TokenizeRequestMessage * (list PrioritizedRequest * gset jsstring) :=
  match requestQueue with
  | [] => ([], ([], activeRequests))
  | prioritizedRequest :: rest =>
      if Z.of_nat (size activeRequests) <? maxConcurrentRequests
      then
        let r := processQueue maxConcurrentRequests rest
                   (activeRequests ∪ {[ id (request prioritizedRequest) ]}) in
        (request prioritizedRequest :: fst r, snd r)
      else ([], (requestQueue, activeRequests))
  end.

(** The three values of [themeData.kind]. *)
Definition kindName (k : ThemeKind) : jsstring :=
  match k with
  | light => codes "light"
  | dark => codes "dark"
  | highContrast => codes "highContrast"
  end.

Section Tokenization.
(** The environment of the tokenization service, as in
    [TokenizationService.tokenize]. *)
Variable race : jsstring -> jsstring -> ThemeData -> float
                -> TokenizationService.Settled TokenizationService.TokenizedCode.

(** [processRequest(request)]: the response sent to the preview and the new
    cache.  [now] is the time of the cache lookup and [later] the time of the
    cache update.  [None] would mean that the tokenization never settles,
    [Rejected] that it throws. *)
Definition processRequest (cacheEnabled : bool) (maxBlockSize : Z)
    (timeout : float) (theme : ThemeData) (now later : Z)
    (request : TokenizeRequestMessage)
    (cacheManager : CacheManager.CacheManager TokenizationService.TokenizedCode)
  : option (TokenizationService.Settled TokenizedResponseMessage
            * CacheManager.CacheManager TokenizationService.TokenizedCode) :=
  let cacheKey :=
    CacheManager.generateKey (code request) (language request)
      (kindName (kind theme)) in
  let respond (tokenizedCode : TokenizationService.TokenizedCode) :=
    {| responseId := id request;
       tokens := TokenizationService.tokens tokenizedCode;
       themeData := theme |} in
  let looked :=
    if cacheEnabled then CacheManager.get cacheKey now cacheManager
    else (None, cacheManager) in
  match fst looked with
  | Some tokenizedCode =>
      Some (TokenizationService.Fulfilled (respond tokenizedCode), snd looked)
  | None =>
      settled ← TokenizationService.tokenize race (code request)
                  (language request) theme maxBlockSize timeout;
      match settled with
      | TokenizationService.Fulfilled tokenizedCode =>
          Some (TokenizationService.Fulfilled (respond tokenizedCode),
                if cacheEnabled
                then CacheManager.set cacheKey tokenizedCode later (snd looked)
                else snd looked)
      | TokenizationService.Rejected =>
          Some (TokenizationService.Rejected, snd looked)
      end
  end.

End Tokenization.

End PreviewEnhancer.

(** * Vocabulary of the properties *)

Section MatcherVocabulary.
Variable input : jsstring.

(** What every matcher guarantees about the position it hands on. *)
Definition advances (n : nat)
    (mr : nat -> captures -> continuation -> option state) : Prop :=
  forall i c k z, mr i c k = Some z ->
    exists j c', (i + n <= j)%nat /\ ((i <= length input)%nat -> (j <= length input)%nat)
                 /\ k j c' = Some z.

End MatcherVocabulary.

Section MatchVocabulary.
Import Patterns.

Definition familyTypes : list jsstring :=
  [codes "comment"; codes "string"; codes "number"; codes "keyword"].

(** A candidate is a non-empty range of its line and has the type of one
    of the four families. *)
Definition goodMatch (line : jsstring) (x : Match) : Prop :=
  0 <= start x /\ start x < end_ x /\ end_ x <= len line
  /\ Patterns.type x ∈ familyTypes.

(** Every match starts at or after the end of the one kept before it. *)
Fixpoint chained (position : Z) (ms : list Match) : Prop :=
  match ms with
  | [] => True
  | x :: ms' => position <= start x /\ chained (end_ x) ms'
  end.

End MatchVocabulary.

Section PreviewVocabulary.
Import Patterns PreviewScript.

(** The types a span can carry. *)
Definition spanTypes : list jsstring := codes "text" :: familyTypes.

(** The text fields of the spans, concatenated in order. *)
Definition texts (ts : list Token) : jsstring := concat (map text ts).

(** What every emitted list of spans satisfies. *)
Definition goodTokens (ts : list Token) : Prop :=
  Forall (fun t => text t <> []) ts /\ Forall (fun t => type t ∈ spanTypes) ts.



End PreviewVocabulary.

Section ServiceVocabulary.
Import Patterns Theme TokenizationService.

(** The text fields of the tokens, concatenated in order. *)
Definition tokenTexts (ts : list Token) : jsstring := concat (map text ts).

(** A token carries exactly one scope, one of the span types. *)
Definition scopeIn (tys : list jsstring) (t : Token) : Prop :=
  exists ty, scopes t = [ty] /\ ty ∈ tys.

Definition goodServiceTokens (ts : list Token) : Prop :=
  Forall (fun t => text t <> []) ts /\ Forall (scopeIn spanTypes) ts.

(** The language of a settled result, where it is a string. *)
Definition languageOf
    (o : option (TokenizationService.Settled TokenizationService.TokenizedCode))
  : option jsstring :=
  match o with
  | Some (TokenizationService.Fulfilled result) =>
      match TokenizationService.language result with
      | Theme.Str name => Some name
      | Theme.Member _ => None
      end
  | _ => None
  end.

(** The text of a settled result. *)
Definition textOf
    (o : option (TokenizationService.Settled TokenizationService.TokenizedCode))
  : option jsstring :=
  match o with
  | Some (TokenizationService.Fulfilled result) =>
      Some (tokenTexts (TokenizationService.tokens result))
  | _ => None
  end.

(** An environment in which the internal tokenization always fails or
    times out. *)
Definition alwaysRejected (code language : jsstring) (themeData : Theme.ThemeData)
    (timeout : float)
  : TokenizationService.Settled TokenizationService.TokenizedCode :=
  TokenizationService.Rejected.

End ServiceVocabulary.

Section CacheVocabulary.
Import CacheManager.
Context {V : Type}.
Implicit Types (c : CacheManager V) (k : jsstring) (v : V) (now : Z).

(** The bookkeeping invariant: [accessOrder] lists the keys of the map,
    each once, and holds no empty key. *)
Definition wellFormed c : Prop :=
  NoDup (accessOrder c)
  /\ dom (cache c) = list_to_set (accessOrder c)
  /\ ([] : jsstring) ∉ accessOrder c.

(** [set] on each pair in turn. *)
Definition setAll (kvs : list (jsstring * V)) now c : CacheManager V :=
  foldl (fun c kv => set (fst kv) (snd kv) now c) c kvs.

End CacheVocabulary.

(** The token types declared besides the five the pattern tier emits. *)
Definition otherTypes : list jsstring :=
  map codes [ "function"; "class"; "variable"; "constant"; "operator"; "type";
              "parameter"; "property"; "punctuation"; "regexp" ]%string.

(** The twelve types the preview script's table knows. *)
Definition previewTypes : list jsstring :=
  map codes [ "comment"; "string"; "keyword"; "number"; "function"; "class";
              "variable"; "constant"; "operator"; "type"; "punctuation";
              "regexp" ]%string.

(** The palette key of a token type, in the words of the specification:
    [method], [event] and [macro] use the key of [function]; [interface],
    [enum], [struct], [namespace] and [typeParameter] the key of [type];
    [modifier] the key of [keyword]; [enumMember] the key of [constant]; the
    fourteen palette names map to themselves; every other type falls back to
    [variable]. *)
Definition specPaletteKey (tokenType : jsstring) : jsstring :=
  if bool_decide (tokenType ∈ map codes ["method"; "event"; "macro"]%string)
  then codes "function"
  else if bool_decide (tokenType ∈ map codes
            ["interface"; "enum"; "struct"; "namespace"; "typeParameter"]%string)
  then codes "type"
  else if bool_decide (tokenType = codes "modifier") then codes "keyword"
  else if bool_decide (tokenType = codes "enumMember") then codes "constant"
  else if bool_decide (tokenType ∈ map codes
            [ "comment"; "string"; "keyword"; "number"; "function"; "class";
              "type"; "variable"; "parameter"; "property"; "constant";
              "operator"; "punctuation"; "regexp" ]%string)
  then tokenType
  else codes "variable".

(** The color [#vvvvvv] of a gray level [0 <= v < 256]. *)
Definition grayHex (v : Z) : jsstring :=
  let hexDigit (d : Z) := Z.to_N (if d <? 10 then 48 + d else 87 + d) in
  let hex2 := [hexDigit (v / 16); hexDigit (v mod 16)] in
  35%N :: hex2 ++ hex2 ++ hex2.

Definition grayKind (v : Z) : Theme.ThemeKind :=
  if (v <=? 12) || (243 <=? v) then Theme.highContrast
  else if 128 <=? v then Theme.light else Theme.dark.

(** The dark theme of the service's test suite. *)
Definition mockThemeData : Theme.ThemeData :=
  {| Theme.kind := Theme.dark;
     Theme.colors :=
       Theme.object
         [ ("comment", "#6a9955"); ("string", "#ce9178"); ("keyword", "#569cd6");
           ("number", "#b5cea8"); ("function", "#dcdcaa"); ("class", "#4ec9b0");
           ("variable", "#9cdcfe"); ("constant", "#4fc1ff");
           ("operator", "#d4d4d4"); ("type", "#4ec9b0");
           ("parameter", "#9cdcfe"); ("property", "#9cdcfe");
           ("punctuation", "#d4d4d4"); ("regexp", "#d16969") ]%string;
     Theme.background := codes "#1e1e1e";
     Theme.foreground := codes "#d4d4d4";
     Theme.borderColor := codes "#404040";
     Theme.borderColorSubtle := codes "#303030";
     Theme.buttonBackground := codes "#252526cc";
     Theme.buttonForeground := codes "#cccccc";
     Theme.buttonHoverBackground := codes "#2a2d2e";
     Theme.accentColor := codes "#569cd6" |}.

(** ['const answer = 42; // note\n'.repeat(400)]: 10800 characters on 401
    lines. *)
Definition longBlock : jsstring :=
  concat (replicate 400 (codes "const answer = 42; // note" ++ [LF])).

(** ['const x = 1;\n'.repeat(1000)], the large block of the test suite:
    13000 characters on 1001 lines. *)
Definition largeCode : jsstring :=
  concat (replicate 1000 (codes "const x = 1;" ++ [LF])).

(** ** Vocabulary of the further properties *)

Section CacheOperations.
Import CacheManager.
Context {V : Type}.

(** The calls a user of the cache can make. *)
Inductive Operation :=
| OpSet (k : jsstring) (v : V) (now : Z)
| OpGet (k : jsstring) (now : Z)
| OpDelete (k : jsstring)
| OpClear.

Definition perform (c : CacheManager V) (o : Operation) : CacheManager V :=
  match o with
  | OpSet k v now => set k v now c
  | OpGet k now => snd (get k now c)
  | OpDelete k => snd (delete k c)
  | OpClear => clear c
  end.

Definition performAll (ops : list Operation) (c : CacheManager V) : CacheManager V :=
  foldl perform c ops.

(** No [set] uses the empty string as its key. *)
Definition setsNonEmptyKey (o : Operation) : Prop :=
  match o with
  | OpSet k _ _ => k <> []
  | _ => True
  end.

(** The state of the loop of [setMaxSize] after [n] rounds. *)
Definition rounds (n : nat) (newMaxSize : Z) (c : CacheManager V) : CacheManager V :=
  Nat.iter n evictLeastRecentlyUsed
    {| cache := cache c; maxSize := newMaxSize; accessOrder := accessOrder c |}.

End CacheOperations.
Arguments Operation : clear implicits.

(** The polynomial the hash functions compute modulo 2^32. *)
Definition polynomial (str : jsstring) : Z :=
  foldl (fun h char => 31 * h + Z.of_N char) 0 str.

(** The number a string of base-36 digits [0-9a-z] denotes. *)
Definition base36Value (s : jsstring) : Z :=
  foldl (fun acc c => acc * 36 + (if (c <? 58)%N then Z.of_N c - 48 else Z.of_N c - 87))
        0 s.

Section QueueVocabulary.
Import PreviewEnhancer.

(** The queue is sorted by descending priority. *)
Fixpoint descending (q : list PrioritizedRequest) : Prop :=
  match q with
  | [] => True
  | x :: q' => Forall (fun y => priority y <= priority x) q' /\ descending q'
  end.

Definition ids (q : list PrioritizedRequest) : list jsstring :=
  map (fun r => id (request r)) q.

(** [queueRequest] on each request in turn, from the empty queue. *)
Definition queueAll (prs : list PrioritizedRequest) : list PrioritizedRequest :=
  foldl (fun q pr => queueRequest pr q) [] prs.

(** [handleTokenizeRequest] on each request in turn, with its arrival
    time. *)
Definition handleAll (highlightingEnabled : bool) (maxBlockSize : Z)
    (arrivals : list (Z * TokenizeRequestMessage)) (s : State) : State :=
  foldl (fun s a => handleTokenizeRequest highlightingEnabled maxBlockSize
                      (fst a) (snd a) s) s arrivals.

End QueueVocabulary.

Section ServeVocabulary.
Import Theme TokenizationService PreviewEnhancer.
Variable race : jsstring -> jsstring -> ThemeData -> float -> Settled TokenizedCode.

(** A request as [processRequest] meets it: the theme of the moment, the
    times of the cache lookup and of the cache update, and the message. *)
Record Arrival := {
  arrivalTheme : ThemeData;
  arrivalNow : Z;
  arrivalLater : Z;
  arrivalRequest : TokenizeRequestMessage
}.

(** The cache after [processRequest] has handled each arrival in turn, with
    the cache enabled. *)
Definition serve (maxBlockSize : Z) (timeout : float) (arrivals : list Arrival)
    (c : CacheManager.CacheManager TokenizedCode)
  : CacheManager.CacheManager TokenizedCode :=
  foldl (fun c a =>
           match processRequest race true maxBlockSize timeout (arrivalTheme a)
                   (arrivalNow a) (arrivalLater a) (arrivalRequest a) c with
           | Some (_, c') => c'
           | None => c
           end) c arrivals.

End ServeVocabulary.

Section TilingVocabulary.
Import TokenizationService.

(** The token lies inside [code] and carries the text at its offsets. *)
Definition located (code : jsstring) (t : Token) : Prop :=
  0 <= startIndex t <= endIndex t /\ endIndex t <= len code
  /\ text t = substring code (startIndex t) (endIndex t).

(** The tokens cover [from, to) of [code] in order, without gap or
    overlap. *)
Fixpoint tiles (code : jsstring) (from : Z) (ts : list Token) (to : Z) : Prop :=
  match ts with
  | [] => from = to
  | t :: ts' => startIndex t = from /\ located code t /\ tiles code (endIndex t) ts' to
  end.

(** Each token starts where the one before it ends and is as long as its
    text. *)
Fixpoint contiguous (from : Z) (ts : list Token) (to : Z) : Prop :=
  match ts with
  | [] => from = to
  | t :: ts' =>
      startIndex t = from /\ endIndex t = from + len (text t)
      /\ contiguous (endIndex t) ts' to
  end.

(** What [fillGapsWithPlainTokens] expects of the tokens it is given: in
    order, without overlap, inside the text, each carrying the text at its
    offsets. *)
Fixpoint placed (text : jsstring) (lastEnd : Z) (tokens : list Token) : Prop :=
  match tokens with
  | [] => lastEnd <= len text
  | t :: rest =>
      lastEnd <= startIndex t /\ located text t /\ placed text (endIndex t) rest
  end.

(** The offset [i] lies inside one of the tokens. *)
Definition covered (tokens : list Token) (i : Z) : Prop :=
  Exists (fun t => startIndex t <= i < endIndex t) tokens.

(** The offsets at which the chunks end that are not the last one, the
    first chunk starting at [position]: there the code has the newline
    that [join] put between two lines, and the next chunk starts one
    further. *)
Fixpoint separators (chunks : list (list jsstring)) (position : Z) : list Z :=
  match chunks with
  | [] => []
  | chunkLines :: rest =>
      match rest with
      | [] => []
      | _ :: _ =>
          let next := position + len (join LF chunkLines) in
          next :: separators rest (next + 1)
      end
  end.

(** The offsets of the newlines between the chunks of [code], as
    [tokenizeWithStreaming] cuts it. *)
Definition chunkSeparators (code : jsstring) : list Z :=
  let lines := split LF code in
  separators (slices (length lines) STREAMING_CHUNK_SIZE lines) 0.

End TilingVocabulary.

Section SemanticVocabulary.
Import TokenizationService.

(** The text a semantic token designates: [n] code units from column [c] of
    line [l]. *)
Definition lineText (lines : list jsstring) (l c n : N) : jsstring :=
  match lines !! N.to_nat l with
  | Some line => substring line (Z.of_N c) (Z.of_N c + Z.of_N n)
  | None => []
  end.

(** The texts the groups of [data] designate, decoded from the deltas. *)
Fixpoint designated (lines : list jsstring) (data : list SemanticToken)
    (currentLine currentChar : N) : list jsstring :=
  match data with
  | [] => []
  | d :: rest =>
      let currentLine := (currentLine + deltaLine d)%N in
      let currentChar :=
        if (deltaLine d =? 0)%N then (currentChar + deltaStartChar d)%N
        else deltaStartChar d in
      lineText lines currentLine currentChar (length_ d)
      :: designated lines rest currentLine currentChar
  end.

(** Semantic tokens as the protocol sends them: each token lies on one line
    of the text, and a token does not start inside the one before it. *)
Fixpoint onLines (lines : list jsstring) (data : list SemanticToken)
    (currentLine currentChar previousLength : N) : Prop :=
  match data with
  | [] => True
  | d :: rest =>
      let currentLine := (currentLine + deltaLine d)%N in
      let currentChar' :=
        if (deltaLine d =? 0)%N then (currentChar + deltaStartChar d)%N
        else deltaStartChar d in
      (deltaLine d = 0%N -> (previousLength <= deltaStartChar d)%N)
      /\ (exists line, lines !! N.to_nat currentLine = Some line
                       /\ Z.of_N currentChar' + Z.of_N (length_ d) <= len line)
      /\ onLines lines rest currentLine currentChar' (length_ d)
  end.

End SemanticVocabulary.

(** Inputs of the examples. *)
Definition sampleOperations : list (Operation nat) :=
  [ OpSet (codes "a") 1%nat 0; OpSet (codes "b") 2%nat 1; OpGet (codes "a") 2;
    OpSet (codes "c") 3%nat 3; OpDelete (codes "b"); OpSet (codes "d") 4%nat 4;
    OpSet (codes "e") 5%nat 5 ].

Definition twoEntries : CacheManager.CacheManager nat :=
  setAll [(codes "a", 1%nat); (codes "b", 2%nat)] 0 (CacheManager.new 2).

Definition threeEntries : CacheManager.CacheManager nat :=
  setAll [(codes "a", 1%nat); (codes "b", 2%nat); (codes "c", 3%nat)] 0
    (CacheManager.new 3).

Definition idleState : PreviewEnhancer.State :=
  {| PreviewEnhancer.requestQueue := [];
     PreviewEnhancer.activeRequests := {[ codes "block-2" ]};
     PreviewEnhancer.maxConcurrentRequests := 5 |}.

Definition sampleArrivals : list (Z * PreviewEnhancer.TokenizeRequestMessage) :=
  [ (0, {| PreviewEnhancer.id := codes "block-1";
           PreviewEnhancer.code := codes "SELECT 1";
           PreviewEnhancer.language := codes "sql" |});
    (1, {| PreviewEnhancer.id := codes "block-2";
           PreviewEnhancer.code := codes "x";
           PreviewEnhancer.language := codes "python" |});
    (2, {| PreviewEnhancer.id := codes "block-3";
           PreviewEnhancer.code := codes "let x = 1;";
           PreviewEnhancer.language := codes "JavaScript" |});
    (3, {| PreviewEnhancer.id := codes "block-1";
           PreviewEnhancer.code := codes "SELECT 2";
           PreviewEnhancer.language := codes "sql" |}) ].

Definition firstRequest : PreviewEnhancer.TokenizeRequestMessage :=
  {| PreviewEnhancer.id := codes "block-1";
     PreviewEnhancer.code := codes "return 'Aa';";
     PreviewEnhancer.language := codes "js" |}.

Definition sameRequest : PreviewEnhancer.TokenizeRequestMessage :=
  {| PreviewEnhancer.id := codes "block-7";
     PreviewEnhancer.code := codes "return 'Aa';";
     PreviewEnhancer.language := codes "js" |}.

(** 501 line feeds: 502 empty lines, two chunks. *)
Definition emptyLines : jsstring := replicate 501 LF.

(** [let x = 1] on the first line and [foo(x)] on the second, with the
    semantic tokens of [x] (a variable), [foo] (a function) and [x]. *)
Definition sampleText : jsstring := codes "let x = 1" ++ LF :: codes "foo(x)".

Definition sampleData : list TokenizationService.SemanticToken :=
  [ {| TokenizationService.deltaLine := 0; TokenizationService.deltaStartChar := 4;
       TokenizationService.length_ := 1; TokenizationService.tokenType := 8;
       TokenizationService.tokenModifiers := 0 |};
    {| TokenizationService.deltaLine := 1; TokenizationService.deltaStartChar := 0;
       TokenizationService.length_ := 3; TokenizationService.tokenType := 12;
       TokenizationService.tokenModifiers := 0 |};
    {| TokenizationService.deltaLine := 0; TokenizationService.deltaStartChar := 4;
       TokenizationService.length_ := 1; TokenizationService.tokenType := 8;
       TokenizationService.tokenModifiers := 0 |} ].

(** * Properties *)

(** ** The matcher stays inside the input and uses at least [minLength] *)

Section MatcherFacts.
Variables (ignoreCase multiline : bool) (input : jsstring).

Lemma charAt_lt i x : charAt input i = Some x -> (i < length input)%nat.
Proof. unfold charAt. apply lookup_lt_Some. Qed.

Lemma sameRun_bound n a i :
  sameRun ignoreCase input n a i = true ->
  (i <= length input)%nat -> (i + n <= length input)%nat.
Proof.
  revert a i. induction n as [|n IH]; intros a i H Hi; simpl in H; [lia|].
  destruct (charAt input a); [|discriminate].
  destruct (charAt input i) eqn:Ei; [|discriminate].
  apply andb_true_iff in H as [_ H].
  apply charAt_lt in Ei. apply IH in H; lia.
Qed.

Lemma repeatMatcher_advances n mr groups greedy k fuel min max i c z :
  advances input n mr ->
  repeatMatcher mr groups greedy k fuel min max i c = Some z ->
  exists j c',
    (i + match max, min with Some O, _ | _, O => 0 | _, _ => n end <= j)%nat
    /\ ((i <= length input)%nat -> (j <= length input)%nat)
    /\ k j c' = Some z.
Proof.
  intros Hmr. revert min max i c.
  induction fuel as [|fuel IH]; intros min max i c H.
  - destruct max as [[|?]|]; simpl in H; try discriminate.
    exists i, c. repeat split; auto; lia.
  - destruct max as [[|mx]|]; simpl in H.
    + exists i, c. repeat split; auto; lia.
    + destruct min as [|mn]; simpl in H.
      * assert (Hk : k i c = Some z \/
                     mr i (clearCaptures groups c)
                       (fun j c' => if (j =? i)%nat then None
                          else repeatMatcher mr groups greedy k fuel 0
                                 (Some (Nat.pred (S mx))) j c') = Some z).
        { destruct greedy.
          - destruct (mr i _ _) eqn:E; [right; congruence | left; exact H].
          - destruct (k i c) eqn:E; [left; congruence| right; exact H]. }
        destruct Hk as [Hk|Hk].
        -- exists i, c. repeat split; auto; lia.
        -- apply Hmr in Hk as (j & c1 & ? & ? & Hk).
           destruct (j =? i)%nat; [discriminate|].
           apply IH in Hk as (j' & c' & ? & ? & ?).
           exists j', c'. repeat split; auto; lia.
      * apply Hmr in H as (j & c1 & ? & ? & Hk).
        apply IH in Hk as (j' & c' & ? & ? & ?).
        exists j', c'. repeat split; auto; lia.
    + destruct min as [|mn]; simpl in H.
      * assert (Hk : k i c = Some z \/
                     mr i (clearCaptures groups c)
                       (fun j c' => if (j =? i)%nat then None
                          else repeatMatcher mr groups greedy k fuel 0
                                 None j c') = Some z).
        { destruct greedy.
          - destruct (mr i _ _) eqn:E; [right; congruence | left; exact H].
          - destruct (k i c) eqn:E; [left; congruence| right; exact H]. }
        destruct Hk as [Hk|Hk].
        -- exists i, c. repeat split; auto; lia.
        -- apply Hmr in Hk as (j & c1 & ? & ? & Hk).
           destruct (j =? i)%nat; [discriminate|].
           apply IH in Hk as (j' & c' & ? & ? & ?).
           exists j', c'. repeat split; auto; lia.
      * apply Hmr in H as (j & c1 & ? & ? & Hk).
        apply IH in Hk as (j' & c' & ? & ? & ?).
        exists j', c'. repeat split; auto; lia.
Qed.

Lemma m_advances r :
  advances input (minLength r) (m ignoreCase multiline input r).
Proof.
  induction r as [|ch|cs|r1 IH1 r2 IH2|r1 IH1 r2 IH2|min max greedy r IH
                 |n r IH|n|r IH| |]; intros i c k z H; simpl in H.
  - exists i, c. repeat split; auto; simpl; lia.
  - destruct (charAt input i) eqn:E; [|discriminate].
    destruct (N.eqb _ _); [|discriminate]. apply charAt_lt in E.
    exists (S i), c. repeat split; auto; simpl; lia.
  - destruct (charAt input i) eqn:E; [|discriminate].
    destruct (inSet cs n); [|discriminate]. apply charAt_lt in E.
    exists (S i), c. repeat split; auto; simpl; lia.
  - apply IH1 in H as (j1 & c1 & ? & ? & H).
    apply IH2 in H as (j2 & c2 & ? & ? & H).
    exists j2, c2. repeat split; auto; simpl; lia.
  - destruct (m _ _ _ r1 i c k) eqn:E.
    + inversion H; subst. apply IH1 in E as (j & c' & ? & ? & ?).
      exists j, c'. repeat split; auto; simpl; lia.
    + apply IH2 in H as (j & c' & ? & ? & ?).
      exists j, c'. repeat split; auto; simpl; lia.
  - eapply repeatMatcher_advances in H; [|exact IH]. exact H.
  - apply IH in H as (j & c' & ? & ? & ?).
    exists j, (setCapture n (i, j) c'). repeat split; auto.
  - destruct (getCapture n c) as [[a b]|].
    + destruct (sameRun _ _ _ _ _) eqn:E; [|discriminate].
      exists (i + (b - a))%nat, c. repeat split; auto; simpl; try lia.
      intros Hi. eapply sameRun_bound; eauto.
    + exists i, c. repeat split; auto; simpl; lia.
  - destruct (m _ _ _ r i c _) as [[? c']|]; [|discriminate].
    exists i, c'. repeat split; auto; simpl; lia.
  - destruct (xorb _ _); [|discriminate].
    exists i, c. repeat split; auto; simpl; lia.
  - assert (k i c = Some z) as Hk.
    { destruct (charAt input i); [destruct (_ && _)|destruct (_ =? _)%nat];
        congruence. }
    exists i, c. repeat split; auto; simpl; lia.
Qed.

Lemma matchAt_bounds r i e c :
  (i <= length input)%nat ->
  matchAt ignoreCase multiline input r i = Some (e, c) ->
  (i + minLength r <= e <= length input)%nat.
Proof.
  intros Hi H. apply m_advances in H as (j & c' & ? & ? & H).
  inversion H; subst. lia.
Qed.

Lemma scan_bounds r n i0 i e c :
  (i0 + n = S (length input))%nat ->
  scan ignoreCase multiline input r n i0 = Some (i, (e, c)) ->
  (i0 <= i)%nat /\ (i + minLength r <= e <= length input)%nat.
Proof.
  revert i0. induction n as [|n IH]; intros i0 Hn H; simpl in H; [discriminate|].
  destruct (matchAt _ _ _ r i0) as [[e' c']|] eqn:E.
  - inversion H; subst. apply matchAt_bounds in E; lia.
  - apply IH in H; lia.
Qed.

Lemma exec_bounds r lastIndex i e c :
  exec ignoreCase multiline input r lastIndex = Some (i, (e, c)) ->
  (lastIndex <= i)%nat /\ (i + minLength r <= e <= length input)%nat.
Proof.
  unfold exec. destruct (_ <? _)%nat eqn:E; [discriminate|].
  apply Nat.ltb_ge in E. apply scan_bounds. lia.
Qed.

(** A pattern that cannot match the empty string makes the [exec] loop
    end, with matches that are non-empty and inside the input. *)
Lemma execLoop_total r fuel lastIndex :
  (1 <= minLength r)%nat ->
  (lastIndex <= length input)%nat ->
  (length input - lastIndex < fuel)%nat ->
  exists ms,
    execLoop ignoreCase multiline input r fuel lastIndex = Some ms
    /\ Forall (fun p => (fst p < snd p <= length input)%nat) ms.
Proof.
  intros Hr. revert lastIndex.
  induction fuel as [|fuel IH]; intros lastIndex Hl Hf; [lia|]. simpl.
  destruct (exec _ _ _ r lastIndex) as [[i [e c]]|] eqn:E.
  - apply exec_bounds in E as [? ?].
    destruct (IH e) as (ms & -> & Hms); [lia..|].
    exists ((i, e) :: ms). split; [reflexivity|].
    constructor; [simpl; lia|exact Hms].
  - exists []. split; [reflexivity|constructor].
Qed.

Lemma execAll_total r :
  (1 <= minLength r)%nat ->
  exists ms,
    execAll ignoreCase multiline input r = Some ms
    /\ Forall (fun p => (fst p < snd p <= length input)%nat) ms.
Proof. intros Hr. apply execLoop_total; [exact Hr|lia..]. Qed.

End MatcherFacts.

(** ** Strings: [substring], [split] and [join] *)

Section StringFacts.

Lemma substring_inside (s : jsstring) a b :
  0 <= a <= b -> b <= len s ->
  substring s a b = take (Z.to_nat (b - a)) (drop (Z.to_nat a) s).
Proof.
  intros Ha Hb. unfold substring. cbv zeta.
  replace (Z.max a 0) with a by lia. replace (Z.max b 0) with b by lia.
  replace (Z.min a (len s)) with a by lia.
  replace (Z.min b (len s)) with b by lia.
  replace (Z.min a b) with a by lia. replace (Z.max a b) with b by lia.
  reflexivity.
Qed.

Lemma substring_length (s : jsstring) a b :
  0 <= a <= b -> b <= len s -> Z.of_nat (length (substring s a b)) = b - a.
Proof.
  intros Ha Hb. rewrite substring_inside by assumption.
  unfold len in Hb. rewrite length_take, length_drop. lia.
Qed.

Lemma substring_app (s : jsstring) a b c :
  0 <= a <= b -> b <= c -> c <= len s ->
  substring s a b ++ substring s b c = substring s a c.
Proof.
  intros Ha Hb Hc. rewrite !substring_inside by lia.
  replace (drop (Z.to_nat b) s)
    with (drop (Z.to_nat (b - a)) (drop (Z.to_nat a) s))
    by (rewrite drop_drop; f_equal; lia).
  rewrite take_take_drop. f_equal. lia.
Qed.

Lemma substring_all (s : jsstring) : substring s 0 (len s) = s.
Proof.
  rewrite substring_inside by (unfold len; lia).
  simpl. apply take_ge. unfold len. lia.
Qed.

Lemma substring_empty (s : jsstring) a : 0 <= a <= len s -> substring s a a = [].
Proof.
  intros Ha. rewrite substring_inside by lia.
  rewrite Z.sub_diag. reflexivity.
Qed.

Lemma substring_nonempty (s : jsstring) a b :
  0 <= a < b -> b <= len s -> substring s a b <> [].
Proof.
  intros Ha Hb E. apply (f_equal (fun l => Z.of_nat (length l))) in E.
  rewrite substring_length in E by lia. simpl in E. lia.
Qed.

Lemma split_nonempty sep s : split sep s <> [].
Proof.
  destruct s as [|c s]; simpl; [discriminate|].
  destruct (N.eqb c sep); [discriminate|].
  destruct (split sep s); discriminate.
Qed.

Lemma join_cons sep l ls :
  join sep (l :: ls) = l ++ match ls with [] => [] | _ => sep :: join sep ls end.
Proof. destruct ls; simpl; [rewrite app_nil_r|]; reflexivity. Qed.

Lemma join_split sep s : join sep (split sep s) = s.
Proof.
  induction s as [|c s IH]; [reflexivity|]. simpl.
  destruct (N.eqb c sep) eqn:E.
  - apply N.eqb_eq in E. subst c. rewrite join_cons. simpl.
    destruct (split sep s) eqn:Es; [exfalso; eapply split_nonempty; eauto|].
    rewrite IH. reflexivity.
  - destruct (split sep s) as [|l ls] eqn:Es; [exfalso; eapply split_nonempty; eauto|].
    rewrite join_cons in IH |- *. simpl. rewrite IH. reflexivity.
Qed.

End StringFacts.

(** ** Candidate matches, the sort and the overlap filter *)

Section MatchFacts.
Import Patterns.

Lemma findAll_total ic ml r ty line :
  (1 <= minLength r)%nat -> codes ty ∈ familyTypes ->
  exists ms, findAll ic ml r ty line = Some ms /\ Forall (goodMatch line) ms.
Proof.
  intros Hr Hty. unfold findAll.
  destruct (execAll_total ic ml line r Hr) as (ps & -> & Hps).
  eexists. split; [reflexivity|].
  apply Forall_map. revert Hps. apply List.Forall_impl.
  intros [i e] [H1 H2]. simpl in *. unfold goodMatch, len. simpl.
  repeat split; try lia. exact Hty.
Qed.

Lemma minLength_commentPattern : (1 <= minLength commentPattern)%nat.
Proof. vm_compute. lia. Qed.

Lemma minLength_stringPattern : (1 <= minLength stringPattern)%nat.
Proof. vm_compute. lia. Qed.

Lemma minLength_numberPattern : (1 <= minLength numberPattern)%nat.
Proof. vm_compute. lia. Qed.

Lemma minLength_preview_keywords :
  (1 <= minLength (keywordPattern PreviewScript.keywords))%nat.
Proof. vm_compute. lia. Qed.

Lemma minLength_service_keywords :
  (1 <= minLength (keywordPattern TokenizationService.keywords))%nat.
Proof. vm_compute. lia. Qed.

Lemma insertByStart_elem x y l : y ∈ insertByStart x l <-> y = x \/ y ∈ l.
Proof.
  induction l as [|z l IH]; simpl.
  - set_solver.
  - destruct (start x <=? start z); rewrite !elem_of_cons; [tauto|].
    rewrite IH. tauto.
Qed.

Lemma sortByStart_elem y ms : y ∈ sortByStart ms <-> y ∈ ms.
Proof.
  induction ms as [|x ms IH]; simpl; [reflexivity|].
  rewrite insertByStart_elem, elem_of_cons, IH. reflexivity.
Qed.

Lemma sortByStart_Forall (P : Match -> Prop) ms :
  Forall P ms -> Forall P (sortByStart ms).
Proof.
  rewrite !List.Forall_forall. intros H y Hy.
  apply H, list_elem_of_In, sortByStart_elem, list_elem_of_In, Hy.
Qed.

Lemma removeOverlaps_elem y lastEnd ms :
  y ∈ removeOverlaps lastEnd ms -> y ∈ ms.
Proof.
  revert lastEnd. induction ms as [|x ms IH]; intros lastEnd; simpl; [auto|].
  destruct (lastEnd <=? start x).
  - rewrite !elem_of_cons. intros [->|H]; [auto|right; eauto].
  - intros H. apply elem_of_cons. right. eauto.
Qed.

Lemma removeOverlaps_Forall (P : Match -> Prop) lastEnd ms :
  Forall P ms -> Forall P (removeOverlaps lastEnd ms).
Proof.
  rewrite !List.Forall_forall. intros H y Hy.
  eapply H, list_elem_of_In, removeOverlaps_elem, list_elem_of_In, Hy.
Qed.

Lemma removeOverlaps_chained lastEnd ms : chained lastEnd (removeOverlaps lastEnd ms).
Proof.
  revert lastEnd. induction ms as [|x ms IH]; intros lastEnd; simpl; [exact I|].
  destruct (lastEnd <=? start x) eqn:E; [|apply IH].
  simpl. split; [lia|apply IH].
Qed.

Lemma chained_from_zero line ms :
  Forall (goodMatch line) ms -> chained (-1) ms -> chained 0 ms.
Proof.
  destruct ms as [|x ms]; simpl; [auto|].
  intros H [_ Hc]. inversion H as [|? ? (? & _) _]; subst. split; [lia|exact Hc].
Qed.


(** The result of sort and filter, for any list of good candidates. *)
Lemma filter_good line ms :
  Forall (goodMatch line) ms ->
  Forall (goodMatch line) (removeOverlaps (-1) (sortByStart ms))
  /\ chained 0 (removeOverlaps (-1) (sortByStart ms)).
Proof.
  intros H.
  assert (Forall (goodMatch line) (removeOverlaps (-1) (sortByStart ms))) as HF
    by (apply removeOverlaps_Forall, sortByStart_Forall, H).
  split; [exact HF|].
  eapply chained_from_zero; [exact HF|apply removeOverlaps_chained].
Qed.

End MatchFacts.

(** ** The preview tokenizer, line by line *)

Section PreviewFacts.
Import Patterns PreviewScript.

Lemma texts_app a b : texts (a ++ b) = texts a ++ texts b.
Proof. unfold texts. rewrite map_app, concat_app. reflexivity. Qed.

Lemma goodTokens_app a b : goodTokens a -> goodTokens b -> goodTokens (a ++ b).
Proof. intros [? ?] [? ?]. split; apply Forall_app; auto. Qed.

Lemma goodTokens_nil : goodTokens [].
Proof. split; constructor. Qed.

Lemma goodTokens_one s ty : s <> [] -> ty ∈ spanTypes ->
  goodTokens [ {| text := s; type := ty |} ].
Proof. intros. split; (constructor; [assumption|constructor]). Qed.

Lemma text_in_spanTypes : codes "text" ∈ spanTypes.
Proof. apply elem_of_cons. left. reflexivity. Qed.

Lemma candidates_total line :
  exists ms, candidates line = Some ms /\ Forall (goodMatch line) ms.
Proof.
  unfold candidates, findComments, findStrings, findNumbers, findKeywords.
  destruct (findAll_total false true commentPattern "comment" line)
    as (cs & -> & Hcs); [apply minLength_commentPattern|vm_compute; set_solver|].
  destruct (findAll_total false false stringPattern "string" line)
    as (ss & -> & Hss); [apply minLength_stringPattern|vm_compute; set_solver|].
  destruct (findAll_total false false numberPattern "number" line)
    as (ns & -> & Hns); [apply minLength_numberPattern|vm_compute; set_solver|].
  destruct (findAll_total true false (keywordPattern keywords) "keyword" line)
    as (ks & -> & Hks); [apply minLength_preview_keywords|vm_compute; set_solver|].
  eexists. split; [reflexivity|]. repeat (apply Forall_app; split); assumption.
Qed.

Lemma filtered_total line :
  exists ms, filtered line = Some ms /\ Forall (goodMatch line) ms /\ chained 0 ms.
Proof.
  unfold filtered. destruct (candidates_total line) as (ms & -> & H).
  eexists. split; [reflexivity|]. apply filter_good, H.
Qed.

Lemma createTokens_spec line position ms :
  0 <= position <= len line ->
  Forall (goodMatch line) ms -> chained position ms ->
  position <= snd (createTokens line position ms) <= len line
  /\ texts (fst (createTokens line position ms))
     = substring line position (snd (createTokens line position ms))
  /\ goodTokens (fst (createTokens line position ms)).
Proof.
  revert position. induction ms as [|x ms IH]; intros position Hp HF Hc; simpl.
  - split; [lia|]. split; [|apply goodTokens_nil].
    symmetry. apply substring_empty. lia.
  - inversion HF as [|? ? (H0 & H1 & H2 & Hty) HF']; subst.
    destruct Hc as [Hpx Hc].
    destruct (IH (end_ x)) as (Hb & Ht & Hg); [lia|assumption..|].
    split; [lia|]. split.
    + rewrite texts_app. change (texts (?t :: ?l)) with (text t ++ texts l).
      simpl. rewrite Ht.
      rewrite (substring_app line (start x)) by lia.
      destruct (position <? start x) eqn:E.
      * change (texts [?t]) with (text t ++ []). simpl. rewrite app_nil_r.
        apply substring_app; lia.
      * assert (position = start x) as -> by lia. reflexivity.
    + apply goodTokens_app.
      * destruct (position <? start x) eqn:E; [|apply goodTokens_nil].
        apply goodTokens_one; [|apply text_in_spanTypes].
        apply substring_nonempty; lia.
      * change (?t :: ?l) with ([t] ++ l). apply goodTokens_app; [|exact Hg].
        apply goodTokens_one; [apply substring_nonempty; lia|].
        apply elem_of_cons. right. exact Hty.
Qed.

Lemma tokenizeLine_spec line isLast :
  exists ts, tokenizeLine line isLast = Some ts
    /\ texts ts = line ++ (if isLast then [] else [LF])
    /\ goodTokens ts.
Proof.
  unfold tokenizeLine.
  destruct (filtered_total line) as (ms & -> & HF & Hc). simpl.
  destruct (createTokens_spec line 0 ms) as (Hb & Ht & Hg);
    [unfold len; lia|assumption..|].
  eexists. split; [reflexivity|]. split.
  - rewrite !texts_app, Ht.
    assert (substring line 0 (snd (createTokens line 0 ms))
            ++ texts (if snd (createTokens line 0 ms) <? len line
                      then [ {| text := substringFrom line (snd (createTokens line 0 ms));
                                type := codes "text" |} ]
                      else []) = line) as Hl.
    { destruct (_ <? _) eqn:E.
      - change (texts [?t]) with (text t ++ []). simpl. rewrite app_nil_r.
        unfold substringFrom. rewrite substring_app by lia. apply substring_all.
      - assert (snd (createTokens line 0 ms) = len line) as -> by lia.
        simpl. rewrite app_nil_r. apply substring_all. }
    rewrite app_assoc, Hl. destruct isLast; reflexivity.
  - repeat apply goodTokens_app; [exact Hg| |].
    + destruct (_ <? _) eqn:E; [|apply goodTokens_nil].
      apply goodTokens_one; [|apply text_in_spanTypes].
      unfold substringFrom. apply substring_nonempty; lia.
    + destruct isLast; [apply goodTokens_nil|].
      apply goodTokens_one; [discriminate|apply text_in_spanTypes].
Qed.

Lemma tokenizeLines_spec lines :
  exists ts, tokenizeLines lines = Some ts
    /\ texts ts = join LF lines /\ goodTokens ts.
Proof.
  induction lines as [|line rest (more & Hm & Ht & Hg)]; simpl tokenizeLines.
  - exists []. repeat split; constructor.
  - destruct (tokenizeLine_spec line (bool_decide (rest = [])))
      as (ts & -> & Hts & Hgs).
    rewrite Hm. eexists. split; [reflexivity|]. split.
    + rewrite texts_app, Hts, Ht, join_cons.
      destruct rest; [rewrite !app_nil_r; reflexivity|].
      rewrite bool_decide_false by discriminate.
      rewrite <- app_assoc. reflexivity.
    + apply goodTokens_app; assumption.
Qed.

Lemma tokenizeCode_spec code language :
  exists ts, tokenizeCode code language = Some ts
    /\ texts ts = code /\ goodTokens ts.
Proof.
  unfold tokenizeCode.
  destruct (tokenizeLines_spec (split LF code)) as (ts & H & Ht & Hg).
  exists ts. rewrite join_split in Ht. auto.
Qed.

End PreviewFacts.

(** ** Tier 3 of the service, line by line *)

Section ServiceFacts.
Import Patterns Theme TokenizationService.
Variable themeData : ThemeData.

Lemma tokenTexts_app a b : tokenTexts (a ++ b) = tokenTexts a ++ tokenTexts b.
Proof. unfold tokenTexts. rewrite map_app, concat_app. reflexivity. Qed.

Lemma tokenTexts_one t : tokenTexts [t] = text t.
Proof. unfold tokenTexts. simpl. apply app_nil_r. Qed.

Lemma goodServiceTokens_app a b :
  goodServiceTokens a -> goodServiceTokens b -> goodServiceTokens (a ++ b).
Proof. intros [? ?] [? ?]. split; apply Forall_app; auto. Qed.

Lemma goodServiceTokens_nil : goodServiceTokens [].
Proof. split; constructor. Qed.

Lemma goodServiceTokens_one t :
  text t <> [] -> scopeIn spanTypes t -> goodServiceTokens [t].
Proof. intros. split; (constructor; [assumption|constructor]). Qed.

Lemma plain_scope s a b : scopeIn spanTypes (plain themeData s a b).
Proof. eexists. split; [reflexivity|apply text_in_spanTypes]. Qed.

Lemma service_candidates_total line :
  exists ms, candidates line = Some ms /\ Forall (goodMatch line) ms.
Proof.
  unfold candidates, findComments, findStrings, findNumbers, findKeywords.
  destruct (findAll_total false true commentPattern "comment" line)
    as (cs & -> & Hcs); [apply minLength_commentPattern|vm_compute; set_solver|].
  destruct (findAll_total false false stringPattern "string" line)
    as (ss & -> & Hss); [apply minLength_stringPattern|vm_compute; set_solver|].
  destruct (findAll_total true false (keywordPattern keywords) "keyword" line)
    as (ks & -> & Hks); [apply minLength_service_keywords|vm_compute; set_solver|].
  destruct (findAll_total false false numberPattern "number" line)
    as (ns & -> & Hns); [apply minLength_numberPattern|vm_compute; set_solver|].
  eexists. split; [reflexivity|]. repeat (apply Forall_app; split); assumption.
Qed.

Lemma filteredMatches_total line :
  exists ms, filteredMatches line = Some ms
    /\ Forall (goodMatch line) ms /\ chained 0 ms.
Proof.
  unfold filteredMatches. destruct (service_candidates_total line) as (ms & -> & H).
  eexists. split; [reflexivity|]. apply filter_good, H.
Qed.

Lemma service_createTokens_spec line position linePosition ms :
  0 <= linePosition <= len line ->
  Forall (goodMatch line) ms -> chained linePosition ms ->
  linePosition <= snd (createTokens themeData line position linePosition ms) <= len line
  /\ tokenTexts (fst (createTokens themeData line position linePosition ms))
     = substring line linePosition
         (snd (createTokens themeData line position linePosition ms))
  /\ goodServiceTokens (fst (createTokens themeData line position linePosition ms)).
Proof.
  revert linePosition.
  induction ms as [|x ms IH]; intros linePosition Hp HF Hc; simpl.
  - split; [lia|]. split; [|apply goodServiceTokens_nil].
    symmetry. apply substring_empty. lia.
  - inversion HF as [|? ? (H0 & H1 & H2 & Hty) HF']; subst.
    destruct Hc as [Hpx Hc].
    destruct (IH (end_ x)) as (Hb & Ht & Hg); [lia|assumption..|].
    split; [lia|]. split.
    + rewrite tokenTexts_app.
      change (tokenTexts (?t :: ?l)) with (text t ++ tokenTexts l).
      simpl. rewrite Ht.
      rewrite (substring_app line (start x)) by lia.
      destruct (linePosition <? start x) eqn:E.
      * rewrite tokenTexts_one. simpl. apply substring_app; lia.
      * assert (linePosition = start x) as -> by lia. reflexivity.
    + apply goodServiceTokens_app.
      * destruct (linePosition <? start x) eqn:E; [|apply goodServiceTokens_nil].
        apply goodServiceTokens_one; [|apply plain_scope].
        apply substring_nonempty; lia.
      * change (?t :: ?l) with ([t] ++ l).
        apply goodServiceTokens_app; [|exact Hg].
        apply goodServiceTokens_one; [apply substring_nonempty; lia|].
        eexists. split; [reflexivity|]. apply elem_of_cons. right. exact Hty.
Qed.

Lemma service_tokenizeLine_spec line position isLast :
  exists r, tokenizeLine themeData line position isLast = Some r
    /\ tokenTexts (fst r) = line ++ (if isLast then [] else [LF])
    /\ goodServiceTokens (fst r).
Proof.
  unfold tokenizeLine.
  destruct (filteredMatches_total line) as (ms & -> & HF & Hc).
  destruct (service_createTokens_spec line position 0 ms) as (Hb & Ht & Hg);
    [unfold len; lia|assumption..|].
  set (r := createTokens themeData line position 0 ms) in *.
  assert (tokenTexts (fst r)
          ++ tokenTexts (if snd r <? len line
                         then [ plain themeData (substringFrom line (snd r))
                                  (position + snd r) (position + len line) ]
                         else []) = line) as Hl.
  { rewrite Ht. destruct (_ <? _) eqn:E.
    - rewrite tokenTexts_one. simpl.
      unfold substringFrom. rewrite substring_app by lia. apply substring_all.
    - assert (snd r = len line) as -> by lia.
      simpl. rewrite app_nil_r. apply substring_all. }
  assert (goodServiceTokens
            (if snd r <? len line
             then [ plain themeData (substringFrom line (snd r))
                      (position + snd r) (position + len line) ]
             else [])) as Hrest.
  { destruct (_ <? _) eqn:E; [|apply goodServiceTokens_nil].
    apply goodServiceTokens_one; [|apply plain_scope].
    unfold substringFrom. simpl. apply substring_nonempty; lia. }
  subst r. cbn [mbind option_bind].
  destruct isLast; eexists; (split; [reflexivity|]); cbn [fst snd]; split.
  - rewrite tokenTexts_app, Hl, app_nil_r. reflexivity.
  - apply goodServiceTokens_app; assumption.
  - rewrite app_assoc, tokenTexts_app, tokenTexts_app, Hl, tokenTexts_one.
    reflexivity.
  - repeat apply goodServiceTokens_app; try assumption.
    apply goodServiceTokens_one; [discriminate|apply plain_scope].
Qed.

Lemma service_tokenizeLines_spec lines position :
  exists ts, tokenizeLines themeData lines position = Some ts
    /\ tokenTexts ts = join LF lines /\ goodServiceTokens ts.
Proof.
  revert position. induction lines as [|line rest IH]; intros position;
    simpl tokenizeLines.
  - exists []. repeat split; constructor.
  - destruct (service_tokenizeLine_spec line position (bool_decide (rest = [])))
      as (r & -> & Hts & Hgs).
    destruct (IH (snd r)) as (more & Hm & Ht & Hg).
    change (exists ts,
      (more ← tokenizeLines themeData rest (snd r); Some (fst r ++ more)) = Some ts
      /\ tokenTexts ts = join LF (line :: rest) /\ goodServiceTokens ts).
    rewrite Hm. eexists. split; [reflexivity|]. split.
    + rewrite tokenTexts_app, Hts, Ht, join_cons.
      destruct rest; [rewrite !app_nil_r; reflexivity|].
      rewrite bool_decide_false by discriminate.
      rewrite <- app_assoc. reflexivity.
    + apply goodServiceTokens_app; assumption.
Qed.

(** Tier 3 always returns; its line loop yields no token exactly on the
    empty input, where the single-token fallback is used. *)
Lemma createMinimalHighlighting_spec code lang :
  exists ts,
    tokenizeLines themeData (split LF code) 0 = Some ts
    /\ createMinimalHighlighting code lang themeData
       = Some {| language := lang;
                 tokens := match ts with
                           | [] => [ plain themeData code 0 (len code) ]
                           | _ => ts
                           end |}
    /\ tokenTexts ts = code /\ goodServiceTokens ts
    /\ (ts = [] <-> code = []).
Proof.
  destruct (service_tokenizeLines_spec (split LF code) 0) as (ts & H & Ht & Hg).
  rewrite join_split in Ht. exists ts.
  split; [exact H|]. split; [unfold createMinimalHighlighting; rewrite H; reflexivity|].
  split; [exact Ht|]. split; [exact Hg|]. split.
  - intros ->. symmetry. exact Ht.
  - intros ->. destruct ts as [|t ts]; [reflexivity|].
    destruct Hg as [Hne _]. inversion Hne as [|? ? Hn _]; subst.
    exfalso. apply Hn.
    change (tokenTexts (t :: ts)) with (text t ++ tokenTexts ts) in Ht.
    apply app_eq_nil in Ht. tauto.
Qed.

End ServiceFacts.

(** * The claims *)

(** C1. For every source text and language hint the pattern tokenizer
    ([tokenizeCode] of the preview script, and likewise the tier-3
    [createMinimalHighlighting]) returns, and the text fields of its spans,
    concatenated in order, give back the source text exactly, the newline
    spans between the lines included. *)
Theorem C1_round_trip (code language : jsstring) (themeData : Theme.ThemeData) :
  (exists ts, PreviewScript.tokenizeCode code language = Some ts
              /\ texts ts = code)
  /\ (exists result,
        TokenizationService.createMinimalHighlighting code language themeData
        = Some result
        /\ tokenTexts (TokenizationService.tokens result) = code).
Proof.
  split.
  - destruct (tokenizeCode_spec code language) as (ts & H & Ht & _). eauto.
  - destruct (createMinimalHighlighting_spec themeData code language)
      as (ts & _ & H & Ht & _ & Hnil).
    eexists. split; [exact H|]. simpl.
    destruct ts as [|t ts]; [|exact Ht].
    rewrite tokenTexts_one. reflexivity.
Qed.

Lemma spanTypes_not_other ty : ty ∈ spanTypes -> ty ∉ otherTypes.
Proof.
  assert (Forall (fun ty => ty ∉ otherTypes) spanTypes) as H
    by (apply (bool_decide_unpack _); vm_compute; exact I).
  rewrite List.Forall_forall in H. intros Hty. apply H, list_elem_of_In, Hty.
Qed.

(** C10. Every span emitted by the pattern tokenizer ([tokenizeCode], and
    likewise [createMinimalHighlighting]) has its type among text, comment,
    string, number and keyword; none of function, class, variable, constant,
    operator, type, parameter, property, punctuation, regexp is produced. *)
Theorem C10_five_span_types (code language : jsstring) (themeData : Theme.ThemeData) :
  (exists ts, PreviewScript.tokenizeCode code language = Some ts
     /\ Forall (fun t => PreviewScript.type t ∈ spanTypes
                         /\ PreviewScript.type t ∉ otherTypes) ts)
  /\ (exists result,
        TokenizationService.createMinimalHighlighting code language themeData
        = Some result
        /\ Forall (fun t => exists ty, TokenizationService.scopes t = [ty]
                              /\ ty ∈ spanTypes /\ ty ∉ otherTypes)
             (TokenizationService.tokens result)).
Proof.
  split.
  - destruct (tokenizeCode_spec code language) as (ts & H & _ & _ & Hty).
    exists ts. split; [exact H|]. revert Hty. apply List.Forall_impl.
    intros t Ht. split; [exact Ht|apply spanTypes_not_other, Ht].
  - destruct (createMinimalHighlighting_spec themeData code language)
      as (ts & _ & H & _ & (_ & Hty) & _).
    eexists. split; [exact H|]. simpl.
    assert (forall t, scopeIn spanTypes t ->
              exists ty, TokenizationService.scopes t = [ty]
                         /\ ty ∈ spanTypes /\ ty ∉ otherTypes) as Himp.
    { intros t (ty & ? & ?). exists ty. auto using spanTypes_not_other. }
    destruct ts as [|t ts].
    + constructor; [|constructor]. apply Himp, plain_scope.
    + revert Hty. apply List.Forall_impl. exact Himp.
Qed.

(** C4 as stated fails at [#808080]: its luminance is 128/255, about 0.502,
    which is above 0.5, so the kind is light and not dark. *)
Lemma C4_counterexample :
  PreviewScript.detectThemeKind (codes "#808080") = Theme.light
  /\ PreviewScript.detectThemeKind (codes "#808080") <> Theme.dark.
Proof. split; [vm_compute; reflexivity|vm_compute; discriminate]. Qed.

(** C4, amended. The kind of a background color is dark when the color does
    not parse; otherwise, with L = (0.299 R + 0.587 G + 0.114 B) / 255, it is
    highContrast when L < 0.05 or L > 0.95, light when L > 0.5, and dark
    otherwise.  So [#000000] and [#ffffff] give highContrast, [#808080]
    (L about 0.502) gives light and [#7f7f7f] (L about 0.498) gives dark;
    over the grays, levels up to 12 and from 243 are highContrast, 13 to 127
    dark and 128 to 242 light. *)
Theorem C4_theme_kind (bgColor : jsstring) :
  PreviewScript.detectThemeKind bgColor
  = match PreviewScript.parseColor bgColor with
    | None => Theme.dark
    | Some rgb =>
        let L := ((0.299 * PreviewScript.r rgb + 0.587 * PreviewScript.g rgb
                   + 0.114 * PreviewScript.b rgb) / 255)%float in
        if ((L <? 0.05) || (0.95 <? L))%float then Theme.highContrast
        else if (0.5 <? L)%float then Theme.light else Theme.dark
    end
  /\ PreviewScript.detectThemeKind (codes "#000000") = Theme.highContrast
  /\ PreviewScript.detectThemeKind (codes "#ffffff") = Theme.highContrast
  /\ PreviewScript.detectThemeKind (codes "#808080") = Theme.light
  /\ PreviewScript.detectThemeKind (codes "#7f7f7f") = Theme.dark
  /\ Forall (fun v => PreviewScript.detectThemeKind (grayHex v) = grayKind v)
       (seqZ 0 256).
Proof.
  split; [reflexivity|].
  repeat (split; [vm_compute; reflexivity|]).
  apply List.Forall_forall. intros v Hv.
  assert (Hall : forallb (fun v => bool_decide
                   (PreviewScript.detectThemeKind (grayHex v) = grayKind v))
                   (seqZ 0 256) = true) by (vm_compute; reflexivity).
  rewrite forallb_forall in Hall. apply Hall in Hv.
  apply bool_decide_eq_true in Hv. exact Hv.
Qed.

Lemma split_single sep s : sep ∉ s -> split sep s = [s].
Proof.
  induction s as [|c s IH]; intros H; [reflexivity|]. simpl.
  destruct (N.eqb c sep) eqn:E.
  - apply N.eqb_eq in E. subst c. exfalso. apply H. apply elem_of_cons. auto.
  - rewrite IH; [reflexivity|]. intros Hs. apply H. apply elem_of_cons. auto.
Qed.

(** C7 as stated fails on the empty input: [tokenizeCode] returns the empty
    list there, and [createMinimalHighlighting] returns one span of length
    zero. *)
Lemma C7_counterexample :
  PreviewScript.tokenizeCode [] (codes "javascript") = Some []
  /\ exists t,
       TokenizationService.createMinimalHighlighting [] (codes "javascript")
         mockThemeData
       = Some {| TokenizationService.language := codes "javascript";
                 TokenizationService.tokens := [t] |}
       /\ TokenizationService.text t = [].
Proof.
  split; [vm_compute; reflexivity|].
  eexists. split; [vm_compute; reflexivity|reflexivity].
Qed.

(** C7, amended. For every input both tokenizers return spans whose texts
    concatenate to the input.  [tokenizeCode] never emits a span of length
    zero, and returns the empty list exactly for the empty input.
    [createMinimalHighlighting] never returns the empty list: for the empty
    input it returns its fallback, one text span of length zero, and for any
    other input no span has length zero.  An input of a single line on which
    no match is kept yields one text span covering the whole input. *)
Theorem C7_spans_and_fallback (code language : jsstring)
    (themeData : Theme.ThemeData) :
  (exists ts,
     PreviewScript.tokenizeCode code language = Some ts
     /\ texts ts = code
     /\ Forall (fun t => PreviewScript.text t <> []) ts
     /\ ((code = [] /\ ts = []) \/ (code <> [] /\ ts <> [])))
  /\ (exists result,
        TokenizationService.createMinimalHighlighting code language themeData
        = Some result
        /\ tokenTexts (TokenizationService.tokens result) = code
        /\ TokenizationService.tokens result <> []
        /\ ((code = []
             /\ TokenizationService.tokens result
                = [TokenizationService.plain themeData [] 0 0])
            \/ (code <> []
                /\ Forall (fun t => TokenizationService.text t <> [])
                     (TokenizationService.tokens result))))
  /\ ((LF ∉ code) -> code <> [] -> PreviewScript.filtered code = Some [] ->
      PreviewScript.tokenizeCode code language
      = Some [ {| PreviewScript.text := code;
                  PreviewScript.type := codes "text" |} ])
  /\ ((LF ∉ code) -> TokenizationService.filteredMatches code = Some [] ->
      TokenizationService.createMinimalHighlighting code language themeData
      = Some {| TokenizationService.language := language;
                TokenizationService.tokens :=
                  [TokenizationService.plain themeData code 0 (len code)] |}).
Proof.
  split; [|split; [|split]].
  - destruct (tokenizeCode_spec code language) as (ts & H & Ht & Hne & _).
    exists ts. repeat (split; [assumption|]).
    destruct ts as [|t ts].
    + left. split; [symmetry; exact Ht|reflexivity].
    + right. split; [|discriminate]. intros ->.
      inversion Hne as [|? ? Hn _]; subst. apply Hn.
      change (texts (t :: ts)) with (PreviewScript.text t ++ texts ts) in Ht.
      apply app_eq_nil in Ht. tauto.
  - destruct (createMinimalHighlighting_spec themeData code language)
      as (ts & _ & H & Ht & (Hne & _) & Hnil).
    eexists. split; [exact H|]. simpl. destruct ts as [|t ts].
    + assert (code = []) as -> by (apply Hnil; reflexivity).
      split; [reflexivity|]. split; [discriminate|]. left. split; reflexivity.
    + split; [exact Ht|]. split; [discriminate|]. right. split; [|exact Hne].
      intros Hc. apply Hnil in Hc. discriminate.
  - intros HLF Hne Hf. unfold PreviewScript.tokenizeCode.
    rewrite split_single by exact HLF.
    unfold PreviewScript.tokenizeLines, PreviewScript.tokenizeLine.
    rewrite Hf. simpl.
    assert ((0 <? len code) = true) as ->
      by (apply Z.ltb_lt; destruct code; [contradiction|unfold len; simpl; lia]).
    unfold substringFrom. rewrite substring_all. reflexivity.
  - intros HLF Hf. unfold TokenizationService.createMinimalHighlighting.
    rewrite split_single by exact HLF.
    unfold TokenizationService.tokenizeLines, TokenizationService.tokenizeLine.
    rewrite Hf. simpl. destruct code as [|c code]; [reflexivity|].
    assert ((0 <? len (c :: code)) = true) as ->
      by (apply Z.ltb_lt; unfold len; simpl; lia).
    unfold substringFrom. rewrite substring_all. reflexivity.
Qed.

(** C7 at the whitespace-only input of three spaces: one text span. *)
Lemma C7_witness :
  PreviewScript.tokenizeCode (codes "   ") (codes "javascript")
  = Some [ {| PreviewScript.text := codes "   ";
              PreviewScript.type := codes "text" |} ]
  /\ TokenizationService.createMinimalHighlighting (codes "   ")
       (codes "javascript") mockThemeData
     = Some {| TokenizationService.language := codes "javascript";
               TokenizationService.tokens :=
                 [TokenizationService.plain mockThemeData (codes "   ") 0 3] |}.
Proof.
  destruct (C7_spans_and_fallback (codes "   ") (codes "javascript") mockThemeData)
    as (_ & _ & H1 & H2).
  split.
  - apply H1; [apply (bool_decide_unpack _); vm_compute; exact I
              |discriminate|vm_compute; reflexivity].
  - apply H2; [apply (bool_decide_unpack _); vm_compute; exact I
              |vm_compute; reflexivity].
Defined.

(** ** Overlapping candidates *)








(** ** Colors *)

(** Reading an object literal. *)
Lemma object_lookup (l : list (string * string)) (t : jsstring) :
  Theme.object l !! t
  = (fun p => codes (snd p)) <$> List.find (fun p => bool_decide (codes (fst p) = t)) l.
Proof.
  unfold Theme.object. induction l as [|[k v] l IH]; [reflexivity|].
  simpl. rewrite lookup_insert. destruct (decide (codes k = t)) as [E|E].
  - rewrite (bool_decide_eq_true_2 _ E). reflexivity.
  - rewrite (bool_decide_eq_false_2 _ E). exact IH.
Qed.

Ltac by_table_key :=
  repeat match goal with
    | |- context [bool_decide (?k = ?t)] =>
        is_var t;
        let E := fresh "E" in
        destruct (decide (k = t)) as [E|E];
        [ rewrite (bool_decide_eq_true_2 _ E); rewrite <- E;
          vm_compute; reflexivity
        | rewrite (bool_decide_eq_false_2 _ E) ]
    end.

Ltac not_in_table :=
  simpl; rewrite ?not_elem_of_cons; repeat split;
  try apply not_elem_of_nil; intros ->; congruence.

Lemma own_palette_key (tokenType : jsstring) :
  Theme.orElse (TokenizationService.typeMapping !! tokenType) (codes "variable")
  = specPaletteKey tokenType.
Proof.
  unfold TokenizationService.typeMapping. rewrite object_lookup.
  cbn [List.find fst snd]. by_table_key.
  unfold specPaletteKey.
  repeat (rewrite bool_decide_eq_false_2; [|not_in_table]).
  reflexivity.
Qed.

Lemma own_preview_key (tokenType : jsstring) :
  match PreviewScript.typeMap !! tokenType with
  | Some (c :: mappedType) => Some (c :: mappedType)
  | _ => None
  end
  = if bool_decide (tokenType ∈ previewTypes) then Some tokenType else None.
Proof.
  unfold PreviewScript.typeMap. rewrite object_lookup.
  cbn [List.find fst snd]. by_table_key.
  rewrite bool_decide_eq_false_2; [reflexivity|].
  unfold previewTypes. not_in_table.
Qed.

(** Reading a property that [Object.prototype] does not have finds own
    properties only. *)
Lemma get_own (o : gmap jsstring jsstring) (key : jsstring) :
  key ∉ Theme.prototypeNames -> Theme.get o key = Theme.Str <$> o !! key.
Proof.
  intros H. unfold Theme.get. destruct (o !! key); [reflexivity|].
  rewrite bool_decide_eq_false_2 by exact H. reflexivity.
Qed.

(** Neither table has an own property named like a member of
    [Object.prototype]: such a name reads the inherited member. *)
Lemma get_inherited (name : jsstring) :
  name ∈ Theme.prototypeNames ->
  Theme.get TokenizationService.typeMapping name = Some (Theme.Member name)
  /\ Theme.get PreviewScript.typeMap name = Some (Theme.Member name)
  /\ Theme.propertyKey (Theme.Member name) ∉ Theme.prototypeNames.
Proof.
  intros H. unfold Theme.prototypeNames in H. cbn [map] in H.
  repeat (apply elem_of_cons in H as [->|H];
          [split; [vm_compute; reflexivity|split; [vm_compute; reflexivity|]];
           apply (bool_decide_unpack _); vm_compute; exact I|]).
  inversion H.
Qed.

Lemma specPaletteKey_own (tokenType : jsstring) :
  specPaletteKey tokenType ∉ Theme.prototypeNames.
Proof.
  unfold specPaletteKey.
  repeat match goal with
         | |- context [bool_decide ?P] =>
             destruct (bool_decide P) eqn:?;
             [apply (bool_decide_unpack _); vm_compute; exact I|]
         end.
  match goal with
  | |- context [bool_decide ?P] => destruct (bool_decide P) eqn:H
  end.
  - apply bool_decide_eq_true in H. cbn [map] in H.
    repeat (apply elem_of_cons in H as [->|H];
            [apply (bool_decide_unpack _); vm_compute; exact I|]).
    inversion H.
  - apply (bool_decide_unpack _). vm_compute. exact I.
Qed.

(** The key the service looks up in the palette is never a name that the
    palette inherits. *)
Lemma service_key_not_inherited (tokenType : jsstring) :
  Theme.propertyKey
    (Theme.valueOrElse (Theme.get TokenizationService.typeMapping tokenType)
       (codes "variable"))
  ∉ Theme.prototypeNames.
Proof.
  destruct (decide (tokenType ∈ Theme.prototypeNames)) as [H|H].
  - destruct (get_inherited tokenType H) as (-> & _ & Hk). exact Hk.
  - rewrite (get_own _ _ H). generalize (own_palette_key tokenType).
    destruct (TokenizationService.typeMapping !! tokenType) as [[|c s]|];
      simpl; intros ->; apply specPaletteKey_own.
Qed.

(** So is the key the preview script looks up. *)
Lemma preview_key_not_inherited (tokenType : jsstring) :
  match Theme.get PreviewScript.typeMap tokenType with
  | Some (Theme.Str (c :: mappedType)) => c :: mappedType ∉ Theme.prototypeNames
  | Some (Theme.Member name) =>
      Theme.propertyKey (Theme.Member name) ∉ Theme.prototypeNames
  | _ => True
  end.
Proof.
  destruct (decide (tokenType ∈ Theme.prototypeNames)) as [H|H].
  - destruct (get_inherited tokenType H) as (_ & -> & Hk). exact Hk.
  - rewrite (get_own _ _ H). generalize (own_preview_key tokenType).
    destruct (PreviewScript.typeMap !! tokenType) as [[|c s]|]; simpl; try tauto.
    destruct (bool_decide (tokenType ∈ previewTypes)) eqn:E; [|discriminate].
    intros Hs. inversion Hs as [Hs']. rewrite Hs'. exact H.
Qed.

Lemma service_palette_key (tokenType : jsstring) :
  tokenType ∉ Theme.prototypeNames ->
  Theme.valueOrElse (Theme.get TokenizationService.typeMapping tokenType)
    (codes "variable")
  = Theme.Str (specPaletteKey tokenType).
Proof.
  intros H. rewrite (get_own _ _ H), <- own_palette_key.
  destruct (TokenizationService.typeMapping !! tokenType) as [[|c s]|]; reflexivity.
Qed.

Lemma preview_palette_key (tokenType : jsstring) (themeData : Theme.ThemeData) :
  tokenType ∉ Theme.prototypeNames ->
  PreviewScript.getColorForTokenType (Some themeData) tokenType
  = if bool_decide (tokenType ∈ previewTypes)
    then Theme.colors themeData !! tokenType else None.
Proof.
  intros H. unfold PreviewScript.getColorForTokenType. rewrite (get_own _ _ H).
  generalize (own_preview_key tokenType).
  destruct (PreviewScript.typeMap !! tokenType) as [[|c s]|];
    destruct (bool_decide (tokenType ∈ previewTypes));
    simpl; intros E; try discriminate; try reflexivity.
  inversion E; subst. reflexivity.
Qed.

(** C8 as stated fails for the colorizer of the preview script: its table
    has no entry for [method], and none for the [text] type of the gap
    spans, and such types get no color at all, although the palette holds
    the keys of [function] and [variable]. *)
Lemma C8_counterexample :
  PreviewScript.getColorForTokenType (Some mockThemeData) (codes "method") = None
  /\ PreviewScript.getColorForTokenType (Some mockThemeData) (codes "text") = None
  /\ Theme.colors mockThemeData !! codes "function" = Some (codes "#dcdcaa")
  /\ Theme.colors mockThemeData !! codes "variable" = Some (codes "#9cdcfe").
Proof. repeat split; vm_compute; reflexivity. Qed.

(** C8, amended. For every token type that is not the name of a member of
    [Object.prototype]: the colorizer of the service maps the type through
    the fixed table ([specPaletteKey]), unknown types falling back to the
    key of [variable], and uses the foreground color of the theme when the
    palette has no color, or an empty one, under that key; so it produces a
    color for the type.  The colorizer of the preview script maps only its
    twelve types, each to itself, and produces no color for any other such
    type, nor when the palette lacks the key or no theme is set. *)
Theorem C8_palette_lookup (tokenType : jsstring) (themeData : Theme.ThemeData) :
  tokenType ∉ Theme.prototypeNames ->
  TokenizationService.getColorForTokenType tokenType themeData
  = match Theme.colors themeData !! specPaletteKey tokenType with
    | Some (c :: color) => c :: color
    | _ => Theme.foreground themeData
    end
  /\ PreviewScript.getColorForTokenType (Some themeData) tokenType
     = (if bool_decide (tokenType ∈ previewTypes)
        then Theme.colors themeData !! tokenType else None)
  /\ PreviewScript.getColorForTokenType None tokenType = None.
Proof.
  intros H. split; [|split; [|reflexivity]].
  - unfold TokenizationService.getColorForTokenType.
    rewrite (service_palette_key _ H). reflexivity.
  - apply preview_palette_key, H.
Qed.

(** C8 on the dark theme of the test suite: [method] gets the color of
    [function] from the service, [keyword] its own color from the preview
    script, and a type of no table the color of [variable] from the
    service. *)
Lemma C8_witness :
  TokenizationService.getColorForTokenType (codes "method") mockThemeData
  = codes "#dcdcaa"
  /\ PreviewScript.getColorForTokenType (Some mockThemeData) (codes "keyword")
     = Some (codes "#569cd6")
  /\ TokenizationService.getColorForTokenType (codes "label") mockThemeData
     = codes "#9cdcfe".
Proof.
  assert (codes "method" ∉ Theme.prototypeNames) as Hm
    by (apply (bool_decide_unpack _); vm_compute; exact I).
  assert (codes "keyword" ∉ Theme.prototypeNames) as Hk
    by (apply (bool_decide_unpack _); vm_compute; exact I).
  assert (codes "label" ∉ Theme.prototypeNames) as Hl
    by (apply (bool_decide_unpack _); vm_compute; exact I).
  destruct (C8_palette_lookup (codes "method") mockThemeData Hm) as (-> & _ & _).
  destruct (C8_palette_lookup (codes "keyword") mockThemeData Hk) as (_ & -> & _).
  destruct (C8_palette_lookup (codes "label") mockThemeData Hl) as (-> & _ & _).
  repeat split; vm_compute; reflexivity.
Defined.

(** A type named like a member of [Object.prototype] is outside C8: the
    table of the service yields the inherited member, the fallback to
    [variable] is skipped, and the color is the foreground of the theme
    (unless the palette has a key that is the text of the member). *)
Example inherited_type_skips_fallback :
  TokenizationService.getColorForTokenType (codes "constructor") mockThemeData
  = Theme.foreground mockThemeData
  /\ TokenizationService.getColorForTokenType (codes "label") mockThemeData
     = codes "#9cdcfe"
  /\ Theme.foreground mockThemeData <> codes "#9cdcfe"
  /\ PreviewScript.getColorForTokenType (Some mockThemeData) (codes "constructor")
     = None.
Proof. repeat split; try (vm_compute; reflexivity). vm_compute. discriminate. Qed.

(** ** The public operation of the service *)

Section TokenizeFacts.
Import Theme TokenizationService.
Variable race : jsstring -> jsstring -> ThemeData -> float -> Settled TokenizedCode.

Lemma createMinimalHighlighting_total (code language : jsstring) themeData :
  exists result, createMinimalHighlighting code language themeData = Some result.
Proof.
  destruct (createMinimalHighlighting_spec themeData code language)
    as (ts & _ & H & _). eauto.
Qed.

(** The timeout path never rejects. *)
Lemma tokenizeWithTimeout_total (code language : jsstring) themeData timeout :
  exists result,
    tokenizeWithTimeout race code language themeData timeout
    = Some (Fulfilled result).
Proof.
  unfold tokenizeWithTimeout.
  destruct (race code language themeData timeout) as [result|]; [eauto|].
  destruct (createMinimalHighlighting_total code language themeData) as (result & ->).
  eauto.
Qed.

Lemma streamChunks_total (language : jsstring) themeData timeout chunks position :
  exists ts, streamChunks race language themeData timeout chunks position = Some ts.
Proof.
  revert position. induction chunks as [|chunkLines rest IH]; intros position;
    [simpl; eauto|].
  cbn [streamChunks].
  destruct (tokenizeWithTimeout_total (join LF chunkLines) language themeData
              (timeout / 10)%float) as (result & ->).
  cbn [mbind option_bind].
  match goal with
  | |- context [streamChunks race language themeData timeout rest ?p] =>
      destruct (IH p) as (more & ->)
  end.
  eauto.
Qed.

Lemma tokenizeWithStreaming_total (code language : jsstring) themeData timeout :
  exists ts,
    tokenizeWithStreaming race code language themeData timeout
    = Some (Fulfilled {| language := normalizeLanguage language; tokens := ts |}).
Proof.
  unfold tokenizeWithStreaming.
  match goal with
  | |- context [streamChunks race language themeData timeout ?c ?p] =>
      destruct (streamChunks_total language themeData timeout c p) as (ts & ->)
  end.
  eauto.
Qed.

(** Shifting by zero changes nothing. *)
Lemma shift_zero ts : map (shift 0) ts = ts.
Proof.
  induction ts as [|[? ? ? ? ?] ts IH]; [reflexivity|].
  simpl. rewrite IH. unfold shift. simpl. rewrite !Z.add_0_r. reflexivity.
Qed.

Lemma slices_single (lines : list jsstring) :
  lines <> [] -> (length lines <= STREAMING_CHUNK_SIZE)%nat ->
  slices (length lines) STREAMING_CHUNK_SIZE lines = [lines].
Proof.
  intros Hne Hl. destruct lines as [|l lines]; [contradiction|].
  cbn [length slices]. rewrite take_ge by exact Hl. rewrite drop_ge by exact Hl.
  destruct (length lines); reflexivity.
Qed.

End TokenizeFacts.

(** C9 as stated fails for a block above the size limit: the block goes
    through the chunked path, whose result carries the normalized language,
    while [createMinimalHighlighting] on the same arguments keeps the
    language as given. *)
Lemma C9_counterexample :
  TokenizationService.isLargeBlock longBlock 10000 = true
  /\ languageOf (TokenizationService.tokenize alwaysRejected longBlock (codes "js")
                   mockThemeData 10000 5000%float)
     = Some (codes "javascript")
  /\ languageOf (TokenizationService.Fulfilled
                   <$> TokenizationService.createMinimalHighlighting longBlock
                         (codes "js") mockThemeData)
     = Some (codes "js")
  /\ TokenizationService.tokenize alwaysRejected longBlock (codes "js")
       mockThemeData 10000 5000%float
     <> (TokenizationService.Fulfilled
           <$> TokenizationService.createMinimalHighlighting longBlock
                 (codes "js") mockThemeData).
Proof.
  assert (languageOf (TokenizationService.tokenize alwaysRejected longBlock
                        (codes "js") mockThemeData 10000 5000%float)
          = Some (codes "javascript")) as H1 by (vm_compute; reflexivity).
  assert (languageOf (TokenizationService.Fulfilled
                        <$> TokenizationService.createMinimalHighlighting longBlock
                              (codes "js") mockThemeData)
          = Some (codes "js")) as H2 by (vm_compute; reflexivity).
  split; [vm_compute; reflexivity|]. split; [exact H1|]. split; [exact H2|].
  intros E. apply (f_equal languageOf) in E.
  rewrite H1 in E. rewrite H2 in E. discriminate.
Qed.

(** C9, amended. [tokenize] always settles and is never rejected, whatever
    the internal tokenization does.  For a block within the size limit, when
    the internal tokenization throws or times out the result is exactly
    [createMinimalHighlighting] of the same code, language and theme.  A
    block above the limit goes through the chunked path, whose result
    carries the normalized language; when the block has at most 500 lines
    and the internal tokenization of its single chunk throws or times out,
    the tokens are those of [createMinimalHighlighting] of the code. *)
Theorem C9_tokenize_always_settles
    (race : jsstring -> jsstring -> Theme.ThemeData -> float ->
            TokenizationService.Settled TokenizationService.TokenizedCode)
    (code language : jsstring) (themeData : Theme.ThemeData)
    (maxBlockSize : Z) (timeout : float) :
  (exists result,
     TokenizationService.tokenize race code language themeData maxBlockSize timeout
     = Some (TokenizationService.Fulfilled result))
  /\ TokenizationService.tokenize race code language themeData maxBlockSize timeout
     = (if TokenizationService.isLargeBlock code maxBlockSize
        then TokenizationService.tokenizeWithStreaming race code language
               themeData timeout
        else match race code language themeData timeout with
             | TokenizationService.Fulfilled result =>
                 Some (TokenizationService.Fulfilled result)
             | TokenizationService.Rejected =>
                 TokenizationService.Fulfilled
                   <$> TokenizationService.createMinimalHighlighting code
                         language themeData
             end)
  /\ (exists ts,
        TokenizationService.tokenizeWithStreaming race code language themeData
          timeout
        = Some (TokenizationService.Fulfilled
                  {| TokenizationService.language :=
                       TokenizationService.normalizeLanguage language;
                     TokenizationService.tokens := ts |}))
  /\ ((length (split LF code) <= TokenizationService.STREAMING_CHUNK_SIZE)%nat ->
      race code language themeData (timeout / 10)%float
      = TokenizationService.Rejected ->
      exists result,
        TokenizationService.createMinimalHighlighting code language themeData
        = Some result
        /\ TokenizationService.tokenizeWithStreaming race code language
             themeData timeout
           = Some (TokenizationService.Fulfilled
                     {| TokenizationService.language :=
                          TokenizationService.normalizeLanguage language;
                        TokenizationService.tokens :=
                          TokenizationService.tokens result |})).
Proof.
  assert (TokenizationService.tokenize race code language themeData maxBlockSize
            timeout
          = (if TokenizationService.isLargeBlock code maxBlockSize
             then TokenizationService.tokenizeWithStreaming race code language
                    themeData timeout
             else match race code language themeData timeout with
                  | TokenizationService.Fulfilled result =>
                      Some (TokenizationService.Fulfilled result)
                  | TokenizationService.Rejected =>
                      TokenizationService.Fulfilled
                        <$> TokenizationService.createMinimalHighlighting code
                              language themeData
                  end)) as Heq.
  { unfold TokenizationService.tokenize.
    destruct (TokenizationService.isLargeBlock code maxBlockSize).
    - destruct (tokenizeWithStreaming_total race code language themeData timeout)
        as (ts & ->). reflexivity.
    - unfold TokenizationService.tokenizeWithTimeout.
      destruct (race code language themeData timeout); [reflexivity|].
      destruct (createMinimalHighlighting_total code language themeData)
        as (result & ->). reflexivity. }
  split; [|split; [exact Heq|split]].
  - rewrite Heq. destruct (TokenizationService.isLargeBlock code maxBlockSize).
    + destruct (tokenizeWithStreaming_total race code language themeData timeout)
        as (ts & ->). eauto.
    + destruct (race code language themeData timeout); [eauto|].
      destruct (createMinimalHighlighting_total code language themeData)
        as (result & ->). simpl. eauto.
  - apply tokenizeWithStreaming_total.
  - intros Hlen Hrace.
    destruct (createMinimalHighlighting_total code language themeData)
      as (result & Hresult).
    exists result. split; [exact Hresult|].
    unfold TokenizationService.tokenizeWithStreaming.
    rewrite slices_single by (auto using split_nonempty).
    cbn [TokenizationService.streamChunks]. rewrite join_split.
    unfold TokenizationService.tokenizeWithTimeout. rewrite Hrace, Hresult.
    simpl. rewrite shift_zero, app_nil_r. reflexivity.
Qed.

(** C9 on a block of 10800 characters and 401 lines whose internal
    tokenization times out: the chunked path returns the tier-3 tokens, under
    the normalized language. *)
Lemma C9_witness :
  exists result,
    TokenizationService.createMinimalHighlighting longBlock (codes "js")
      mockThemeData = Some result
    /\ TokenizationService.tokenizeWithStreaming alwaysRejected longBlock
         (codes "js") mockThemeData 5000%float
       = Some (TokenizationService.Fulfilled
                 {| TokenizationService.language := codes "javascript";
                    TokenizationService.tokens :=
                      TokenizationService.tokens result |}).
Proof.
  destruct (C9_tokenize_always_settles alwaysRejected longBlock (codes "js")
              mockThemeData 10000 5000%float) as (_ & _ & _ & H).
  apply H; [vm_compute; lia|reflexivity].
Defined.

(** ** The chunked path *)

Section StreamingFacts.
Import Theme TokenizationService.
Variable race : jsstring -> jsstring -> ThemeData -> float -> Settled TokenizedCode.

Lemma tokenTexts_shift position ts : tokenTexts (map (shift position) ts) = tokenTexts ts.
Proof.
  unfold tokenTexts. rewrite map_map. reflexivity.
Qed.

(** When the internal tokenization, where it succeeds, is lossless on each
    chunk, the texts of the chunked path are the chunks put end to end: no
    token stands for the newline between two chunks. *)
Lemma streamChunks_texts (language : jsstring) themeData timeout chunks position ts :
  (forall chunk t result,
     race chunk language themeData t = Fulfilled result ->
     tokenTexts (tokens result) = chunk) ->
  streamChunks race language themeData timeout chunks position = Some ts ->
  tokenTexts ts = concat (map (join LF) chunks).
Proof.
  intros Hrace. revert position ts.
  induction chunks as [|chunkLines rest IH]; intros position ts H.
  - inversion H. reflexivity.
  - cbn [streamChunks] in H. unfold tokenizeWithTimeout in H.
    destruct (race (join LF chunkLines) language themeData (timeout / 10)%float)
      as [result|] eqn:E.
    + cbn [mbind option_bind] in H.
      match type of H with
      | context [streamChunks race language themeData timeout rest ?p] =>
          destruct (streamChunks race language themeData timeout rest p)
            as [more|] eqn:Em; [|discriminate]
      end.
      inversion H; subst. apply IH in Em.
      rewrite tokenTexts_app, tokenTexts_shift, Em.
      rewrite (Hrace _ _ _ E). reflexivity.
    + destruct (createMinimalHighlighting_spec themeData (join LF chunkLines) language)
        as (ts0 & _ & Hm & Ht & _ & Hnil).
      rewrite Hm in H. cbn [fmap option_fmap option_map mbind option_bind] in H.
      match type of H with
      | context [streamChunks race language themeData timeout rest ?p] =>
          destruct (streamChunks race language themeData timeout rest p)
            as [more|] eqn:Em; [|discriminate]
      end.
      inversion H; subst. apply IH in Em.
      rewrite tokenTexts_app, tokenTexts_shift, Em. simpl. f_equal.
      destruct ts0 as [|t0 ts0]; [|exact Ht].
      rewrite tokenTexts_one. reflexivity.
Qed.

(** The chunks are non-empty and, put end to end, are the lines. *)
Lemma slices_concat (n fuel : nat) (lines : list jsstring) :
  (1 <= n)%nat -> (length lines <= fuel)%nat ->
  concat (slices fuel n lines) = lines
  /\ Forall (fun chunk => chunk <> []) (slices fuel n lines).
Proof.
  intros Hn. revert lines. induction fuel as [|fuel IH]; intros lines Hl.
  - destruct lines; [|simpl in Hl; lia]. split; [reflexivity|constructor].
  - destruct lines as [|l lines]; [split; [reflexivity|constructor]|].
    cbn [slices].
    destruct (IH (drop n (l :: lines))) as [Hc Hne].
    { rewrite length_drop. cbn [length] in *. lia. }
    split.
    + cbn [concat]. rewrite Hc. apply take_drop.
    + constructor; [|exact Hne]. destruct n; [lia|discriminate].
Qed.

Lemma slices_two (lines : list jsstring) :
  (STREAMING_CHUNK_SIZE < length lines)%nat ->
  (2 <= length (slices (length lines) STREAMING_CHUNK_SIZE lines))%nat.
Proof.
  intros Hl. destruct lines as [|l lines]; [cbn [length] in Hl; lia|].
  cbn [length slices].
  destruct (drop STREAMING_CHUNK_SIZE (l :: lines)) as [|l' rest] eqn:E.
  - apply (f_equal length) in E. rewrite length_drop in E.
    cbn [length] in E, Hl. lia.
  - destruct (length lines) as [|m] eqn:Em.
    + cbn [length] in Hl. rewrite Em in Hl. unfold STREAMING_CHUNK_SIZE in Hl. lia.
    + cbn [slices length]. lia.
Qed.

Lemma join_length sep (ls : list jsstring) :
  ls <> [] ->
  (length (join sep ls) + 1 = length (concat ls) + length ls)%nat.
Proof.
  induction ls as [|l ls IH]; intros Hne; [contradiction|].
  rewrite join_cons. destruct ls as [|l' ls].
  - simpl. rewrite !app_nil_r. lia.
  - cbn [concat length] in *. rewrite !length_app. cbn [length].
    rewrite length_app in IH. specialize (IH ltac:(discriminate)). lia.
Qed.

Lemma chunks_length sep (chunks : list (list jsstring)) :
  Forall (fun chunk => chunk <> []) chunks ->
  (length (concat (map (join sep) chunks)) + length chunks
   = length (concat (concat chunks)) + length (concat chunks))%nat.
Proof.
  induction 1 as [|chunk chunks Hne _ IH]; [reflexivity|].
  cbn [map concat length]. rewrite concat_app, !length_app.
  pose proof (join_length sep chunk Hne). lia.
Qed.

(** The chunked path is lossless exactly up to 500 lines: with a lossless
    internal tokenization, its text has one character less than the input
    for each boundary between two chunks. *)
Lemma streaming_text_length (code language : jsstring) themeData timeout result :
  (forall chunk t r,
     race chunk language themeData t = Fulfilled r ->
     tokenTexts (tokens r) = chunk) ->
  tokenizeWithStreaming race code language themeData timeout
  = Some (Fulfilled result) ->
  (length (tokenTexts (tokens result))
   + length (slices (length (split LF code)) STREAMING_CHUNK_SIZE (split LF code))
   = length code + 1)%nat.
Proof.
  intros Hrace H. unfold tokenizeWithStreaming in H.
  match type of H with
  | context [streamChunks race language themeData timeout ?c ?p] =>
      destruct (streamChunks race language themeData timeout c p)
        as [ts|] eqn:E; [|discriminate]
  end.
  inversion H; subst. cbn [tokens].
  rewrite (streamChunks_texts _ _ _ _ _ _ Hrace E).
  destruct (slices_concat STREAMING_CHUNK_SIZE (length (split LF code))
              (split LF code)) as [Hc Hne];
    [unfold STREAMING_CHUNK_SIZE; lia|lia|].
  rewrite (chunks_length LF _ Hne), Hc.
  rewrite <- (join_length LF (split LF code)) by apply split_nonempty.
  rewrite join_split. reflexivity.
Qed.

Lemma streaming_loses_text (code language : jsstring) themeData timeout result :
  (forall chunk t r,
     race chunk language themeData t = Fulfilled r ->
     tokenTexts (tokens r) = chunk) ->
  (STREAMING_CHUNK_SIZE < length (split LF code))%nat ->
  tokenizeWithStreaming race code language themeData timeout
  = Some (Fulfilled result) ->
  tokenTexts (tokens result) <> code.
Proof.
  intros Hrace Hl H E.
  pose proof (streaming_text_length _ _ _ _ _ Hrace H) as Hlen.
  pose proof (slices_two _ Hl). rewrite E in Hlen. lia.
Qed.

End StreamingFacts.

(** C2, on the code: the chunked path does not round-trip a block of more
    than 500 lines.  On the large block of the test suite, with the default
    limit of 10000 characters, the block is split into chunks of 500, 500
    and 1 lines, and the text of the result is the three chunks put end to
    end, two characters shorter than the input: the newline after line 500
    and the one after line 1000 are in no token. *)
Theorem C2_streaming_drops_newlines :
  let lines := split LF largeCode in
  TokenizationService.isLargeBlock largeCode 10000 = true
  /\ length lines = 1001%nat
  /\ textOf (TokenizationService.tokenize alwaysRejected largeCode
               (codes "javascript") mockThemeData 10000 5000%float)
     = Some (join LF (take 500 lines) ++ join LF (take 500 (drop 500 lines))
             ++ join LF (drop 1000 lines))
  /\ textOf (TokenizationService.tokenize alwaysRejected largeCode
               (codes "javascript") mockThemeData 10000 5000%float)
     <> Some largeCode
  /\ length <$> textOf (TokenizationService.tokenize alwaysRejected largeCode
                          (codes "javascript") mockThemeData 10000 5000%float)
     = Some (length largeCode - 2)%nat.
Proof.
  intros lines.
  assert (length <$> textOf (TokenizationService.tokenize alwaysRejected largeCode
                               (codes "javascript") mockThemeData 10000 5000%float)
          = Some (length largeCode - 2)%nat) as Hlen by (vm_compute; reflexivity).
  split; [vm_compute; reflexivity|]. split; [vm_compute; reflexivity|].
  split; [vm_compute; reflexivity|]. split; [|exact Hlen].
  intros E. rewrite E in Hlen. revert Hlen. vm_compute. discriminate.
Qed.

(** ** The cache *)

Section CacheFacts.
Import CacheManager.
Context {V : Type}.
Implicit Types (c : CacheManager V) (k : jsstring) (v : V) (now : Z).

Lemma wellFormed_new n : wellFormed (new (V:=V) n).
Proof.
  unfold wellFormed, new. simpl. split; [constructor|].
  split; [set_solver|apply not_elem_of_nil].
Qed.

Lemma wellFormed_size c : wellFormed c -> size c = Z.of_nat (length (accessOrder c)).
Proof.
  intros (Hnd & Hdom & _). unfold size. f_equal.
  rewrite <- size_dom, Hdom. apply size_list_to_set, Hnd.
Qed.

Lemma wellFormed_lookup c k :
  wellFormed c -> (k ∈ accessOrder c <-> is_Some (cache c !! k)).
Proof.
  intros (_ & Hdom & _). rewrite <- elem_of_dom, Hdom. set_solver.
Qed.

Lemma filter_absent (l : list jsstring) k :
  k ∉ l -> filter (fun k' => k' <> k) l = l.
Proof.
  induction l as [|x l IH]; intros H; [reflexivity|].
  rewrite not_elem_of_cons in H. destruct H as [Hx Hl].
  rewrite filter_cons_True by congruence. rewrite IH by assumption. reflexivity.
Qed.

Lemma filter_head (l : list jsstring) k :
  k ∉ l -> filter (fun k' => k' <> k) (k :: l) = l.
Proof.
  intros H. rewrite filter_cons_False by (intros E; apply E; reflexivity).
  apply filter_absent, H.
Qed.

(** [set] of a new key into a cache with room. *)
Lemma set_fresh c k v now :
  wellFormed c -> k <> [] -> k ∉ accessOrder c ->
  size c < maxSize c ->
  wellFormed (set k v now c)
  /\ accessOrder (set k v now c) = accessOrder c ++ [k]
  /\ maxSize (set k v now c) = maxSize c
  /\ lookup k (set k v now c) = Some v
  /\ (forall k', k' <> k -> lookup k' (set k v now c) = lookup k' c).
Proof.
  intros Hwf Hk Hnew Hroom.
  assert (cache c !! k = None) as Hnone.
  { apply eq_None_not_Some. rewrite <- wellFormed_lookup by assumption. exact Hnew. }
  unfold set. rewrite Hnone.
  assert ((maxSize c <=? size c) = false) as -> by lia.
  destruct Hwf as (Hnd & Hdom & Hne). simpl.
  split; [|split; [reflexivity|split; [reflexivity|split]]].
  - unfold wellFormed. simpl. split; [|split].
    + apply NoDup_app. split; [exact Hnd|]. split; [|apply NoDup_singleton].
      intros x Hx Hx'. apply list_elem_of_singleton in Hx'. subst. contradiction.
    + rewrite dom_insert_L, Hdom, list_to_set_app_L. set_solver.
    + rewrite elem_of_app, list_elem_of_singleton. intros [?|?]; [contradiction|].
      apply Hk. congruence.
  - unfold lookup. simpl. rewrite lookup_insert_eq. reflexivity.
  - intros k' Hk'. unfold lookup. simpl. rewrite lookup_insert_ne by congruence.
    reflexivity.
Qed.

(** [set] of a new key into a full cache: the first key of [accessOrder]
    goes, and nothing else. *)
Lemma set_full c k v now k0 rest :
  wellFormed c -> k <> [] -> k ∉ accessOrder c ->
  accessOrder c = k0 :: rest -> maxSize c <= size c ->
  wellFormed (set k v now c)
  /\ accessOrder (set k v now c) = rest ++ [k]
  /\ maxSize (set k v now c) = maxSize c
  /\ lookup k (set k v now c) = Some v
  /\ lookup k0 (set k v now c) = None
  /\ (forall k', k' <> k -> k' <> k0 -> lookup k' (set k v now c) = lookup k' c).
Proof.
  intros Hwf Hk Hnew Hord Hfull.
  assert (cache c !! k = None) as Hnone.
  { apply eq_None_not_Some. rewrite <- wellFormed_lookup by assumption. exact Hnew. }
  unfold set. rewrite Hnone.
  assert ((maxSize c <=? size c) = true) as -> by lia.
  destruct Hwf as (Hnd & Hdom & Hne).
  unfold evictLeastRecentlyUsed. rewrite Hord in *.
  assert (k0 <> []) as Hk0 by (intros ->; apply Hne, elem_of_cons; auto).
  assert (k <> k0) as Hkk0 by (intros ->; apply Hnew, elem_of_cons; auto).
  inversion Hnd as [|? ? Hk0rest Hndrest]; subst.
  destruct k0 as [|ch k0]; [contradiction|]. simpl.
  split; [|split; [reflexivity|split; [reflexivity|split; [|split]]]].
  - unfold wellFormed. simpl. split; [|split].
    + apply NoDup_app. split; [exact Hndrest|]. split; [|apply NoDup_singleton].
      intros x Hx Hx'. apply list_elem_of_singleton in Hx'. subst.
      apply Hnew, elem_of_cons. auto.
    + rewrite dom_insert_L, dom_delete_L, Hdom, list_to_set_app_L.
      simpl. set_solver.
    + rewrite elem_of_app, list_elem_of_singleton. intros [?|?].
      * apply Hne, elem_of_cons. auto.
      * apply Hk. congruence.
  - unfold lookup. simpl. rewrite lookup_insert_eq. reflexivity.
  - unfold lookup. simpl. rewrite lookup_insert_ne by congruence.
    rewrite lookup_delete_eq. reflexivity.
  - intros k' Hk' Hk0'. unfold lookup. simpl.
    rewrite lookup_insert_ne by congruence.
    rewrite lookup_delete_ne by congruence. reflexivity.
Qed.

(** [get] of a present key moves it to the end of [accessOrder]. *)
Lemma get_present c k now v :
  wellFormed c -> lookup k c = Some v ->
  fst (get k now c) = Some v
  /\ wellFormed (snd (get k now c))
  /\ accessOrder (snd (get k now c)) = filter (fun k' => k' <> k) (accessOrder c) ++ [k]
  /\ maxSize (snd (get k now c)) = maxSize c
  /\ size (snd (get k now c)) = size c
  /\ (forall k', lookup k' (snd (get k now c)) = lookup k' c).
Proof.
  intros Hwf Hv. unfold lookup in Hv.
  destruct (cache c !! k) as [entry|] eqn:E; [|discriminate].
  simpl in Hv. inversion Hv; subst.
  assert (k ∈ accessOrder c) as Hin by (apply wellFormed_lookup; eauto).
  destruct Hwf as (Hnd & Hdom & Hne).
  unfold get. rewrite E. simpl.
  assert (dom (<[k:={| key := key entry; value := value entry; timestamp := now |}]>
                 (cache c)) = dom (cache c)) as Hd.
  { rewrite dom_insert_L. apply elem_of_dom_2 in E. set_solver. }
  split; [reflexivity|]. split; [|split; [reflexivity|split; [reflexivity|split]]].
  - unfold wellFormed. simpl. split; [|split].
    + apply NoDup_app. split; [apply NoDup_filter, Hnd|].
      split; [|apply NoDup_singleton].
      intros x Hx Hx'. apply list_elem_of_singleton in Hx'. subst.
      apply list_elem_of_filter in Hx. tauto.
    + rewrite Hd, Hdom, list_to_set_app_L. apply set_eq. intros x.
      rewrite elem_of_union, !elem_of_list_to_set, list_elem_of_filter,
        list_elem_of_singleton.
      destruct (decide (x = k)) as [->|]; tauto.
    + rewrite elem_of_app, list_elem_of_filter, list_elem_of_singleton.
      intros [[_ ?]|?]; [contradiction|]. subst. contradiction.
  - unfold size. simpl. f_equal. rewrite <- !size_dom, Hd. reflexivity.
  - intros k'. unfold lookup. simpl.
    destruct (decide (k' = k)) as [->|Hk'].
    + rewrite lookup_insert_eq, E. reflexivity.
    + rewrite lookup_insert_ne by congruence. reflexivity.
Qed.

(** [set] of a present key replaces the value, makes the key the most
    recently used, and leaves the other entries and the size alone. *)
Lemma set_present c k v now :
  is_Some (cache c !! k) ->
  size (set k v now c) = size c
  /\ maxSize (set k v now c) = maxSize c
  /\ lookup k (set k v now c) = Some v
  /\ last (accessOrder (set k v now c)) = Some k
  /\ (forall k', k' <> k -> lookup k' (set k v now c) = lookup k' c).
Proof.
  intros [entry E]. unfold set. rewrite E. simpl.
  split; [|split; [reflexivity|split; [|split]]].
  - unfold size. simpl. f_equal. rewrite <- !size_dom, dom_insert_L.
    apply elem_of_dom_2 in E. f_equal. set_solver.
  - unfold lookup. simpl. rewrite lookup_insert_eq. reflexivity.
  - apply last_snoc.
  - intros k' Hk'. unfold lookup. simpl. rewrite lookup_insert_ne by congruence.
    reflexivity.
Qed.

(** [get] of a present key, on any cache: the key becomes the last of
    [accessOrder], the other keys keep their order, and no entry changes. *)
Lemma get_moves_last c k now v :
  lookup k c = Some v ->
  fst (get k now c) = Some v
  /\ accessOrder (snd (get k now c)) = filter (fun k' => k' <> k) (accessOrder c) ++ [k]
  /\ last (accessOrder (snd (get k now c))) = Some k
  /\ maxSize (snd (get k now c)) = maxSize c
  /\ size (snd (get k now c)) = size c
  /\ (forall k', lookup k' (snd (get k now c)) = lookup k' c).
Proof.
  intros Hv. unfold lookup in Hv.
  destruct (cache c !! k) as [entry|] eqn:E; [|discriminate].
  simpl in Hv. inversion Hv; subst.
  unfold get. rewrite E. simpl.
  split; [reflexivity|]. split; [reflexivity|]. split; [apply last_snoc|].
  split; [reflexivity|]. split.
  - unfold size. simpl. f_equal. rewrite <- !size_dom, dom_insert_L.
    apply elem_of_dom_2 in E. f_equal. set_solver.
  - intros k'. unfold lookup. simpl.
    destruct (decide (k' = k)) as [->|Hk'].
    + rewrite lookup_insert_eq, E. reflexivity.
    + rewrite lookup_insert_ne by congruence. reflexivity.
Qed.

(** [get] protects: on a full cache with another key, [get] of a key and
    then [set] of a new key evicts the least recently used of the other
    keys, and nothing else. *)
Lemma get_protects c k v kn vn now now' evicted others :
  wellFormed c -> lookup k c = Some v -> maxSize c <= size c ->
  kn <> [] -> kn ∉ accessOrder c ->
  filter (fun k' => k' <> k) (accessOrder c) = evicted :: others ->
  let c2 := snd (get k now c) in
  let c3 := set kn vn now' c2 in
  wellFormed c3
  /\ accessOrder c3 = others ++ [k; kn]
  /\ lookup k c3 = Some v
  /\ lookup kn c3 = Some vn
  /\ lookup evicted c3 = None
  /\ (forall k', k' <> kn -> k' <> evicted -> lookup k' c3 = lookup k' c)
  /\ size c3 = size c.
Proof.
  intros Hwf Hv Hfull Hkn Hnew Hf. cbv zeta.
  destruct (get_present c k now v Hwf Hv) as (_ & Hwf2 & Hord2 & Hmax2 & Hsz2 & Hl2).
  rewrite Hf in Hord2. cbn [app] in Hord2.
  assert (evicted ∈ filter (fun k' => k' <> k) (accessOrder c)) as He
    by (rewrite Hf; apply elem_of_cons; auto).
  apply list_elem_of_filter in He as [Hek Hein].
  assert (k ∈ accessOrder c) as Hkin.
  { apply wellFormed_lookup; [exact Hwf|]. unfold lookup in Hv.
    destruct (cache c !! k); [eauto|discriminate]. }
  assert (kn <> k) as Hknk by (intros ->; contradiction).
  assert (kn <> evicted) as Hkne by (intros ->; contradiction).
  destruct (set_full (snd (get k now c)) kn vn now' evicted (others ++ [k]))
    as (Hwf3 & Hord3 & Hmax3 & Hl3 & Hl0 & Hother3).
  { exact Hwf2. }
  { exact Hkn. }
  { rewrite Hord2. rewrite not_elem_of_cons, not_elem_of_app. split; [exact Hkne|].
    split; [|rewrite list_elem_of_singleton; exact Hknk].
    intros Hin. apply Hnew.
    assert (kn ∈ filter (fun k' => k' <> k) (accessOrder c)) as Hin'
      by (rewrite Hf; apply elem_of_cons; auto).
    apply list_elem_of_filter in Hin'. tauto. }
  { exact Hord2. }
  { lia. }
  split; [exact Hwf3|]. split; [rewrite Hord3, <- app_assoc; reflexivity|].
  split; [rewrite Hother3, Hl2 by congruence; exact Hv|].
  split; [exact Hl3|]. split; [exact Hl0|]. split.
  - intros k' H1 H2. rewrite Hother3, Hl2 by assumption. reflexivity.
  - rewrite (wellFormed_size _ Hwf3), Hord3, <- Hsz2, (wellFormed_size _ Hwf2), Hord2.
    rewrite !length_app. simpl. rewrite !length_app. simpl. lia.
Qed.

End CacheFacts.

Section CacheFill.
Import CacheManager.
Context {V : Type}.
Implicit Types (c : CacheManager V) (k : jsstring) (v : V) (now : Z).

(** Filling a cache that has room for all the new keys. *)
Lemma setAll_fresh (kvs : list (jsstring * V)) now c :
  wellFormed c ->
  NoDup (accessOrder c ++ kvs.*1) -> ([] : jsstring) ∉ kvs.*1 ->
  size c + Z.of_nat (length kvs) <= maxSize c ->
  wellFormed (setAll kvs now c)
  /\ accessOrder (setAll kvs now c) = accessOrder c ++ kvs.*1
  /\ maxSize (setAll kvs now c) = maxSize c
  /\ (forall k v, (k, v) ∈ kvs -> lookup k (setAll kvs now c) = Some v)
  /\ (forall k, k ∉ kvs.*1 -> lookup k (setAll kvs now c) = lookup k c).
Proof.
  revert c. induction kvs as [|[k v] kvs IH]; intros c Hwf Hnd Hne Hsize.
  - simpl. rewrite app_nil_r. split; [exact Hwf|]. split; [reflexivity|].
    split; [reflexivity|]. split; [|reflexivity]. intros k v H. inversion H.
  - simpl in *. rewrite not_elem_of_cons in Hne. destruct Hne as [Hk Hne].
    assert (k ∉ accessOrder c) as Hnew.
    { apply NoDup_app in Hnd as (_ & Hd & _). intros Hin.
      apply (Hd _ Hin). apply elem_of_cons. auto. }
    assert (k ∉ kvs.*1) as Hk2.
    { apply NoDup_app in Hnd as (_ & _ & Hd). inversion Hd; assumption. }
    destruct (set_fresh c k v now) as (Hwf1 & Hord1 & Hmax1 & Hl1 & Hother1);
      [assumption|congruence|assumption|lia|].
    destruct (IH (set k v now c)) as (Hwf2 & Hord2 & Hmax2 & Hl2 & Hother2).
    + exact Hwf1.
    + rewrite Hord1, <- app_assoc. exact Hnd.
    + exact Hne.
    + rewrite (wellFormed_size _ Hwf1), Hord1, Hmax1, length_app.
      rewrite (wellFormed_size _ Hwf) in Hsize. simpl. lia.
    + unfold setAll in *. simpl.
      split; [exact Hwf2|]. split; [rewrite Hord2, Hord1, <- app_assoc; reflexivity|].
      split; [congruence|]. split.
      * intros k' v' Hin. apply elem_of_cons in Hin as [Heq|Hin].
        -- inversion Heq; subst. rewrite Hother2 by exact Hk2. exact Hl1.
        -- apply Hl2, Hin.
      * intros k' Hk'. rewrite not_elem_of_cons in Hk'. destruct Hk' as [? ?].
        rewrite Hother2 by assumption. apply Hother1. assumption.
Qed.

End CacheFill.

(** C3, on the code: a cache built with [maxEntries = 0] is not disabled.
    [set] stores the entry and [get] right after it returns the value, for
    every key and value; the test 'Should handle cache with size 0' expects
    size 0 and a miss. *)
Theorem C3_zero_capacity_cache_stores (V : Type) (k : jsstring) (v : V)
    (now now' : Z) :
  CacheManager.size (CacheManager.set k v now (CacheManager.new 0)) = 1
  /\ fst (CacheManager.get k now'
            (CacheManager.set k v now (CacheManager.new 0))) = Some v.
Proof.
  unfold CacheManager.set, CacheManager.new.
  cbn [CacheManager.cache CacheManager.maxSize CacheManager.accessOrder].
  rewrite lookup_empty.
  change (0 <=? CacheManager.size _) with true. cbv iota.
  cbn [CacheManager.evictLeastRecentlyUsed CacheManager.cache
       CacheManager.maxSize CacheManager.accessOrder]. split.
  - unfold CacheManager.size.
    cbn [CacheManager.cache].
    rewrite map_size_insert_None by apply lookup_empty.
    rewrite map_size_empty. reflexivity.
  - unfold CacheManager.get. cbn [CacheManager.cache].
    rewrite lookup_insert_eq. reflexivity.
Qed.

(** C5 as stated fails for a cache of capacity 1: the only entry is both
    the most and the least recently used, so [get] on it does not protect
    it, and the next [set] of a new key evicts it. *)
Lemma C5_counterexample :
  let c1 := CacheManager.set (codes "a") 1%nat 0 (CacheManager.new 1) in
  let c2 := snd (CacheManager.get (codes "a") 1 c1) in
  let c3 := CacheManager.set (codes "b") 2%nat 2 c2 in
  fst (CacheManager.get (codes "a") 1 c1) = Some 1%nat
  /\ CacheManager.lookup (codes "a") c3 = None
  /\ CacheManager.lookup (codes "b") c3 = Some 2%nat.
Proof. repeat split; vm_compute; reflexivity. Qed.

(** C5, amended. Keys are non-empty and distinct, and the capacity [n] is
    at least 1.
    - Setting [n + 1] keys in turn on a new cache evicts the first key set
      and no other: the other [n] keys are present with their values.
    - When the cache is full with at least two keys, [get] on the oldest key
      returns its value and moves it behind the other keys in the access
      order, and the next [set] of a new key keeps that key and evicts the
      second oldest instead, and no other.
    - [set] on a key that is present replaces its value, makes it the most
      recently used, and changes neither the other entries nor the number
      of entries.
    - [get] on a key that is present, in any cache, returns its value and
      makes it the most recently used: it becomes the last key of the
      access order and the other keys keep their order; no entry and no
      count changes.
    - When the cache is full with at least two keys, [get] on any of its
      keys protects that key: the next [set] of a new key keeps it and
      evicts the least recently used of the other keys, and no other. *)
Theorem C5_lru_eviction (V : Type) (n : Z) (k0 : jsstring) (v0 : V)
    (rest : list (jsstring * V)) (kn : jsstring) (vn : V) (now now' now'' : Z) :
  n = Z.of_nat (S (length rest)) ->
  NoDup (k0 :: rest.*1 ++ [kn]) ->
  ([] : jsstring) ∉ k0 :: rest.*1 ++ [kn] ->
  (let c := CacheManager.set kn vn now''
              (setAll ((k0, v0) :: rest) now (CacheManager.new n)) in
   CacheManager.lookup k0 c = None
   /\ CacheManager.lookup kn c = Some vn
   /\ (forall k v, (k, v) ∈ rest -> CacheManager.lookup k c = Some v)
   /\ CacheManager.size c = n)
  /\ (forall k1 v1 mid, rest = (k1, v1) :: mid ->
      let c1 := setAll ((k0, v0) :: rest) now (CacheManager.new n) in
      let c3 := CacheManager.set kn vn now''
                  (snd (CacheManager.get k0 now' c1)) in
      fst (CacheManager.get k0 now' c1) = Some v0
      /\ CacheManager.accessOrder (snd (CacheManager.get k0 now' c1))
         = k1 :: mid.*1 ++ [k0]
      /\ CacheManager.lookup k0 c3 = Some v0
      /\ CacheManager.lookup k1 c3 = None
      /\ CacheManager.lookup kn c3 = Some vn
      /\ (forall k v, (k, v) ∈ mid -> CacheManager.lookup k c3 = Some v)
      /\ CacheManager.size c3 = n)
  /\ (forall (c : CacheManager.CacheManager V) k v,
        is_Some (CacheManager.cache c !! k) ->
        CacheManager.size (CacheManager.set k v now c) = CacheManager.size c
        /\ CacheManager.lookup k (CacheManager.set k v now c) = Some v
        /\ last (CacheManager.accessOrder (CacheManager.set k v now c)) = Some k
        /\ (forall k', k' <> k ->
              CacheManager.lookup k' (CacheManager.set k v now c)
              = CacheManager.lookup k' c))
  /\ (forall (c : CacheManager.CacheManager V) k v,
        CacheManager.lookup k c = Some v ->
        fst (CacheManager.get k now c) = Some v
        /\ CacheManager.accessOrder (snd (CacheManager.get k now c))
           = filter (fun k' => k' <> k) (CacheManager.accessOrder c) ++ [k]
        /\ last (CacheManager.accessOrder (snd (CacheManager.get k now c)))
           = Some k
        /\ CacheManager.size (snd (CacheManager.get k now c))
           = CacheManager.size c
        /\ (forall k', CacheManager.lookup k' (snd (CacheManager.get k now c))
                       = CacheManager.lookup k' c))
  /\ (forall ki vi, rest <> [] -> (ki, vi) ∈ (k0, v0) :: rest ->
      let c1 := setAll ((k0, v0) :: rest) now (CacheManager.new n) in
      let c2 := snd (CacheManager.get ki now' c1) in
      let c3 := CacheManager.set kn vn now'' c2 in
      exists evicted others,
        filter (fun k => k <> ki) (k0 :: rest.*1) = evicted :: others
        /\ fst (CacheManager.get ki now' c1) = Some vi
        /\ CacheManager.accessOrder c2 = evicted :: others ++ [ki]
        /\ CacheManager.accessOrder c3 = others ++ [ki; kn]
        /\ CacheManager.lookup ki c3 = Some vi
        /\ CacheManager.lookup evicted c3 = None
        /\ CacheManager.lookup kn c3 = Some vn
        /\ (forall k v, (k, v) ∈ (k0, v0) :: rest -> k <> evicted ->
              CacheManager.lookup k c3 = Some v)
        /\ CacheManager.size c3 = n).
Proof.
  intros Hn Hnd Hne.
  assert (NoDup (k0 :: rest.*1)) as Hnd1.
  { change (k0 :: rest.*1 ++ [kn]) with ((k0 :: rest.*1) ++ [kn]) in Hnd.
    apply NoDup_app in Hnd. tauto. }
  assert (kn ∉ k0 :: rest.*1) as Hkn.
  { change (k0 :: rest.*1 ++ [kn]) with ((k0 :: rest.*1) ++ [kn]) in Hnd.
    apply NoDup_app in Hnd as (_ & Hd & _). intros Hin.
    apply (Hd _ Hin). apply list_elem_of_singleton. reflexivity. }
  assert (([] : jsstring) ∉ k0 :: rest.*1) as Hne1.
  { intros Hin. apply Hne.
    change (k0 :: rest.*1 ++ [kn]) with ((k0 :: rest.*1) ++ [kn]).
    apply elem_of_app. auto. }
  assert (kn <> []) as Hknne.
  { intros ->. apply Hne.
    change (k0 :: rest.*1 ++ [[]]) with ((k0 :: rest.*1) ++ [[]]).
    apply elem_of_app. right. apply list_elem_of_singleton. reflexivity. }
  destruct (setAll_fresh ((k0, v0) :: rest) now (CacheManager.new n))
    as (Hwf & Hord & Hmax & Hl & Hother).
  { apply wellFormed_new. }
  { exact Hnd1. }
  { exact Hne1. }
  { rewrite (wellFormed_size _ (wellFormed_new n)). simpl CacheManager.accessOrder.
    simpl length. simpl CacheManager.maxSize. lia. }
  change (CacheManager.accessOrder (CacheManager.new n) ++ ((k0, v0) :: rest).*1)
    with (k0 :: rest.*1) in Hord.
  change (CacheManager.maxSize (CacheManager.new n)) with n in Hmax.
  set (c1 := setAll ((k0, v0) :: rest) now (CacheManager.new n)) in *.
  assert (CacheManager.size c1 = n) as Hsz.
  { rewrite (wellFormed_size _ Hwf), Hord. simpl. rewrite length_fmap. lia. }
  assert (forall k v, (k, v) ∈ rest -> k <> k0 /\ k <> kn) as Hrest.
  { intros k v Hin. assert (k ∈ rest.*1) as Hk.
    { apply list_elem_of_fmap. exists (k, v). auto. }
    split; intros ->.
    - inversion Hnd1; subst. contradiction.
    - apply Hkn. apply elem_of_cons. auto. }
  split; [|split; [|split; [|split]]].
  - destruct (set_full c1 kn vn now'' k0 rest.*1)
      as (Hwf2 & Hord2 & Hmax2 & Hl2 & Hl0 & Hother2);
      [assumption|assumption|rewrite Hord; exact Hkn|exact Hord|lia|].
    cbv zeta. split; [exact Hl0|]. split; [exact Hl2|]. split.
    + intros k v Hin. destruct (Hrest k v Hin).
      rewrite Hother2 by assumption. apply Hl. apply elem_of_cons. auto.
    + rewrite (wellFormed_size _ Hwf2), Hord2, length_app, length_fmap.
      simpl. lia.
  - intros k1 v1 mid ->. cbv zeta. simpl fmap in *.
    assert (k1 <> k0) as Hk10.
    { intros ->. inversion Hnd1 as [|? ? Hx _]; subst. apply Hx.
      apply elem_of_cons. auto. }
    destruct (get_present c1 k0 now' v0)
      as (Hg & Hwf2 & Hord2 & Hmax2 & Hsz2 & Hl2);
      [assumption|apply Hl; apply elem_of_cons; auto|].
    rewrite Hord in Hord2. rewrite filter_head in Hord2
      by (inversion Hnd1; assumption).
    simpl app in Hord2.
    set (c2 := snd (CacheManager.get k0 now' c1)) in *.
    destruct (set_full c2 kn vn now'' k1 (mid.*1 ++ [k0]))
      as (Hwf3 & Hord3 & Hmax3 & Hl3 & Hl1 & Hother3).
    { exact Hwf2. }
    { exact Hknne. }
    { rewrite Hord2. intros Hin. apply Hkn.
      apply elem_of_cons in Hin as [->|Hin]; [apply elem_of_cons; right;
        apply elem_of_cons; auto|].
      apply elem_of_app in Hin as [Hin|Hin].
      - apply elem_of_cons. right. apply elem_of_cons. auto.
      - apply list_elem_of_singleton in Hin. subst. apply elem_of_cons. auto. }
    { exact Hord2. }
    { lia. }
    split; [exact Hg|]. split; [exact Hord2|].
    split; [|split; [exact Hl1|split; [exact Hl3|split]]].
    + rewrite Hother3, Hl2; [|intros ->; apply Hkn, elem_of_cons; auto|congruence].
      apply Hl. apply elem_of_cons. auto.
    + intros k v Hin.
      assert ((k, v) ∈ (k1, v1) :: mid) as Hin' by (apply elem_of_cons; auto).
      destruct (Hrest k v Hin') as [Hk0' Hkn'].
      assert (k <> k1) as Hk1'.
      { intros ->. inversion Hnd1 as [|? ? _ Hx]; subst.
        inversion Hx as [|? ? Hy _]; subst. apply Hy.
        apply list_elem_of_fmap. exists (k1, v). auto. }
      rewrite Hother3, Hl2 by assumption.
      apply Hl. apply elem_of_cons. right. exact Hin'.
    + rewrite (wellFormed_size _ Hwf3), Hord3, !length_app, length_fmap.
      simpl in *. lia.
  - intros c k v Hin.
    destruct (set_present c k v now Hin) as (? & _ & ? & ? & ?).
    auto.
  - intros c k v Hv.
    destruct (get_moves_last c k now v Hv) as (? & ? & ? & _ & ? & ?).
    auto.
  - intros ki vi Htwo Hin. cbv zeta.
    assert (CacheManager.lookup ki c1 = Some vi) as Hv by (apply Hl, Hin).
    assert (ki ∈ k0 :: rest.*1) as Hki.
    { change (k0 :: rest.*1) with (((k0, v0) :: rest).*1).
      apply list_elem_of_fmap. exists (ki, vi). auto. }
    destruct (filter (fun k => k <> ki) (k0 :: rest.*1)) as [|evicted others] eqn:Hf.
    { exfalso. destruct rest as [|[k1 v1] mid]; [contradiction|].
      assert (forall k, k ∈ k0 :: ((k1, v1) :: mid).*1 -> k = ki) as Hall.
      { intros k Hk. destruct (decide (k = ki)) as [|Hne']; [assumption|].
        assert (k ∈ filter (fun k => k <> ki) (k0 :: ((k1, v1) :: mid).*1)) as Hk'
          by (apply list_elem_of_filter; auto).
        rewrite Hf in Hk'. inversion Hk'. }
      assert (k0 = k1) as E.
      { rewrite (Hall k0) by (apply elem_of_cons; auto).
        rewrite (Hall k1) by (apply elem_of_cons; right; apply elem_of_cons; auto).
        reflexivity. }
      inversion Hnd1 as [|? ? Hx _]; subst. apply Hx. apply elem_of_cons. auto. }
    assert (evicted ∈ k0 :: rest.*1 /\ evicted <> ki) as [Hein Heki].
    { assert (evicted ∈ filter (fun k => k <> ki) (k0 :: rest.*1)) as He
        by (rewrite Hf; apply elem_of_cons; auto).
      apply list_elem_of_filter in He. tauto. }
    destruct (get_present c1 ki now' vi Hwf Hv) as (Hg & _ & Hord2 & _).
    rewrite Hord, Hf in Hord2.
    destruct (get_protects c1 ki vi kn vn now' now'' evicted others)
      as (_ & Hord3 & Hlki & Hlkn & Hle & Hother3 & Hsz3);
      [exact Hwf|exact Hv|lia|exact Hknne|rewrite Hord; exact Hkn
      |rewrite Hord; exact Hf|].
    exists evicted, others. split; [reflexivity|]. split; [exact Hg|].
    split; [exact Hord2|]. split; [exact Hord3|]. split; [exact Hlki|].
    split; [exact Hle|]. split; [exact Hlkn|]. split; [|lia].
    intros k v Hkv Hke. rewrite Hother3; [apply Hl, Hkv| |exact Hke].
    intros ->. apply Hkn.
    change (k0 :: rest.*1) with (((k0, v0) :: rest).*1).
    apply list_elem_of_fmap. exists (kn, v). auto.
Qed.

(** C5 on a cache of capacity 2 filled with [key0] and [key1]: setting
    [key2] evicts [key0]; [get] on [key0] puts it behind [key1] in the
    access order, and setting [key2] then evicts [key1] instead. *)
Lemma C5_witness :
  let c1 := setAll [(codes "key0", 0%nat); (codes "key1", 1%nat)] 0
              (CacheManager.new 2) in
  let c := CacheManager.set (codes "key2") 2%nat 2 c1 in
  let c3 := CacheManager.set (codes "key2") 2%nat 2
              (snd (CacheManager.get (codes "key0") 1 c1)) in
  (CacheManager.lookup (codes "key0") c = None
   /\ CacheManager.lookup (codes "key1") c = Some 1%nat
   /\ CacheManager.size c = 2)
  /\ (CacheManager.lookup (codes "key0") c3 = Some 0%nat
      /\ CacheManager.lookup (codes "key1") c3 = None
      /\ CacheManager.size c3 = 2)
  /\ CacheManager.accessOrder (snd (CacheManager.get (codes "key0") 1 c1))
     = [codes "key1"; codes "key0"].
Proof.
  destruct (C5_lru_eviction nat 2 (codes "key0") 0%nat [(codes "key1", 1%nat)]
              (codes "key2") 2%nat 0 1 2) as (Ha & Hb & _).
  - reflexivity.
  - apply (bool_decide_unpack _). vm_compute. exact I.
  - apply (bool_decide_unpack _). vm_compute. exact I.
  - destruct Ha as (Ha0 & _ & Ha1 & Hasz).
    destruct (Hb (codes "key1") 1%nat [] eq_refl)
      as (_ & Hord & Hb0 & Hb1 & _ & _ & Hbsz).
    cbv zeta. split; [|split; [auto|exact Hord]].
    split; [exact Ha0|]. split; [|exact Hasz].
    apply Ha1. apply list_elem_of_singleton. reflexivity.
Defined.

(** The empty key is never evicted: [if (keyToEvict)] takes it out of
    [accessOrder] but leaves its entry in the map, so a cache of capacity 1
    then holds two entries. *)
Example empty_key_not_evicted :
  let c := CacheManager.set (codes "a") 2%nat 1
             (CacheManager.set [] 1%nat 0 (CacheManager.new 1)) in
  CacheManager.size c = 2
  /\ CacheManager.lookup [] c = Some 1%nat
  /\ CacheManager.accessOrder c = [codes "a"].
Proof. repeat split; vm_compute; reflexivity. Qed.

(** * Further properties of the code *)

(** ** The cache: invariant, [delete] and [setMaxSize] *)

Section CacheMaintenanceFacts.
Import CacheManager.
Context {V : Type}.
Implicit Types (c : CacheManager V) (k : jsstring) (v : V) (now : Z).

Lemma set_present_wellFormed c k v now :
  wellFormed c -> is_Some (cache c !! k) -> wellFormed (set k v now c).
Proof.
  intros (Hnd & Hdom & Hne) [entry E].
  assert (k ∈ accessOrder c) as Hin.
  { apply elem_of_dom_2 in E. rewrite Hdom in E. set_solver. }
  unfold set. rewrite E. unfold wellFormed. simpl. split; [|split].
  - apply NoDup_app. split; [apply NoDup_filter, Hnd|].
    split; [|apply NoDup_singleton].
    intros x Hx Hx'. apply list_elem_of_singleton in Hx'. subst.
    apply list_elem_of_filter in Hx. tauto.
  - rewrite dom_insert_L, Hdom, list_to_set_app_L. apply set_eq. intros x.
    rewrite !elem_of_union, !elem_of_list_to_set, list_elem_of_filter,
      list_elem_of_singleton, elem_of_singleton.
    destruct (decide (x = k)) as [->|]; tauto.
  - rewrite elem_of_app, list_elem_of_filter, list_elem_of_singleton.
    intros [[_ ?]|?]; [contradiction|]. subst. contradiction.
Qed.

(** [set] of a new key into a cache whose [accessOrder] is empty. *)
Lemma set_first c k v now :
  wellFormed c -> k <> [] -> accessOrder c = [] ->
  wellFormed (set k v now c) /\ accessOrder (set k v now c) = [k]
  /\ maxSize (set k v now c) = maxSize c.
Proof.
  intros (Hnd & Hdom & Hne) Hk Hord.
  assert (cache c = ∅) as Hc.
  { apply dom_empty_iff_L. rewrite Hdom, Hord. reflexivity. }
  unfold set. rewrite Hc, lookup_empty.
  assert (forall b : bool, accessOrder (if b then evictLeastRecentlyUsed c else c) = []
                    /\ cache (if b then evictLeastRecentlyUsed c else c) = ∅
                    /\ maxSize (if b then evictLeastRecentlyUsed c else c) = maxSize c)
    as Hb.
  { intros [|]; unfold evictLeastRecentlyUsed; rewrite Hord; auto. }
  destruct (Hb (maxSize c <=? size c)) as (H1 & H2 & H3).
  unfold wellFormed. simpl. rewrite H1, H2, H3. simpl.
  split; [|auto]. split; [apply NoDup_singleton|]. split.
  - rewrite dom_insert_L. set_solver.
  - rewrite list_elem_of_singleton. congruence.
Qed.

Lemma delete_spec c k :
  wellFormed c ->
  wellFormed (snd (delete k c))
  /\ fst (delete k c) = bool_decide (is_Some (lookup k c))
  /\ maxSize (snd (delete k c)) = maxSize c
  /\ accessOrder (snd (delete k c)) = filter (fun k' => k' <> k) (accessOrder c)
  /\ lookup k (snd (delete k c)) = None
  /\ (forall k', k' <> k -> lookup k' (snd (delete k c)) = lookup k' c).
Proof.
  intros Hwf. unfold delete, lookup.
  destruct (cache c !! k) as [entry|] eqn:E; simpl.
  - destruct Hwf as (Hnd & Hdom & Hne).
    split; [|split; [|split; [reflexivity|split; [reflexivity|split]]]].
    + unfold wellFormed. simpl. split; [apply NoDup_filter, Hnd|]. split.
      * rewrite dom_delete_L, Hdom. apply set_eq. intros x.
        rewrite elem_of_difference, !elem_of_list_to_set, list_elem_of_filter,
          elem_of_singleton. tauto.
      * rewrite list_elem_of_filter. tauto.
    + reflexivity.
    + rewrite lookup_delete_eq. reflexivity.
    + intros k' Hk'. rewrite lookup_delete_ne by congruence. reflexivity.
  - split; [exact Hwf|]. split.
    + reflexivity.
    + split; [reflexivity|]. split.
      * symmetry. apply filter_absent. rewrite wellFormed_lookup by exact Hwf.
        rewrite E. intros [? ?]. discriminate.
      * rewrite E. auto.
Qed.

Lemma wellFormed_clear c : wellFormed (clear c).
Proof.
  unfold wellFormed, clear. simpl. split; [constructor|].
  split; [set_solver|apply not_elem_of_nil].
Qed.

Lemma get_wellFormed c k now :
  wellFormed c ->
  wellFormed (snd (get k now c))
  /\ size (snd (get k now c)) = size c
  /\ maxSize (snd (get k now c)) = maxSize c.
Proof.
  intros Hwf. destruct (lookup k c) as [v|] eqn:E.
  - destruct (get_present c k now v Hwf E) as (_ & ? & _ & ? & ? & _). auto.
  - unfold lookup in E. unfold get.
    destruct (cache c !! k); [discriminate|]. auto.
Qed.

Lemma set_wellFormed c k v now :
  wellFormed c -> k <> [] -> size c <= Z.max (maxSize c) 1 ->
  wellFormed (set k v now c)
  /\ size (set k v now c) <= Z.max (maxSize c) 1
  /\ maxSize (set k v now c) = maxSize c.
Proof.
  intros Hwf Hk Hsize.
  destruct (cache c !! k) as [entry|] eqn:E.
  - destruct (set_present c k v now) as (H1 & H2 & _); [eauto|].
    split; [apply set_present_wellFormed; eauto|]. rewrite H1. auto.
  - assert (k ∉ accessOrder c) as Hnew.
    { rewrite wellFormed_lookup by exact Hwf. rewrite E. intros [? ?]. discriminate. }
    destruct (Z.lt_ge_cases (size c) (maxSize c)) as [Hroom|Hfull].
    + destruct (set_fresh c k v now Hwf Hk Hnew Hroom) as (Hwf' & Hord & Hmax & _).
      split; [exact Hwf'|]. split; [|exact Hmax].
      rewrite (wellFormed_size _ Hwf'), Hord, length_app.
      rewrite (wellFormed_size _ Hwf) in Hroom. simpl. lia.
    + destruct (accessOrder c) as [|k0 rest] eqn:Hord.
      * destruct (set_first c k v now Hwf Hk Hord) as (Hwf' & Hord' & Hmax).
        split; [exact Hwf'|]. split; [|exact Hmax].
        rewrite (wellFormed_size _ Hwf'), Hord'. simpl. lia.
      * destruct (set_full c k v now k0 rest Hwf Hk) as (Hwf' & Hord' & Hmax & _);
          [rewrite Hord; exact Hnew|exact Hord|exact Hfull|].
        split; [exact Hwf'|]. split; [|exact Hmax].
        rewrite (wellFormed_size _ Hwf'), Hord', length_app.
        rewrite (wellFormed_size _ Hwf), Hord in Hsize. simpl in *. lia.
Qed.

Lemma filter_length_le (l : list jsstring) k :
  (length (filter (fun k' => k' <> k) l) <= length l)%nat.
Proof. apply length_filter. Qed.

Lemma perform_invariant c (o : Operation V) :
  setsNonEmptyKey o ->
  wellFormed c /\ size c <= Z.max (maxSize c) 1 ->
  wellFormed (perform c o)
  /\ size (perform c o) <= Z.max (maxSize (perform c o)) 1
  /\ maxSize (perform c o) = maxSize c.
Proof.
  intros Ho [Hwf Hsize]. destruct o as [k v now|k now|k|]; simpl in *.
  - destruct (set_wellFormed c k v now Hwf Ho Hsize) as (? & ? & ->). auto.
  - destruct (get_wellFormed c k now Hwf) as (? & -> & ->). auto.
  - destruct (delete_spec c k Hwf) as (Hwf' & _ & Hmax & Hord & _).
    split; [exact Hwf'|]. rewrite Hmax. split; [|reflexivity].
    rewrite (wellFormed_size _ Hwf'), Hord.
    rewrite (wellFormed_size _ Hwf) in Hsize.
    pose proof (filter_length_le (accessOrder c) k). lia.
  - split; [apply wellFormed_clear|]. split; [|reflexivity].
    unfold size, clear. simpl. rewrite map_size_empty. lia.
Qed.

(** X1. Whatever sequence of [set], [get], [delete] and [clear] is run on a
    cache built by [new CacheManager(n)], as long as no [set] uses the empty
    string as its key, the map and [accessOrder] stay consistent (same keys,
    each once) and the cache never holds more than [max n 1] entries; the
    capacity itself never changes. *)
Theorem cache_never_exceeds_capacity (n : Z) (ops : list (Operation V)) :
  Forall setsNonEmptyKey ops ->
  wellFormed (performAll ops (new n))
  /\ size (performAll ops (new n)) <= Z.max n 1
  /\ maxSize (performAll ops (new n)) = n.
Proof.
  intros Hops.
  assert (forall c, wellFormed c /\ size c <= Z.max (maxSize c) 1 ->
            wellFormed (performAll ops c)
            /\ size (performAll ops c) <= Z.max (maxSize (performAll ops c)) 1
            /\ maxSize (performAll ops c) = maxSize c) as H.
  { induction Hops as [|o ops Ho _ IH]; intros c Hc; simpl.
    - destruct Hc. auto.
    - destruct (perform_invariant c o Ho Hc) as (H1 & H2 & H3).
      destruct (IH (perform c o)) as (? & ? & ?); [auto|].
      split; [assumption|]. split; [assumption|]. congruence. }
  destruct (H (new n)) as (H1 & H2 & H3).
  - split; [apply wellFormed_new|].
    unfold size, new. simpl. rewrite map_size_empty. lia.
  - rewrite H3 in H2. auto.
Qed.


Lemma size_delete_present c k :
  is_Some (cache c !! k) -> size (snd (delete k c)) = size c - 1.
Proof.
  intros [entry E]. unfold delete, size. rewrite E. simpl.
  rewrite map_size_delete_Some by eauto.
  assert (base.size (cache c) <> 0%nat) as Hpos.
  { intros H0. apply map_size_empty_inv in H0. rewrite H0 in E.
    rewrite lookup_empty in E. discriminate. }
  lia.
Qed.

(** X2. [delete] frees a slot.  In a consistent cache that holds no more
    than its capacity, [delete] of a present key returns true and removes
    that entry, and the next [set] of a new key evicts nothing: the new key
    is stored, every other entry keeps its value, and the size is back to
    what it was. *)
Theorem delete_makes_room c k k' v now :
  wellFormed c -> size c <= maxSize c ->
  is_Some (lookup k c) -> k' <> [] -> lookup k' c = None ->
  fst (delete k c) = true
  /\ lookup k (snd (delete k c)) = None
  /\ lookup k (set k' v now (snd (delete k c))) = None
  /\ lookup k' (set k' v now (snd (delete k c))) = Some v
  /\ (forall k'', k'' <> k -> k'' <> k' ->
        lookup k'' (set k' v now (snd (delete k c))) = lookup k'' c)
  /\ size (set k' v now (snd (delete k c))) = size c.
Proof.
  intros Hwf Hsize Hk Hk' Hnew.
  assert (is_Some (cache c !! k)) as Hk1.
  { unfold lookup in Hk. destruct (cache c !! k); [eauto|].
    destruct Hk as [? Hk]. discriminate. }
  assert (k' <> k) as Hkk'.
  { intros ->. rewrite Hnew in Hk. destruct Hk. discriminate. }
  destruct (delete_spec c k Hwf) as (Hwf1 & Hret & Hmax & Hord & Hgone & Hother).
  pose proof (size_delete_present c k Hk1) as Hsz.
  set (c1 := snd (delete k c)) in *.
  assert (k' ∉ accessOrder c1) as Hfresh.
  { rewrite wellFormed_lookup by exact Hwf1.
    specialize (Hother k' Hkk'). rewrite Hnew in Hother.
    unfold lookup in Hother. destruct (cache c1 !! k'); [discriminate|].
    intros [? ?]. discriminate. }
  destruct (set_fresh c1 k' v now Hwf1 Hk' Hfresh) as (Hwf2 & Hord2 & _ & Hl & Hrest);
    [lia|].
  split; [rewrite Hret; apply bool_decide_eq_true; exact Hk|].
  split; [exact Hgone|].
  split; [rewrite Hrest by congruence; exact Hgone|].
  split; [exact Hl|]. split.
  - intros k'' H1 H2. rewrite Hrest by assumption. apply Hother, H1.
  - rewrite (wellFormed_size _ Hwf2), Hord2, length_app.
    rewrite (wellFormed_size _ Hwf1) in Hsz. simpl. lia.
Qed.

(** The loop of [setMaxSize] and its rounds. *)
Lemma evictWhileOver_rounds fuel (c : CacheManager V) :
  evictWhileOver fuel c
  = if maxSize c <? size c
    then match fuel with
         | O => None
         | S fuel' => evictWhileOver fuel' (evictLeastRecentlyUsed c)
         end
    else Some c.
Proof. destruct fuel; reflexivity. Qed.

Lemma evict_maxSize c : maxSize (evictLeastRecentlyUsed c) = maxSize c.
Proof. unfold evictLeastRecentlyUsed. destruct (accessOrder c); reflexivity. Qed.

Lemma evict_idle c : accessOrder c = [] -> evictLeastRecentlyUsed c = c.
Proof. unfold evictLeastRecentlyUsed. intros ->. reflexivity. Qed.

Lemma evict_length c :
  length (accessOrder (evictLeastRecentlyUsed c)) = pred (length (accessOrder c)).
Proof.
  unfold evictLeastRecentlyUsed.
  destruct (accessOrder c) eqn:E; simpl; rewrite ?E; reflexivity.
Qed.

Lemma iter_evict_idle n c :
  accessOrder c = [] -> Nat.iter n evictLeastRecentlyUsed c = c.
Proof.
  intros H. induction n as [|n IH]; [reflexivity|].
  simpl. rewrite IH. apply evict_idle, H.
Qed.

Lemma iter_evict_shift n c :
  Nat.iter n evictLeastRecentlyUsed (evictLeastRecentlyUsed c)
  = Nat.iter (S n) evictLeastRecentlyUsed c.
Proof. induction n as [|n IH]; [reflexivity|]. simpl in *. rewrite IH. reflexivity. Qed.

(** The loop does not end exactly when its condition holds after every
    number of rounds. *)
Lemma evictWhileOver_None fuel (c : CacheManager V) :
  (length (accessOrder c) <= fuel)%nat ->
  evictWhileOver fuel c = None
  <-> forall n, maxSize c < size (Nat.iter n evictLeastRecentlyUsed c).
Proof.
  revert c. induction fuel as [|fuel IH]; intros c Hfuel;
    rewrite evictWhileOver_rounds.
  - assert (accessOrder c = []) as Hord by (destruct (accessOrder c); [reflexivity|simpl in Hfuel; lia]).
    destruct (maxSize c <? size c) eqn:E.
    + split; [|reflexivity]. intros _ n. rewrite iter_evict_idle by exact Hord. lia.
    + split; [discriminate|]. intros H. specialize (H 0%nat). simpl in H. lia.
  - destruct (maxSize c <? size c) eqn:E.
    + rewrite IH by (rewrite evict_length; lia).
      rewrite evict_maxSize. split.
      * intros H [|n]; [simpl; lia|]. rewrite <- iter_evict_shift. apply H.
      * intros H n. rewrite iter_evict_shift. apply H.
    + split; [discriminate|]. intros H. specialize (H 0%nat). simpl in H. lia.
Qed.

(** X4. [setMaxSize] with a negative size never returns, whatever the
    cache holds: the condition of its [while] loop, [cache.size > maxSize],
    still holds after any number of rounds. *)
Theorem setMaxSize_negative_never_returns c (newMaxSize : Z) :
  newMaxSize < 0 ->
  setMaxSize newMaxSize c = None
  /\ forall n, newMaxSize < size (rounds n newMaxSize c).
Proof.
  intros Hneg.
  assert (forall n, newMaxSize < size (rounds n newMaxSize c)) as H.
  { intros n. unfold size. lia. }
  split; [|exact H]. unfold setMaxSize.
  apply evictWhileOver_None; [simpl; lia|]. exact H.
Qed.

Lemma evictWhileOver_wellFormed fuel (c : CacheManager V) :
  wellFormed c -> 0 <= maxSize c -> fuel = length (accessOrder c) ->
  exists c', evictWhileOver fuel c = Some c'
    /\ wellFormed c'
    /\ maxSize c' = maxSize c
    /\ accessOrder c'
       = drop (length (accessOrder c) - Z.to_nat (maxSize c)) (accessOrder c)
    /\ (forall k, lookup k c'
                  = if bool_decide (k ∈ accessOrder c') then lookup k c else None).
Proof.
  revert c. induction fuel as [|fuel IH]; intros c Hwf Hmax Hfuel;
    rewrite evictWhileOver_rounds; pose proof (wellFormed_size _ Hwf) as Hsz.
  - assert ((maxSize c <? size c) = false) as -> by lia.
    exists c. split; [reflexivity|]. split; [exact Hwf|]. split; [reflexivity|].
    split; [rewrite <- Hfuel; reflexivity|].
    intros k. destruct (bool_decide (k ∈ accessOrder c)) eqn:E; [reflexivity|].
    apply bool_decide_eq_false in E. rewrite wellFormed_lookup in E by exact Hwf.
    unfold lookup. destruct (cache c !! k); [exfalso; eauto|reflexivity].
  - destruct (maxSize c <? size c) eqn:E.
    + destruct (accessOrder c) as [|k0 rest] eqn:Hord; [discriminate|].
      destruct Hwf as (Hnd & Hdom & Hne). rewrite Hord in *.
      inversion Hnd as [|? ? Hk0 Hnd']; subst.
      assert (k0 <> []) as Hk0ne by (intros ->; apply Hne, elem_of_cons; auto).
      assert (evictLeastRecentlyUsed c
              = {| cache := base.delete k0 (cache c); maxSize := maxSize c;
                   accessOrder := rest |}) as Hev.
      { unfold evictLeastRecentlyUsed. rewrite Hord.
        destruct k0; [contradiction|reflexivity]. }
      rewrite Hev.
      destruct (IH {| cache := base.delete k0 (cache c); maxSize := maxSize c;
                      accessOrder := rest |})
        as (c' & Hrun & Hwf' & Hmax' & Hord' & Hlook).
      { unfold wellFormed. simpl. split; [exact Hnd'|]. split.
        - rewrite dom_delete_L, Hdom. simpl. set_solver.
        - intros Hin. apply Hne, elem_of_cons. auto. }
      { exact Hmax. }
      { simpl in *. lia. }
      simpl in Hord', Hmax'.
      exists c'. split; [exact Hrun|]. split; [exact Hwf'|]. split; [exact Hmax'|].
      assert (accessOrder c'
              = drop (length (k0 :: rest) - Z.to_nat (maxSize c)) (k0 :: rest)) as Hd.
      { rewrite Hord'. simpl length in *.
        replace (S (length rest) - Z.to_nat (maxSize c))%nat
          with (S (length rest - Z.to_nat (maxSize c))) by lia.
        reflexivity. }
      split; [exact Hd|].
      intros k. rewrite Hlook. destruct (bool_decide (k ∈ accessOrder c')) eqn:Ein;
        [|reflexivity].
      apply bool_decide_eq_true in Ein. unfold lookup. simpl.
      rewrite lookup_delete_ne; [reflexivity|].
      intros <-. apply Hk0. rewrite Hord' in Ein.
      eapply subseteq_drop, Ein.
    + exists c. split; [reflexivity|]. split; [exact Hwf|]. split; [reflexivity|].
      assert (length (accessOrder c) - Z.to_nat (maxSize c) = 0)%nat as -> by lia.
      split; [reflexivity|].
      intros k. simpl. destruct (bool_decide (k ∈ accessOrder c)) eqn:Ein; [reflexivity|].
      apply bool_decide_eq_false in Ein. rewrite wellFormed_lookup in Ein by exact Hwf.
      unfold lookup. destruct (cache c !! k); [exfalso; eauto|reflexivity].
Qed.

(** X3. [setMaxSize] with a size [n >= 0] on a consistent cache returns
    and keeps exactly the [n] most recently used entries (all of them when
    there are fewer), with their values; the evicted keys miss afterwards and
    the cache stays consistent. *)
Theorem setMaxSize_keeps_most_recent c (newMaxSize : Z) :
  wellFormed c -> 0 <= newMaxSize ->
  exists c', setMaxSize newMaxSize c = Some c'
    /\ wellFormed c'
    /\ maxSize c' = newMaxSize
    /\ accessOrder c'
       = drop (length (accessOrder c) - Z.to_nat newMaxSize) (accessOrder c)
    /\ size c' = Z.min (size c) newMaxSize
    /\ (forall k, lookup k c'
                  = if bool_decide (k ∈ accessOrder c') then lookup k c else None).
Proof.
  intros Hwf Hmax. unfold setMaxSize.
  destruct (evictWhileOver_wellFormed (length (accessOrder c))
              {| cache := cache c; maxSize := newMaxSize;
                 accessOrder := accessOrder c |})
    as (c' & Hrun & Hwf' & Hmax' & Hord' & Hlook); [exact Hwf|exact Hmax|reflexivity|].
  simpl in *. exists c'. split; [exact Hrun|]. split; [exact Hwf'|].
  split; [exact Hmax'|]. split; [exact Hord'|]. split; [|exact Hlook].
  rewrite (wellFormed_size _ Hwf'), (wellFormed_size _ Hwf), Hord', length_drop. lia.
Qed.

End CacheMaintenanceFacts.

Lemma twoEntries_wellFormed : wellFormed twoEntries.
Proof.
  unfold wellFormed. split; [|split]; apply (bool_decide_unpack _); vm_compute; exact I.
Qed.

Lemma threeEntries_wellFormed : wellFormed threeEntries.
Proof.
  unfold wellFormed. split; [|split]; apply (bool_decide_unpack _); vm_compute; exact I.
Qed.

(** X1 on a cache of capacity 2 and seven operations. *)
Lemma cache_never_exceeds_capacity_witness :
  Forall setsNonEmptyKey sampleOperations
  /\ CacheManager.size (performAll sampleOperations (CacheManager.new 2)) <= 2.
Proof.
  assert (Forall setsNonEmptyKey sampleOperations) as H.
  { repeat (apply Forall_cons; split; [simpl; first [exact I|discriminate]|]).
    constructor. }
  split; [exact H|].
  destruct (cache_never_exceeds_capacity 2 sampleOperations H) as (_ & Hs & _).
  exact Hs.
Defined.

(** X2 on a full cache of capacity 2: after [delete] of [a], [set] of [c]
    leaves [b] in place. *)
Lemma delete_makes_room_witness :
  CacheManager.size twoEntries <= CacheManager.maxSize twoEntries
  /\ fst (CacheManager.delete (codes "a") twoEntries) = true
  /\ CacheManager.lookup (codes "b")
       (CacheManager.set (codes "c") 3%nat 1
          (snd (CacheManager.delete (codes "a") twoEntries)))
     = CacheManager.lookup (codes "b") twoEntries.
Proof.
  assert (CacheManager.size twoEntries <= CacheManager.maxSize twoEntries) as Hs
    by (vm_compute; discriminate).
  split; [exact Hs|].
  destruct (delete_makes_room twoEntries (codes "a") (codes "c") 3%nat 1)
    as (H1 & _ & _ & _ & H5 & _).
  - exact twoEntries_wellFormed.
  - exact Hs.
  - vm_compute. eauto.
  - discriminate.
  - vm_compute. reflexivity.
  - split; [exact H1|]. apply H5; discriminate.
Defined.

(** X3 on a cache holding [a], [b] and [c], shrunk to one entry. *)
Lemma setMaxSize_keeps_most_recent_witness :
  exists c', CacheManager.setMaxSize 1 threeEntries = Some c'
    /\ CacheManager.accessOrder c' = [codes "c"]
    /\ CacheManager.lookup (codes "c") c' = Some 3%nat
    /\ CacheManager.lookup (codes "a") c' = None.
Proof.
  destruct (setMaxSize_keeps_most_recent threeEntries 1 threeEntries_wellFormed)
    as (c' & H1 & _ & _ & H4 & _ & H6); [lia|].
  exists c'. split; [exact H1|].
  assert (CacheManager.accessOrder c' = [codes "c"]) as Hord by exact H4.
  split; [exact Hord|]. rewrite !H6, Hord. split; vm_compute; reflexivity.
Defined.

(** X4 on the same cache and the size -1. *)
Lemma setMaxSize_negative_never_returns_witness :
  CacheManager.setMaxSize (-1) threeEntries = None.
Proof.
  apply (setMaxSize_negative_never_returns threeEntries (-1)). lia.
Defined.

(** ** The hash of a code block and the cache key *)

Section HashFacts.
Import JSInt32 CacheManager.

Lemma toInt32_range z : - 2 ^ 31 <= toInt32 z < 2 ^ 31.
Proof.
  unfold toInt32. pose proof (Z.mod_pos_bound (z + 2 ^ 31) (2 ^ 32)). lia.
Qed.

Lemma toInt32_id z : - 2 ^ 31 <= z < 2 ^ 31 -> toInt32 z = z.
Proof. intros H. unfold toInt32. rewrite Z.mod_small; lia. Qed.

Lemma toInt32_idem z : toInt32 (toInt32 z) = toInt32 z.
Proof. apply toInt32_id, toInt32_range. Qed.

Lemma toInt32_congr a b : a mod 2 ^ 32 = b mod 2 ^ 32 -> toInt32 a = toInt32 b.
Proof.
  intros H. unfold toInt32. f_equal.
  rewrite (Z.add_mod a), (Z.add_mod b), H by lia. reflexivity.
Qed.

Lemma toInt32_mod z : toInt32 z mod 2 ^ 32 = z mod 2 ^ 32.
Proof.
  unfold toInt32.
  rewrite Zminus_mod, Zmod_mod, <- Zminus_mod. f_equal. lia.
Qed.

Lemma bitAnd_diag x : bitAnd x x = toInt32 x.
Proof. unfold bitAnd. apply Z.land_diag. Qed.

Lemma shiftLeft_5 x : shiftLeft x 5 = toInt32 (toInt32 x * 32).
Proof. unfold shiftLeft. rewrite Z.shiftl_mul_pow2 by lia. reflexivity. Qed.

(** One round of the loop: [(hash << 5) - hash + char] is [31 * hash + char]
    modulo 2^32. *)
Lemma toInt32_eqm z : exists q, toInt32 z = z + q * 2 ^ 32.
Proof.
  exists (- ((z + 2 ^ 31) / 2 ^ 32)). unfold toInt32.
  pose proof (Z.div_mod (z + 2 ^ 31) (2 ^ 32)). lia.
Qed.

Lemma hash_round p c :
  bitAnd (shiftLeft (toInt32 p) 5 - toInt32 p + Z.of_N c)
         (shiftLeft (toInt32 p) 5 - toInt32 p + Z.of_N c)
  = toInt32 (31 * p + Z.of_N c).
Proof.
  rewrite bitAnd_diag, shiftLeft_5, toInt32_idem. apply toInt32_congr.
  destruct (toInt32_eqm p) as [q1 ->].
  destruct (toInt32_eqm ((p + q1 * 2 ^ 32) * 32)) as [q2 ->].
  replace ((p + q1 * 2 ^ 32) * 32 + q2 * 2 ^ 32 - (p + q1 * 2 ^ 32) + Z.of_N c)
    with (31 * p + Z.of_N c + (31 * q1 + q2) * 2 ^ 32) by lia.
  apply Z.mod_add. lia.
Qed.

Lemma hashLoop_from p str :
  foldl (fun hash char =>
           let hash := shiftLeft hash 5 - hash + Z.of_N char in bitAnd hash hash)
        (toInt32 p) str
  = toInt32 (foldl (fun h char => 31 * h + Z.of_N char) p str).
Proof.
  revert p. induction str as [|c str IH]; intros p; [reflexivity|].
  simpl. rewrite hash_round. apply IH.
Qed.

(** The loop of [hashCode] computes the polynomial with multiplier 31,
    reduced to a signed 32-bit integer. *)
Lemma hashLoop_polynomial str : hashLoop str = toInt32 (polynomial str).
Proof. unfold hashLoop, polynomial. apply (hashLoop_from 0). Qed.

Lemma digitChar_value d :
  0 <= d < 36 ->
  (if (digitChar d <? 58)%N then Z.of_N (digitChar d) - 48 else Z.of_N (digitChar d) - 87)
  = d.
Proof.
  intros H. unfold digitChar. destruct (d <? 10) eqn:E.
  - assert ((Z.to_N (48 + d) <? 58)%N = true) as -> by (apply N.ltb_lt; lia). lia.
  - assert ((Z.to_N (87 + d) <? 58)%N = false) as -> by (apply N.ltb_ge; lia). lia.
Qed.

Lemma digitChar_no_colon d : 0 <= d < 36 -> digitChar d <> 58%N.
Proof. intros H. unfold digitChar. destruct (d <? 10) eqn:E; lia. Qed.

Lemma digits36_spec fuel n acc :
  0 <= n < 36 * 2 ^ Z.of_nat fuel ->
  foldl (fun acc c => acc * 36
                      + (if (c <? 58)%N then Z.of_N c - 48 else Z.of_N c - 87))
        0 (digits36 fuel n acc)
  = foldl (fun acc c => acc * 36
                      + (if (c <? 58)%N then Z.of_N c - 48 else Z.of_N c - 87))
        n acc
  /\ (58%N ∉ acc -> 58%N ∉ digits36 fuel n acc).
Proof.
  revert n acc. induction fuel as [|fuel IH]; intros n acc Hn.
  - simpl in *. rewrite digitChar_value by lia. split; [reflexivity|].
    intros H. rewrite not_elem_of_cons. split; [|exact H].
    intros E. symmetry in E. revert E. apply digitChar_no_colon. lia.
  - simpl digits36. destruct (n <? 36) eqn:E.
    + simpl. rewrite digitChar_value by lia. split; [reflexivity|].
      intros H. rewrite not_elem_of_cons. split; [|exact H].
      intros E'. symmetry in E'. revert E'. apply digitChar_no_colon. lia.
    + assert (0 <= n / 36 < 36 * 2 ^ Z.of_nat fuel) as Hq.
      { rewrite Nat2Z.inj_succ, Z.pow_succ_r in Hn by lia.
        split; [apply Z.div_pos; lia|].
        apply Z.div_lt_upper_bound; lia. }
      pose proof (Z.mod_pos_bound n 36 ltac:(lia)) as Hr.
      destruct (IH (n / 36) (digitChar (n mod 36) :: acc) Hq) as [H1 H2].
      split.
      * rewrite H1. simpl. rewrite digitChar_value by lia.
        f_equal. pose proof (Z.div_mod n 36). lia.
      * intros H. apply H2. rewrite not_elem_of_cons. split; [|exact H].
        intros E'. symmetry in E'. revert E'. apply digitChar_no_colon. lia.
Qed.

Lemma toString36_fuel n : 0 <= n -> 0 <= n < 36 * 2 ^ Z.of_nat (Z.to_nat (Z.log2 n)).
Proof.
  intros H. split; [exact H|]. rewrite Z2Nat.id by apply Z.log2_nonneg.
  destruct (Z.eq_dec n 0) as [->|]; [simpl; lia|].
  pose proof (Z.log2_spec n ltac:(lia)) as [_ Hu].
  rewrite Z.pow_succ_r in Hu by apply Z.log2_nonneg. lia.
Qed.

(** [toString(36)] writes the number: reading the digits back gives it. *)
Lemma base36Value_toString36 n : 0 <= n -> base36Value (toString36 n) = n.
Proof.
  intros H. unfold base36Value, toString36.
  destruct (digits36_spec (Z.to_nat (Z.log2 n)) n [] (toString36_fuel n H)) as [-> _].
  reflexivity.
Qed.

Lemma toString36_no_colon n : 0 <= n -> 58%N ∉ toString36 n.
Proof.
  intros H. unfold toString36.
  destruct (digits36_spec (Z.to_nat (Z.log2 n)) n [] (toString36_fuel n H)) as [_ H2].
  apply H2, not_elem_of_nil.
Qed.

Lemma hashCode_toString36 str : hashCode str = toString36 (Z.abs (hashLoop str)).
Proof. destruct str; reflexivity. Qed.

Lemma hashCode_eq a b :
  hashCode a = hashCode b <-> Z.abs (hashLoop a) = Z.abs (hashLoop b).
Proof.
  rewrite !hashCode_toString36. split; [|congruence].
  intros H. apply (f_equal base36Value) in H.
  rewrite !base36Value_toString36 in H by lia. exact H.
Qed.

(** Cutting two strings at their last separator. *)
Lemma app_sep_inj (sep : N) (a a' b b' : jsstring) :
  sep ∉ b -> sep ∉ b' -> a ++ sep :: b = a' ++ sep :: b' -> a = a' /\ b = b'.
Proof.
  revert a'. induction a as [|x a IH]; intros a' Hb Hb' E.
  - destruct a' as [|y a']; simpl in E.
    + inversion E. auto.
    + inversion E; subst. exfalso. apply Hb. apply elem_of_app. right.
      apply elem_of_cons. auto.
  - destruct a' as [|y a']; simpl in E.
    + inversion E; subst. exfalso. apply Hb'. apply elem_of_app. right.
      apply elem_of_cons. auto.
    + inversion E; subst. destruct (IH a' Hb Hb' H1) as [-> ->]. auto.
Qed.

Lemma kindName_no_colon k : 58%N ∉ PreviewEnhancer.kindName k.
Proof. destruct k; apply (bool_decide_unpack _); vm_compute; exact I. Qed.

Lemma kindName_inj k k' :
  PreviewEnhancer.kindName k = PreviewEnhancer.kindName k' -> k = k'.
Proof. destruct k, k'; intros E; try reflexivity; discriminate E. Qed.

Lemma generateKey_parts code language themeKind :
  generateKey code language themeKind
  = (language ++ 58%N :: themeKind) ++ 58%N :: hashCode code.
Proof. unfold generateKey. rewrite <- app_assoc. reflexivity. Qed.

Lemma generateKey_hash code code' language themeKind :
  hashLoop code = hashLoop code' ->
  generateKey code language themeKind = generateKey code' language themeKind.
Proof.
  intros H. unfold generateKey. rewrite !hashCode_toString36, H. reflexivity.
Qed.

(** X5. [hashCode] of the cache manager and [simpleHash] of the preview
    script return the same string for every input: the base-36 digits of the
    absolute value of the polynomial hash with multiplier 31 ([(hash << 5) -
    hash] is [31 * hash]), reduced to a signed 32-bit integer.  Reading the
    digits back gives that value, which is at most 2^31. *)
Theorem hash_functions_polynomial (str : jsstring) :
  hashCode str = toString36 (Z.abs (toInt32 (polynomial str)))
  /\ PreviewScript.simpleHash str = hashCode str
  /\ base36Value (hashCode str) = Z.abs (toInt32 (polynomial str))
  /\ 0 <= Z.abs (toInt32 (polynomial str)) <= 2 ^ 31.
Proof.
  assert (hashCode str = toString36 (Z.abs (toInt32 (polynomial str)))) as H.
  { rewrite hashCode_toString36, hashLoop_polynomial. reflexivity. }
  split; [exact H|]. split; [rewrite hashCode_toString36; reflexivity|].
  split; [rewrite H; apply base36Value_toString36; lia|].
  pose proof (toInt32_range (polynomial str)). lia.
Qed.

(** X6. Two requests get the same cache key exactly when they agree on the
    language, on the theme kind, and on the absolute value of the 32-bit hash
    of their code; this holds for every language string, colons included,
    since the theme kind and the hash hold no colon.  So an entry stored
    under one theme kind or language is never returned for another, while
    two different codes with the same hash up to sign share their entry. *)
Theorem generateKey_same_key_iff code code' language language' k k' :
  generateKey code language (PreviewEnhancer.kindName k)
  = generateKey code' language' (PreviewEnhancer.kindName k')
  <-> language = language' /\ k = k'
      /\ Z.abs (hashLoop code) = Z.abs (hashLoop code').
Proof.
  rewrite !generateKey_parts. split.
  - intros E.
    apply app_sep_inj in E as [E1 E2];
      [|rewrite hashCode_toString36; apply toString36_no_colon; lia..].
    apply app_sep_inj in E1 as [-> E1]; [|apply kindName_no_colon..].
    apply kindName_inj in E1. apply hashCode_eq in E2. auto.
  - intros (-> & -> & H). apply hashCode_eq in H. rewrite H. reflexivity.
Qed.

Lemma polynomial_app a b :
  polynomial (a ++ b) = foldl (fun h char => 31 * h + Z.of_N char) (polynomial a) b.
Proof. unfold polynomial. apply foldl_app. Qed.

(** Codes that differ only by [Aa] against [BB] have the same hash. *)
Lemma hashLoop_Aa_BB (before after : jsstring) :
  hashLoop (before ++ codes "Aa" ++ after) = hashLoop (before ++ codes "BB" ++ after).
Proof.
  rewrite !hashLoop_polynomial. f_equal.
  rewrite !polynomial_app. simpl. f_equal. lia.
Qed.

End HashFacts.

(** ** The request queue *)

Section QueueFacts.
Import PreviewEnhancer.

(** X7. [calculatePriority] returns one of 100, 110, 120, 130, 150 and
    160, and for two requests whose languages agree up to case, the one with
    the shorter (or equally long) code never gets the lower priority. *)
Theorem calculatePriority_range_and_order (r r' : TokenizeRequestMessage) :
  calculatePriority r ∈ [100; 110; 120; 130; 150; 160]
  /\ (toLowerCase (language r) = toLowerCase (language r') ->
      len (code r) <= len (code r') ->
      calculatePriority r' <= calculatePriority r).
Proof.
  unfold calculatePriority. split.
  - destruct (len (code r) <? 1000), (len (code r) <? 5000),
      (bool_decide (toLowerCase (language r) ∈ commonLanguages)); simpl; set_solver.
  - intros -> Hlen.
    destruct (len (code r) <? 1000) eqn:E1, (len (code r) <? 5000) eqn:E2,
      (len (code r') <? 1000) eqn:E3, (len (code r') <? 5000) eqn:E4,
      (bool_decide (toLowerCase (language r') ∈ commonLanguages)); simpl; lia.
Qed.

Lemma insertByPriority_perm x l : insertByPriority x l ≡ₚ x :: l.
Proof.
  induction l as [|y l IH]; simpl; [reflexivity|].
  destruct (priority y <=? priority x); [reflexivity|].
  rewrite IH. apply Permutation_swap.
Qed.

Lemma sortQueue_perm q : sortQueue q ≡ₚ q.
Proof.
  induction q as [|x q IH]; simpl; [reflexivity|].
  rewrite insertByPriority_perm, IH. reflexivity.
Qed.

Lemma insertByPriority_descending x l :
  descending l -> descending (insertByPriority x l).
Proof.
  induction l as [|y l IH]; intros Hd; simpl.
  - split; [constructor|exact I].
  - destruct Hd as [Hy Hd]. destruct (priority y <=? priority x) eqn:E.
    + simpl. split; [|split; assumption].
      constructor; [lia|]. revert Hy. apply List.Forall_impl. intros; lia.
    + simpl. split; [|apply IH, Hd].
      rewrite insertByPriority_perm. constructor; [lia|exact Hy].
Qed.

Lemma sortQueue_descending q : descending (sortQueue q).
Proof.
  induction q as [|x q IH]; simpl; [exact I|].
  apply insertByPriority_descending, IH.
Qed.

Lemma ids_perm q q' : q ≡ₚ q' -> ids q ≡ₚ ids q'.
Proof. intros H. unfold ids. rewrite H. reflexivity. Qed.

Lemma findIndex_None rid q : findIndex rid q = None -> rid ∉ ids q.
Proof.
  unfold findIndex. intros H. rewrite list_find_None in H.
  unfold ids. rewrite list_elem_of_fmap. intros (r & -> & Hr).
  rewrite List.Forall_forall in H. apply (H r); [apply list_elem_of_In, Hr|reflexivity].
Qed.

Lemma findIndex_Some rid q i e :
  findIndex rid q = Some (i, e) -> q !! i = Some e /\ id (request e) = rid.
Proof.
  unfold findIndex. intros H. apply list_find_Some in H. tauto.
Qed.

Lemma ids_insert q i e pr :
  q !! i = Some e -> id (request e) = id (request pr) ->
  ids (<[ i := pr ]> q) = ids q.
Proof.
  intros Hi He. unfold ids. rewrite list_fmap_insert.
  apply list_insert_id. rewrite list_lookup_fmap, Hi. simpl. congruence.
Qed.

(** One [queueRequest] keeps the queue sorted and its ids distinct. *)
Lemma queueRequest_invariant pr q :
  NoDup (ids q) ->
  descending q -> descending (queueRequest pr q) /\ NoDup (ids (queueRequest pr q)).
Proof.
  intros Hnd Hd. unfold queueRequest.
  destruct (findIndex (id (request pr)) q) as [[i e]|] eqn:E.
  - apply findIndex_Some in E as [Hi He].
    destruct (priority e <? priority pr); [|auto].
    split; [apply sortQueue_descending|].
    rewrite (ids_perm _ _ (sortQueue_perm _)), (ids_insert q i e pr Hi He).
    exact Hnd.
  - apply findIndex_None in E.
    split; [apply sortQueue_descending|].
    rewrite (ids_perm _ _ (sortQueue_perm _)). unfold ids in *.
    rewrite map_app. simpl. apply NoDup_app. split; [exact Hnd|].
    split; [|apply NoDup_singleton].
    intros x Hx Hx'. apply list_elem_of_singleton in Hx'. subst. contradiction.
Qed.

(** What one [queueRequest] does to the entries. *)
Lemma queueRequest_entries pr q :
  (forall e, e ∈ queueRequest pr q -> e = pr \/ e ∈ q)
  /\ (exists e, e ∈ queueRequest pr q /\ id (request e) = id (request pr)
                /\ priority pr <= priority e)
  /\ (forall e, e ∈ q ->
        exists e', e' ∈ queueRequest pr q /\ id (request e') = id (request e)
                   /\ priority e <= priority e').
Proof.
  unfold queueRequest.
  destruct (findIndex (id (request pr)) q) as [[i e0]|] eqn:E.
  - apply findIndex_Some in E as [Hi He].
    destruct (priority e0 <? priority pr) eqn:Ep.
    + split; [|split].
      * intros e. rewrite sortQueue_perm. intros Hin.
        apply list_elem_of_lookup in Hin as [j Hj].
        destruct (decide (i = j)) as [->|Hij].
        -- rewrite list_lookup_insert_eq in Hj by (eapply lookup_lt_Some; eauto).
           left. congruence.
        -- rewrite list_lookup_insert_ne in Hj by exact Hij.
           right. eapply list_elem_of_lookup_2, Hj.
      * exists pr. split; [|split; [reflexivity|lia]].
        rewrite sortQueue_perm. eapply list_elem_of_lookup_2.
        apply list_lookup_insert_eq. eapply lookup_lt_Some; eauto.
      * intros e Hin. apply list_elem_of_lookup in Hin as [j Hj].
        destruct (decide (i = j)) as [->|Hij].
        -- exists pr. split; [|split].
           ++ rewrite sortQueue_perm. eapply list_elem_of_lookup_2.
              apply list_lookup_insert_eq. eapply lookup_lt_Some; eauto.
           ++ congruence.
           ++ assert (e = e0) as -> by congruence. lia.
        -- exists e. split; [|split; [reflexivity|lia]].
           rewrite sortQueue_perm. eapply list_elem_of_lookup_2.
           rewrite list_lookup_insert_ne by exact Hij. exact Hj.
    + split; [auto|]. split.
      * exists e0. split; [eapply list_elem_of_lookup_2; eauto|]. split; [exact He|lia].
      * intros e Hin. exists e. split; [exact Hin|]. split; [reflexivity|lia].
  - split; [|split].
    + intros e. rewrite sortQueue_perm, elem_of_app, list_elem_of_singleton. tauto.
    + exists pr. split; [|split; [reflexivity|lia]].
      rewrite sortQueue_perm, elem_of_app, list_elem_of_singleton. auto.
    + intros e Hin. exists e. split; [|split; [reflexivity|lia]].
      rewrite sortQueue_perm, elem_of_app. auto.
Qed.

(** X8. After any sequence of [queueRequest] calls on the empty queue, the
    queue is sorted by descending priority and holds at most one entry per
    request id; every entry is one of the requests that were queued, and for
    every request that was queued the queue holds an entry with its id and
    at least its priority. *)
Theorem queue_sorted_one_entry_per_id (prs : list PrioritizedRequest) :
  descending (queueAll prs)
  /\ NoDup (ids (queueAll prs))
  /\ (forall e, e ∈ queueAll prs -> e ∈ prs)
  /\ (forall pr, pr ∈ prs ->
        exists e, e ∈ queueAll prs /\ id (request e) = id (request pr)
                  /\ priority pr <= priority e).
Proof.
  unfold queueAll.
  assert (forall q,
            descending q -> NoDup (ids q) ->
            descending (foldl (fun q pr => queueRequest pr q) q prs)
            /\ NoDup (ids (foldl (fun q pr => queueRequest pr q) q prs))
            /\ (forall e, e ∈ foldl (fun q pr => queueRequest pr q) q prs ->
                          e ∈ q \/ e ∈ prs)
            /\ (forall pr, pr ∈ q \/ pr ∈ prs ->
                  exists e, e ∈ foldl (fun q pr => queueRequest pr q) q prs
                            /\ id (request e) = id (request pr)
                            /\ priority pr <= priority e)) as H.
  { induction prs as [|pr prs IH]; intros q Hd Hnd; simpl.
    - split; [exact Hd|]. split; [exact Hnd|]. split; [auto|].
      intros pr [Hin|Hin]; [|inversion Hin].
      exists pr. split; [exact Hin|]. split; [reflexivity|lia].
    - destruct (queueRequest_invariant pr q Hnd Hd) as [Hd1 Hnd1].
      destruct (queueRequest_entries pr q) as (Hfrom & Hnew & Hold).
      destruct (IH _ Hd1 Hnd1) as (H1 & H2 & H3 & H4).
      split; [exact H1|]. split; [exact H2|]. split.
      + intros e He. destruct (H3 e He) as [Hin|Hin].
        * destruct (Hfrom e Hin) as [->|?]; [right; apply elem_of_cons; auto|auto].
        * right. apply elem_of_cons. auto.
      + intros x Hx.
        assert (x ∈ prs
                \/ exists e1, e1 ∈ queueRequest pr q
                      /\ id (request e1) = id (request x)
                      /\ priority x <= priority e1) as [Hlater|(e1 & He1 & Hid1 & Hp1)].
        { destruct Hx as [Hx|Hx]; [right; apply Hold, Hx|].
          apply elem_of_cons in Hx as [->|Hx]; [right; exact Hnew|left; exact Hx]. }
        * apply H4. auto.
        * destruct (H4 e1 (or_introl He1)) as (e & He & Hid & Hp).
          exists e. split; [exact He|]. split; [congruence|lia]. }
  destruct (H []) as (H1 & H2 & H3 & H4); [exact I|constructor|].
  split; [exact H1|]. split; [exact H2|]. split.
  - intros e He. destruct (H3 e He) as [Hin|Hin]; [inversion Hin|exact Hin].
  - intros pr Hpr. apply H4. auto.
Qed.


Lemma descending_later q x y :
  descending q -> forall i j, (i < j)%nat -> q !! i = Some x -> q !! j = Some y ->
  priority y <= priority x.
Proof.
  induction q as [|z q IH]; intros Hd i j Hij Hi Hj; [discriminate|].
  destruct Hd as [Hz Hd]. destruct j as [|j]; [lia|]. simpl in Hj.
  destruct i as [|i].
  - simpl in Hi. inversion Hi; subst.
    rewrite List.Forall_forall in Hz. apply Hz.
    apply list_elem_of_In. eapply list_elem_of_lookup_2, Hj.
  - simpl in Hi. apply (IH Hd i j); [lia|assumption..].
Qed.

(** X10. The loop of [processQueue] starts the requests at the front of
    the queue, in queue order, and leaves the rest; it adds the ids of the
    started requests to [activeRequests]; when no more than
    [maxConcurrentRequests] were active before, no more are active after;
    it stops only when the queue is empty or the limit is reached; and on a
    queue sorted by descending priority no request left behind has a higher
    priority than one that was started. *)
Theorem processQueue_bounded (maxConcurrentRequests : Z)
    (q : list PrioritizedRequest) (active : gset jsstring) :
  let started := fst (processQueue maxConcurrentRequests q active) in
  let q' := fst (snd (processQueue maxConcurrentRequests q active)) in
  let active' := snd (snd (processQueue maxConcurrentRequests q active)) in
  started = map request (take (length started) q)
  /\ q' = drop (length started) q
  /\ active' = active ∪ list_to_set (map id started)
  /\ (Z.of_nat (size active) <= maxConcurrentRequests ->
      Z.of_nat (size active') <= maxConcurrentRequests)
  /\ (q' = [] \/ maxConcurrentRequests <= Z.of_nat (size active'))
  /\ (descending q ->
      forall x y, x ∈ take (length started) q -> y ∈ q' -> priority y <= priority x).
Proof.
  cbv zeta. revert active. induction q as [|x q IH]; intros active.
  - simpl. split; [reflexivity|]. split; [reflexivity|].
    split; [set_solver|]. split; [auto|]. split; [auto|].
    intros _ x y Hx. inversion Hx.
  - cbn [processQueue].
    destruct (Z.of_nat (size active) <? maxConcurrentRequests) eqn:E.
    + destruct (IH (active ∪ {[id (request x)]})) as (H1 & H2 & H3 & H4 & H5 & H6).
      cbn [fst snd length take drop map].
      split; [f_equal; exact H1|]. split; [exact H2|].
      split; [rewrite H3; simpl; set_solver|].
      split; [|split; [exact H5|]].
      * intros _. apply H4.
        assert (size (active ∪ {[id (request x)]}) <= size active + 1)%nat.
        { rewrite size_union_alt.
          assert (size ({[id (request x)]} ∖ active : gset jsstring)
                  <= size ({[id (request x)]} : gset jsstring))%nat
            by (apply subseteq_size; set_solver).
          rewrite size_singleton in *. lia. }
        lia.
      * intros [Hx Hd] a b Ha Hb. apply elem_of_cons in Ha as [->|Ha].
        -- rewrite List.Forall_forall in Hx. apply Hx, list_elem_of_In.
           rewrite H2 in Hb. eapply subseteq_drop, Hb.
        -- apply (H6 Hd a b Ha Hb).
    + cbn [fst snd length take drop map].
      split; [reflexivity|]. split; [reflexivity|]. split; [set_solver|].
      split; [auto|]. split; [right; lia|].
      intros _ a b Ha. inversion Ha.
Qed.

Lemma queueRequest_Forall (P : PrioritizedRequest -> Prop) pr q :
  P pr -> Forall P q -> Forall P (queueRequest pr q).
Proof.
  intros Hpr Hq. rewrite List.Forall_forall in *. intros e He.
  apply list_elem_of_In in He.
  destruct (queueRequest_entries pr q) as (Hfrom & _).
  destruct (Hfrom e He) as [->|Hin]; [exact Hpr|].
  apply Hq, list_elem_of_In, Hin.
Qed.

(** X9. After [handleTokenizeRequest] has handled any sequence of requests,
    starting with an empty queue: the set of active requests and the
    concurrency limit are unchanged; the queue is sorted by descending
    priority with one entry per id; every entry is one of the requests
    received, carries the priority [calculatePriority] gives it, has a code
    of at most [2 * maxBlockSize] characters, and an id that is not active;
    and with highlighting disabled the queue stays empty. *)
Theorem handleTokenizeRequest_queue (highlightingEnabled : bool) (maxBlockSize : Z)
    (arrivals : list (Z * TokenizeRequestMessage)) (s : State) :
  requestQueue s = [] ->
  let s' := handleAll highlightingEnabled maxBlockSize arrivals s in
  activeRequests s' = activeRequests s
  /\ maxConcurrentRequests s' = maxConcurrentRequests s
  /\ descending (requestQueue s')
  /\ NoDup (ids (requestQueue s'))
  /\ Forall (fun e => priority e = calculatePriority (request e)
                      /\ len (code (request e)) <= maxBlockSize * 2
                      /\ (id (request e) ∉ activeRequests s)
                      /\ (timestamp e, request e) ∈ arrivals)
            (requestQueue s')
  /\ (highlightingEnabled = false -> requestQueue s' = []).
Proof.
  intros Hq. cbv zeta. unfold handleAll.
  assert (forall arrivals0 s0,
    let P := fun e => priority e = calculatePriority (request e)
                      /\ len (code (request e)) <= maxBlockSize * 2
                      /\ (id (request e) ∉ activeRequests s0)
                      /\ (timestamp e, request e) ∈ (arrivals0 ++ arrivals) in
    let s' := foldl (fun s a => handleTokenizeRequest highlightingEnabled maxBlockSize
                                  (fst a) (snd a) s) s0 arrivals in
    descending (requestQueue s0) -> NoDup (ids (requestQueue s0)) ->
    Forall P (requestQueue s0) ->
    (highlightingEnabled = false -> requestQueue s0 = []) ->
    activeRequests s' = activeRequests s0
    /\ maxConcurrentRequests s' = maxConcurrentRequests s0
    /\ descending (requestQueue s')
    /\ NoDup (ids (requestQueue s'))
    /\ Forall P (requestQueue s')
    /\ (highlightingEnabled = false -> requestQueue s' = [])) as H.
  { cbv zeta. clear s Hq.
    induction arrivals as [|[now r] arrivals IH]; intros arrivals0 s0 Hd Hnd HP Hoff.
    - simpl. auto 10.
    - cbn [foldl fst snd].
      set (s1 := handleTokenizeRequest highlightingEnabled maxBlockSize now r s0).
      assert (activeRequests s1 = activeRequests s0
              /\ maxConcurrentRequests s1 = maxConcurrentRequests s0
              /\ descending (requestQueue s1)
              /\ NoDup (ids (requestQueue s1))
              /\ Forall (fun e => priority e = calculatePriority (request e)
                           /\ len (code (request e)) <= maxBlockSize * 2
                           /\ (id (request e) ∉ activeRequests s0)
                           /\ (timestamp e, request e) ∈ (arrivals0 ++ (now, r) :: arrivals))
                        (requestQueue s1)
              /\ (highlightingEnabled = false -> requestQueue s1 = []))
        as (Ha & Hm & Hd1 & Hnd1 & HP1 & Hoff1).
      { subst s1. unfold handleTokenizeRequest.
        destruct highlightingEnabled; cbn [negb]; [|auto 10].
        destruct (bool_decide (id r ∈ activeRequests s0)) eqn:Eact; [auto 10|].
        destruct (maxBlockSize * 2 <? len (code r)) eqn:Esize; [auto 10|].
        cbn [requestQueue activeRequests PreviewEnhancer.maxConcurrentRequests].
        split; [reflexivity|]. split; [reflexivity|].
        match goal with
        | |- context [queueRequest ?pr _] =>
            destruct (queueRequest_invariant pr (requestQueue s0) Hnd Hd) as [? ?]
        end.
        split; [assumption|]. split; [assumption|]. split; [|discriminate].
        apply queueRequest_Forall; [|exact HP].
        cbn [priority request timestamp]. split; [reflexivity|].
        split; [lia|]. split; [apply bool_decide_eq_false in Eact; exact Eact|].
        apply elem_of_app. right. apply elem_of_cons. auto. }
      destruct (IH (arrivals0 ++ [(now, r)]) s1) as (H1 & H2 & H3 & H4 & H5 & H6).
      + exact Hd1.
      + exact Hnd1.
      + rewrite Ha. revert HP1. apply List.Forall_impl.
        intros e (? & ? & ? & ?). rewrite <- app_assoc. auto.
      + exact Hoff1.
      + rewrite H1, H2, Ha, Hm. split; [reflexivity|]. split; [reflexivity|].
        split; [exact H3|]. split; [exact H4|]. split; [|exact H6].
        revert H5. apply List.Forall_impl.
        intros e (? & ? & ? & Hin). rewrite Ha in *.
        rewrite <- app_assoc in Hin. auto. }
  apply (H [] s); rewrite Hq; first [exact I|constructor|auto].
Qed.

End QueueFacts.

(** X9 on four requests, one of them for an active block and one a second
    request for a queued block. *)
Lemma handleTokenizeRequest_queue_witness :
  map (fun e => (PreviewEnhancer.id (PreviewEnhancer.request e),
                 PreviewEnhancer.priority e))
      (PreviewEnhancer.requestQueue (handleAll true 10000 sampleArrivals idleState))
  = [ (codes "block-3", 160); (codes "block-1", 150) ]
  /\ descending (PreviewEnhancer.requestQueue
                   (handleAll true 10000 sampleArrivals idleState)).
Proof.
  split; [vm_compute; reflexivity|].
  apply (handleTokenizeRequest_queue true 10000 sampleArrivals idleState).
  reflexivity.
Defined.

(** ** Requests and the cache *)

Section RequestFacts.
Import Theme TokenizationService PreviewEnhancer.

Lemma tokenize_settles race code language theme maxBlockSize timeout :
  exists result,
    tokenize race code language theme maxBlockSize timeout = Some (Fulfilled result).
Proof.
  unfold tokenize. destruct (isLargeBlock code maxBlockSize).
  - destruct (tokenizeWithStreaming_total race code language theme timeout)
      as (ts & ->). simpl. eauto.
  - destruct (tokenizeWithTimeout_total race code language theme timeout)
      as (result & ->). simpl. eauto.
Qed.

(** What [processRequest] leaves in the cache, and what it answers. *)
Lemma processRequest_stores race maxBlockSize timeout theme now later req c :
  exists tokenizedCode c1,
    processRequest race true maxBlockSize timeout theme now later req c
    = Some (Fulfilled {| responseId := id req;
                         tokens := TokenizationService.tokens tokenizedCode;
                         themeData := theme |}, c1)
    /\ CacheManager.lookup
         (CacheManager.generateKey (code req) (language req) (kindName (kind theme)))
         c1 = Some tokenizedCode
    /\ (CacheManager.lookup
          (CacheManager.generateKey (code req) (language req) (kindName (kind theme)))
          c = None ->
        tokenize race (code req) (language req) theme maxBlockSize timeout
        = Some (Fulfilled tokenizedCode)).
Proof.
  unfold processRequest. cbv zeta.
  set (cacheKey := CacheManager.generateKey (code req) (language req)
                     (kindName (kind theme))).
  unfold CacheManager.get, CacheManager.lookup.
  destruct (CacheManager.cache c !! cacheKey) as [entry|] eqn:E.
  - cbn [fst snd]. exists (CacheManager.value entry). eexists.
    split; [reflexivity|]. split; [|discriminate].
    cbn [CacheManager.cache CacheManager.updateAccessOrder].
    rewrite lookup_insert_eq. reflexivity.
  - cbn [fst snd].
    destruct (tokenize_settles race (code req) (language req) theme maxBlockSize timeout)
      as (result & Hresult).
    rewrite Hresult. cbn [mbind option_bind].
    exists result. eexists. split; [reflexivity|]. split; [|auto].
    unfold CacheManager.set. rewrite E. cbn [CacheManager.cache].
    rewrite lookup_insert_eq. reflexivity.
Qed.

(** A request whose key is in the cache is answered from the cache, which
    only records the access. *)
Lemma processRequest_hit race maxBlockSize timeout theme now later req c tokenizedCode :
  CacheManager.lookup
    (CacheManager.generateKey (code req) (language req) (kindName (kind theme)))
    c = Some tokenizedCode ->
  processRequest race true maxBlockSize timeout theme now later req c
  = Some (Fulfilled {| responseId := id req;
                       tokens := TokenizationService.tokens tokenizedCode;
                       themeData := theme |},
          snd (CacheManager.get
                 (CacheManager.generateKey (code req) (language req)
                    (kindName (kind theme))) now c)).
Proof.
  unfold processRequest, CacheManager.lookup, CacheManager.get. cbv zeta.
  intros H.
  destruct (CacheManager.cache c !! _) as [entry|]; [|discriminate].
  simpl in H. inversion H; subst. reflexivity.
Qed.

(** A request whose key is not in the cache is tokenized, and the result
    is stored. *)
Lemma processRequest_miss race maxBlockSize timeout theme now later req c :
  CacheManager.lookup
    (CacheManager.generateKey (code req) (language req) (kindName (kind theme)))
    c = None ->
  exists tokenizedCode,
    tokenize race (code req) (language req) theme maxBlockSize timeout
    = Some (Fulfilled tokenizedCode)
    /\ processRequest race true maxBlockSize timeout theme now later req c
       = Some (Fulfilled {| responseId := id req;
                            tokens := TokenizationService.tokens tokenizedCode;
                            themeData := theme |},
               CacheManager.set
                 (CacheManager.generateKey (code req) (language req)
                    (kindName (kind theme))) tokenizedCode later c).
Proof.
  unfold processRequest, CacheManager.lookup, CacheManager.get. cbv zeta.
  intros H.
  destruct (CacheManager.cache c !! _) as [entry|]; [discriminate|].
  cbn [fst snd].
  destruct (tokenize_settles race (code req) (language req) theme maxBlockSize timeout)
    as (result & Hresult).
  exists result. split; [exact Hresult|]. rewrite Hresult. reflexivity.
Qed.

(** X11. With the cache enabled, [processRequest] always answers and
    leaves the tokenized code in the cache, under the key of the code, the
    language and the kind of the theme.  A later request with the same code
    and language under a theme of the same kind, on any cache that still
    holds that entry, is answered with the tokens of the first answer,
    whatever the language services, the size limit, the timeout and the
    colors of the theme are by then: the tokenizer is not asked again and
    the cache only records the access.  On a cache that no longer holds an
    entry under the key, after an eviction or after [clear], the request is
    tokenized again and the new result is stored. *)
Theorem processRequest_repeat_served_from_cache
    race maxBlockSize timeout (theme : ThemeData) now later
    (req : TokenizeRequestMessage) c :
  exists tokenizedCode c1,
    processRequest race true maxBlockSize timeout theme now later req c
    = Some (Fulfilled {| responseId := id req;
                         tokens := TokenizationService.tokens tokenizedCode;
                         themeData := theme |}, c1)
    /\ CacheManager.lookup
         (CacheManager.generateKey (code req) (language req) (kindName (kind theme)))
         c1 = Some tokenizedCode
    /\ (forall race' maxBlockSize' timeout' (theme' : ThemeData) now' later'
               (req' : TokenizeRequestMessage) c',
          code req' = code req -> language req' = language req ->
          kind theme' = kind theme ->
          (CacheManager.lookup
             (CacheManager.generateKey (code req) (language req)
                (kindName (kind theme))) c' = Some tokenizedCode ->
           processRequest race' true maxBlockSize' timeout' theme' now' later' req' c'
           = Some (Fulfilled {| responseId := id req';
                                tokens := TokenizationService.tokens tokenizedCode;
                                themeData := theme' |},
                   snd (CacheManager.get
                          (CacheManager.generateKey (code req) (language req)
                             (kindName (kind theme))) now' c')))
          /\ (CacheManager.lookup
                (CacheManager.generateKey (code req) (language req)
                   (kindName (kind theme))) c' = None ->
              exists tokenizedCode',
                tokenize race' (code req') (language req') theme'
                  maxBlockSize' timeout'
                = Some (Fulfilled tokenizedCode')
                /\ processRequest race' true maxBlockSize' timeout' theme'
                     now' later' req' c'
                   = Some (Fulfilled
                             {| responseId := id req';
                                tokens := TokenizationService.tokens tokenizedCode';
                                themeData := theme' |},
                           CacheManager.set
                             (CacheManager.generateKey (code req) (language req)
                                (kindName (kind theme))) tokenizedCode' later' c')))
    /\ CacheManager.lookup
         (CacheManager.generateKey (code req) (language req) (kindName (kind theme)))
         (CacheManager.clear c1) = None.
Proof.
  destruct (processRequest_stores race maxBlockSize timeout theme now later req c)
    as (tokenizedCode & c1 & H1 & Hl & _).
  exists tokenizedCode, c1. split; [exact H1|]. split; [exact Hl|].
  split; [|reflexivity].
  intros race' maxBlockSize' timeout' theme' now' later' req' c' Hcode Hlang Hkind.
  rewrite <- Hcode, <- Hlang, <- Hkind. split.
  - apply processRequest_hit.
  - apply processRequest_miss.
Qed.

(** With the cache disabled, the cache is neither read nor written. *)
Lemma processRequest_cache_disabled race maxBlockSize timeout theme now later req c :
  exists tokenizedCode,
    tokenize race (code req) (language req) theme maxBlockSize timeout
    = Some (Fulfilled tokenizedCode)
    /\ processRequest race false maxBlockSize timeout theme now later req c
       = Some (Fulfilled {| responseId := id req;
                            tokens := TokenizationService.tokens tokenizedCode;
                            themeData := theme |}, c).
Proof.
  destruct (tokenize_settles race (code req) (language req) theme maxBlockSize timeout)
    as (result & Hresult).
  exists result. split; [exact Hresult|].
  unfold processRequest. cbv zeta. cbn [fst snd]. rewrite Hresult. reflexivity.
Qed.

Lemma Aa_BB_differ (before after : jsstring) :
  before ++ codes "Aa" ++ after <> before ++ codes "BB" ++ after.
Proof. intros E. apply app_inv_head in E. discriminate. Qed.

(** X12. Two different codes with the same hash share a cache entry: after
    a request for a code containing [Aa] has been tokenized (here by the
    pattern tier, on a new cache), a request for the code with [BB] in that
    place, same language and theme kind, is answered from the cache with the
    tokens of the first code, whose texts spell the first code. *)
Theorem processRequest_collision_serves_other_code
    race' maxBlockSize maxBlockSize' timeout timeout'
    (theme theme' : ThemeData) now later now' later'
    (id1 id2 language before after : jsstring) (n : Z) :
  let code1 := before ++ codes "Aa" ++ after in
  let code2 := before ++ codes "BB" ++ after in
  let req1 := {| id := id1; code := code1; language := language |} in
  let req2 := {| id := id2; code := code2; language := language |} in
  kind theme' = kind theme -> len code1 <= maxBlockSize ->
  exists tokenizedCode c1 c2,
    processRequest alwaysRejected true maxBlockSize timeout theme now later req1
      (CacheManager.new n)
    = Some (Fulfilled {| responseId := id1;
                         tokens := TokenizationService.tokens tokenizedCode;
                         themeData := theme |}, c1)
    /\ processRequest race' true maxBlockSize' timeout' theme' now' later' req2 c1
       = Some (Fulfilled {| responseId := id2;
                            tokens := TokenizationService.tokens tokenizedCode;
                            themeData := theme' |}, c2)
    /\ tokenTexts (TokenizationService.tokens tokenizedCode) = code1
    /\ code1 <> code2.
Proof.
  intros code1 code2 req1 req2 Hkind Hsize.
  destruct (processRequest_stores alwaysRejected maxBlockSize timeout theme now later
              req1 (CacheManager.new n))
    as (tokenizedCode & c1 & H1 & Hl & Hmiss).
  assert (CacheManager.generateKey (code req2) (PreviewEnhancer.language req2)
            (kindName (kind theme'))
          = CacheManager.generateKey (code req1) (PreviewEnhancer.language req1)
              (kindName (kind theme))) as Hkey.
  { rewrite Hkind. apply generateKey_hash. symmetry. apply hashLoop_Aa_BB. }
  rewrite <- Hkey in Hl.
  pose proof (processRequest_hit race' maxBlockSize' timeout' theme' now' later' req2 c1
                tokenizedCode Hl) as H2.
  exists tokenizedCode, c1. eexists. split; [exact H1|]. split; [exact H2|].
  split; [|apply Aa_BB_differ].
  specialize (Hmiss eq_refl). unfold tokenize in Hmiss.
  assert (isLargeBlock (code req1) maxBlockSize = false) as Hsmall
    by (unfold isLargeBlock; cbn [code req1]; lia).
  rewrite Hsmall in Hmiss. unfold tokenizeWithTimeout, alwaysRejected in Hmiss.
  destruct (createMinimalHighlighting_spec theme (code req1)
              (PreviewEnhancer.language req1))
    as (ts & _ & Hm & Ht & _ & Hnil).
  rewrite Hm in Hmiss. simpl in Hmiss. inversion Hmiss; subst.
  cbn [TokenizationService.tokens].
  destruct ts as [|t ts]; [|exact Ht].
  rewrite tokenTexts_one. reflexivity.
Qed.

End RequestFacts.

(** X11 on three requests: one for a block, one for another block, and
    then the first block again under another id; the third is answered from
    the cache with the tokens of the first. *)
Lemma processRequest_repeat_served_from_cache_witness :
  exists tokenizedCode c1 response c2,
    PreviewEnhancer.processRequest alwaysRejected true 10000 5000%float
      mockThemeData 0 1 firstRequest (CacheManager.new 100)
    = Some (TokenizationService.Fulfilled
              {| PreviewEnhancer.responseId := codes "block-1";
                 PreviewEnhancer.tokens := TokenizationService.tokens tokenizedCode;
                 PreviewEnhancer.themeData := mockThemeData |}, c1)
    /\ PreviewEnhancer.processRequest alwaysRejected true 10000 5000%float
         mockThemeData 2 3
         {| PreviewEnhancer.id := codes "block-2";
            PreviewEnhancer.code := codes "SELECT 1";
            PreviewEnhancer.language := codes "sql" |} c1
       = Some (response, c2)
    /\ PreviewEnhancer.processRequest alwaysRejected true 10000 5000%float
         mockThemeData 4 5 sameRequest c2
       = Some (TokenizationService.Fulfilled
                 {| PreviewEnhancer.responseId := codes "block-7";
                    PreviewEnhancer.tokens := TokenizationService.tokens tokenizedCode;
                    PreviewEnhancer.themeData := mockThemeData |},
               snd (CacheManager.get
                      (CacheManager.generateKey (codes "return 'Aa';") (codes "js")
                         (codes "dark")) 4 c2)).
Proof.
  destruct (processRequest_repeat_served_from_cache alwaysRejected 10000 5000%float
              mockThemeData 0 1 firstRequest (CacheManager.new 100))
    as (tokenizedCode & c1 & H1 & Hl & Hlater & _).
  destruct (processRequest_stores alwaysRejected 10000 5000%float mockThemeData 2 3
              {| PreviewEnhancer.id := codes "block-2";
                 PreviewEnhancer.code := codes "SELECT 1";
                 PreviewEnhancer.language := codes "sql" |} c1)
    as (other & c2 & H2 & _).
  exists tokenizedCode, c1. eexists. exists c2.
  split; [exact H1|]. split; [exact H2|].
  apply (Hlater alwaysRejected 10000 5000%float mockThemeData 4 5 sameRequest c2);
    try reflexivity.
  vm_compute in H1. injection H1 as _ <-.
  vm_compute in Hl. injection Hl as <-.
  vm_compute in H2. injection H2 as _ <-.
  vm_compute. reflexivity.
Defined.

(** X12 on [return 'Aa';] and [return 'BB';]. *)
Lemma processRequest_collision_serves_other_code_witness :
  exists tokenizedCode c1 c2,
    PreviewEnhancer.processRequest alwaysRejected true 10000 5000%float
      mockThemeData 0 1 firstRequest (CacheManager.new 100)
    = Some (TokenizationService.Fulfilled
              {| PreviewEnhancer.responseId := codes "block-1";
                 PreviewEnhancer.tokens := TokenizationService.tokens tokenizedCode;
                 PreviewEnhancer.themeData := mockThemeData |}, c1)
    /\ PreviewEnhancer.processRequest alwaysRejected true 10000 5000%float
         mockThemeData 2 3
         {| PreviewEnhancer.id := codes "block-2";
            PreviewEnhancer.code := codes "return 'BB';";
            PreviewEnhancer.language := codes "js" |} c1
       = Some (TokenizationService.Fulfilled
                 {| PreviewEnhancer.responseId := codes "block-2";
                    PreviewEnhancer.tokens := TokenizationService.tokens tokenizedCode;
                    PreviewEnhancer.themeData := mockThemeData |}, c2)
    /\ tokenTexts (TokenizationService.tokens tokenizedCode) = codes "return 'Aa';".
Proof.
  destruct (processRequest_collision_serves_other_code alwaysRejected 10000 10000
              5000%float 5000%float mockThemeData mockThemeData 0 1 2 3
              (codes "block-1") (codes "block-2") (codes "js")
              (codes "return '") (codes "';") 100)
    as (tokenizedCode & c1 & c2 & H1 & H2 & H3 & _).
  - reflexivity.
  - vm_compute. discriminate.
  - exists tokenizedCode, c1, c2. split; [exact H1|]. split; [exact H2|exact H3].
Defined.

(** ** The cache over a run of requests; the legend of semantic tokens *)

Section ServeFacts.
Import Theme TokenizationService PreviewEnhancer.
Variable race : jsstring -> jsstring -> ThemeData -> float -> Settled TokenizedCode.

Lemma generateKey_nonempty code language themeKind :
  CacheManager.generateKey code language themeKind <> [].
Proof.
  unfold CacheManager.generateKey. intros E. apply app_eq_nil in E as [_ E].
  discriminate E.
Qed.

Lemma processRequest_invariant maxBlockSize timeout theme now later req c r c' :
  wellFormed c -> CacheManager.size c <= Z.max (CacheManager.maxSize c) 1 ->
  processRequest race true maxBlockSize timeout theme now later req c = Some (r, c') ->
  wellFormed c' /\ CacheManager.size c' <= Z.max (CacheManager.maxSize c') 1
  /\ CacheManager.maxSize c' = CacheManager.maxSize c.
Proof.
  intros Hwf Hsize. unfold processRequest. cbv zeta.
  set (cacheKey := CacheManager.generateKey (code req) (language req)
                     (kindName (kind theme))).
  destruct (get_wellFormed c cacheKey now Hwf) as (Hwf1 & Hsz1 & Hmax1).
  destruct (fst (CacheManager.get cacheKey now c)) as [tc|] eqn:Eget.
  - intros H. inversion H; subst. rewrite Hsz1, Hmax1. auto.
  - destruct (tokenize race (code req) (language req) theme maxBlockSize timeout)
      as [[tc|]|]; cbn [mbind option_bind]; intros H; inversion H; subst.
    + destruct (set_wellFormed (snd (CacheManager.get cacheKey now c)) cacheKey tc later)
        as (Hwf2 & Hsz2 & Hmax2).
      * exact Hwf1.
      * apply generateKey_nonempty.
      * rewrite Hsz1, Hmax1. exact Hsize.
      * rewrite Hmax2, Hmax1 in *. auto.
    + rewrite Hsz1, Hmax1. auto.
Qed.

(** X13. The cache as the extension uses it stays consistent and within
    its capacity: after [processRequest] has handled any sequence of
    requests on a cache built by [new CacheManager(n)], the cache holds at
    most [max n 1] entries.  The keys come from [generateKey], which never
    returns the empty string, so the entry that [evictLeastRecentlyUsed]
    cannot evict never arises. *)
Theorem serve_cache_bounded (n maxBlockSize : Z) (timeout : float)
    (arrivals : list Arrival) :
  wellFormed (serve race maxBlockSize timeout arrivals (CacheManager.new n))
  /\ CacheManager.size (serve race maxBlockSize timeout arrivals (CacheManager.new n))
     <= Z.max n 1.
Proof.
  assert (forall c, wellFormed c ->
            CacheManager.size c <= Z.max (CacheManager.maxSize c) 1 ->
            wellFormed (serve race maxBlockSize timeout arrivals c)
            /\ CacheManager.size (serve race maxBlockSize timeout arrivals c)
               <= Z.max (CacheManager.maxSize c) 1) as H.
  { unfold serve. induction arrivals as [|a arrivals IH]; intros c Hwf Hsize;
      [simpl; auto|].
    cbn [foldl].
    destruct (processRequest race true maxBlockSize timeout (arrivalTheme a)
                (arrivalNow a) (arrivalLater a) (arrivalRequest a) c)
      as [[r c']|] eqn:E.
    - destruct (processRequest_invariant _ _ _ _ _ _ _ _ _ Hwf Hsize E)
        as (Hwf' & Hsize' & Hmax').
      rewrite <- Hmax'. apply IH; assumption.
    - apply IH; assumption. }
  apply (H (CacheManager.new n)); [apply wellFormed_new|].
  unfold CacheManager.size, CacheManager.new. simpl. rewrite map_size_empty. lia.
Qed.

End ServeFacts.

Section SemanticTypeFacts.
Import Theme TokenizationService.

(** X18. Every semantic token type of the legend (indices 0 to 21) has a
    name with an entry of its own in the color table of the service, so none
    of them is colored as a variable by omission; an index outside the
    legend is named [unknown] and is colored as a variable. *)
Theorem semantic_types_have_colors (tokenType : N) (themeData : ThemeData) :
  ((tokenType < 22)%N ->
   exists key, typeMapping !! getSemanticTokenTypeName tokenType = Some key
               /\ key ∈ map codes [ "function"; "type"; "class"; "parameter";
                                     "variable"; "property"; "constant"; "keyword";
                                     "comment"; "string"; "number"; "regexp";
                                     "operator" ]%string)
  /\ ((22 <= tokenType)%N ->
      getSemanticTokenTypeName tokenType = codes "unknown"
      /\ getColorForTokenType (getSemanticTokenTypeName tokenType) themeData
         = getColorForTokenType (codes "variable") themeData).
Proof.
  split.
  - intros H.
    assert (tokenType ∈ map N.of_nat (seq 0 22)) as Hin.
    { apply list_elem_of_fmap. exists (N.to_nat tokenType).
      split; [lia|]. apply list_elem_of_In, in_seq. lia. }
    simpl in Hin.
    repeat (apply elem_of_cons in Hin as [->|Hin]); [..|inversion Hin];
      (eexists; split; [vm_compute; reflexivity|]);
      apply (bool_decide_unpack _); vm_compute; exact I.
  - intros H. unfold getSemanticTokenTypeName.
    assert ((22 <=? tokenType)%N = true) as -> by (apply N.leb_le; exact H).
    split; reflexivity.
Qed.

End SemanticTypeFacts.

(** ** Offsets of the tokens *)

Section TilingFacts.
Import Patterns Theme TokenizationService.
Variable themeData : ThemeData.

Lemma contiguous_app a ts1 b ts2 c :
  contiguous a ts1 b -> contiguous b ts2 c -> contiguous a (ts1 ++ ts2) c.
Proof.
  revert a. induction ts1 as [|t ts1 IH]; intros a H1 H2; simpl in *.
  - subst. exact H2.
  - destruct H1 as (? & ? & H1). eauto.
Qed.

Lemma contiguous_plain s a b :
  b = a + len s -> contiguous a [plain themeData s a b] b.
Proof. intros ->. simpl. auto. Qed.

Lemma len_substring (s : jsstring) a b :
  0 <= a <= b -> b <= len s -> len (substring s a b) = b - a.
Proof. apply substring_length. Qed.

Lemma createTokens_contiguous line position linePosition ms :
  0 <= linePosition <= len line ->
  Forall (goodMatch line) ms -> chained linePosition ms ->
  contiguous (position + linePosition)
    (fst (createTokens themeData line position linePosition ms))
    (position + snd (createTokens themeData line position linePosition ms)).
Proof.
  revert linePosition.
  induction ms as [|x ms IH]; intros linePosition Hp HF Hc; simpl.
  - reflexivity.
  - inversion HF as [|? ? (H0 & H1 & H2 & Hty) HF']; subst.
    destruct Hc as [Hpx Hc].
    eapply (contiguous_app _ _ (position + start x)).
    + destruct (linePosition <? start x) eqn:E.
      * apply contiguous_plain. rewrite len_substring by lia. lia.
      * simpl. lia.
    + simpl. split; [reflexivity|]. split.
      * rewrite len_substring by lia. lia.
      * apply IH; [lia|assumption..].
Qed.

Lemma tokenizeLine_contiguous line position isLast r :
  tokenizeLine themeData line position isLast = Some r ->
  contiguous position (fst r) (snd r)
  /\ snd r = position + len line + (if isLast then 0 else 1).
Proof.
  unfold tokenizeLine.
  destruct (filteredMatches_total line) as (ms & -> & HF & Hc).
  cbn [mbind option_bind].
  destruct (service_createTokens_spec themeData line position 0 ms) as (Hb & _);
    [unfold len; lia|assumption..|].
  pose proof (createTokens_contiguous line position 0 ms) as Hct.
  rewrite Z.add_0_r in Hct. specialize (Hct ltac:(unfold len; lia) HF Hc).
  set (r0 := createTokens themeData line position 0 ms) in *.
  assert (contiguous position
            (fst r0 ++ (if snd r0 <? len line
                        then [ plain themeData (substringFrom line (snd r0))
                                 (position + snd r0) (position + len line) ]
                        else []))
            (position + len line)) as Hline.
  { eapply contiguous_app; [exact Hct|].
    destruct (snd r0 <? len line) eqn:E.
    - apply contiguous_plain. unfold substringFrom.
      rewrite len_substring by lia. lia.
    - simpl. lia. }
  destruct isLast; intros H; inversion H; subst; cbn [fst snd].
  - split; [exact Hline|]. lia.
  - split; [|lia]. rewrite app_assoc.
    eapply contiguous_app; [exact Hline|].
    apply contiguous_plain. reflexivity.
Qed.

Lemma len_app (a b : jsstring) : len (a ++ b) = len a + len b.
Proof. unfold len. rewrite length_app. lia. Qed.

Lemma tokenizeLines_contiguous lines position ts :
  tokenizeLines themeData lines position = Some ts ->
  contiguous position ts (position + len (join LF lines)).
Proof.
  revert position ts. induction lines as [|line rest IH]; intros position ts H.
  - inversion H. simpl. unfold len. simpl. lia.
  - simpl tokenizeLines in H.
    destruct (tokenizeLine themeData line position (bool_decide (rest = [])))
      as [r|] eqn:Er; [|discriminate].
    cbn [mbind option_bind] in H.
    destruct (tokenizeLines themeData rest (snd r)) as [more|] eqn:Em; [|discriminate].
    inversion H; subst.
    apply tokenizeLine_contiguous in Er as [Hc Hs]. apply IH in Em.
    eapply contiguous_app; [exact Hc|].
    rewrite join_cons. destruct rest as [|l rest'].
    + rewrite bool_decide_true in Hs by reflexivity.
      rewrite app_nil_r.
      replace (position + len line) with (snd r + len (join LF [])) by
        (unfold len; simpl; unfold len in Hs; lia).
      exact Em.
    + rewrite bool_decide_false in Hs by discriminate.
      rewrite len_app. change (len (LF :: ?l)) with (Z.of_nat (S (length l))).
      unfold len in *. replace (position + (Z.of_nat (length line)
        + Z.of_nat (S (length (join LF (l :: rest'))))))
        with (snd r + Z.of_nat (length (join LF (l :: rest')))) by lia.
      exact Em.
Qed.

(** Contiguous tokens whose texts spell the rest of [code] carry the text
    at their offsets. *)
Lemma contiguous_tiles code (pre : jsstring) ts :
  pre ++ tokenTexts ts = code ->
  contiguous (len pre) ts (len code) -> tiles code (len pre) ts (len code).
Proof.
  revert pre. induction ts as [|t ts IH]; intros pre Hcode Hc; simpl in *.
  - exact Hc.
  - destruct Hc as (Hs & He & Hc).
    change (tokenTexts (t :: ts)) with (text t ++ tokenTexts ts) in Hcode.
    assert (len (pre ++ text t) = endIndex t) as Hlen by (rewrite len_app; lia).
    assert (len code = len pre + len (text t) + len (tokenTexts ts)) as Hall.
    { rewrite <- Hcode, !len_app. lia. }
    assert (0 <= len pre /\ 0 <= len (text t) /\ 0 <= len (tokenTexts ts)) as (? & ? & ?)
      by (unfold len; lia).
    split; [exact Hs|]. split.
    + unfold located. rewrite Hs, He. split; [lia|]. split; [lia|].
      rewrite substring_inside by lia. rewrite <- Hcode.
      replace (Z.to_nat (len pre)) with (length pre) by (unfold len; lia).
      rewrite drop_app_length.
      replace (Z.to_nat (len pre + len (text t) - len pre)) with (length (text t))
        by (unfold len; lia).
      rewrite take_app_length. reflexivity.
    + rewrite <- Hlen. apply IH.
      * rewrite <- app_assoc. exact Hcode.
      * rewrite Hlen. exact Hc.
Qed.

Lemma tiles_texts code from ts to :
  0 <= from -> to <= len code -> tiles code from ts to ->
  from <= to /\ tokenTexts ts = substring code from to.
Proof.
  revert from. induction ts as [|t ts IH]; intros from Hf Ht H; simpl in H.
  - subst. split; [lia|]. symmetry. apply substring_empty. lia.
  - destruct H as (Hs & (Hb & He & Htext) & H).
    destruct (IH (endIndex t)) as [Hle Hts]; [lia|assumption..|].
    split; [lia|].
    change (tokenTexts (t :: ts)) with (text t ++ tokenTexts ts).
    rewrite Htext, Hts, Hs. apply substring_app; lia.
Qed.

(** The tokens of tier 3 tile the code. *)
Lemma createMinimalHighlighting_covers (code language : jsstring) :
  exists result,
    createMinimalHighlighting code language themeData = Some result
    /\ tiles code 0 (tokens result) (len code).
Proof.
  destruct (createMinimalHighlighting_spec themeData code language)
    as (ts & Hlines & Hm & Ht & _ & Hnil).
  eexists. split; [exact Hm|]. cbn [tokens].
  destruct ts as [|t ts].
  - assert (code = []) as -> by (apply Hnil; reflexivity).
    simpl. unfold located. simpl. unfold len. simpl. repeat split; lia.
  - apply tokenizeLines_contiguous in Hlines. rewrite join_split in Hlines.
    apply (contiguous_tiles code []); [exact Ht|exact Hlines].
Qed.


Lemma tiles_app code a ts1 b ts2 c :
  tiles code a ts1 b -> tiles code b ts2 c -> tiles code a (ts1 ++ ts2) c.
Proof.
  revert a. induction ts1 as [|t ts1 IH]; intros a H1 H2; simpl in *.
  - subst. exact H2.
  - destruct H1 as (? & ? & H1). eauto.
Qed.

Lemma tiles_plain code a b :
  0 <= a <= b -> b <= len code ->
  tiles code a [plain themeData (substring code a b) a b] b.
Proof.
  intros Ha Hb. simpl. split; [reflexivity|]. split; [|reflexivity].
  unfold located. simpl. auto.
Qed.

Lemma fillGaps_tiles text lastEnd tokens :
  0 <= lastEnd -> placed text lastEnd tokens ->
  tiles text lastEnd (fst (fillGaps themeData text lastEnd tokens))
    (snd (fillGaps themeData text lastEnd tokens))
  /\ lastEnd <= snd (fillGaps themeData text lastEnd tokens) <= len text.
Proof.
  revert lastEnd. induction tokens as [|t tokens IH]; intros lastEnd H0 Hp; simpl in *.
  - split; [reflexivity|lia].
  - destruct Hp as (Hs & Hloc & Hp). pose proof Hloc as (Hb & He & Htext).
    destruct (IH (endIndex t)) as [Ht Hbound]; [lia|exact Hp|].
    split; [|lia].
    eapply (tiles_app _ _ _ (startIndex t)).
    + destruct (lastEnd <? startIndex t) eqn:E.
      * apply tiles_plain; lia.
      * simpl. lia.
    + simpl. split; [reflexivity|]. split; [exact Hloc|exact Ht].
Qed.

Lemma fillGaps_kept text lastEnd tokens :
  tokens `sublist_of` fst (fillGaps themeData text lastEnd tokens)
  /\ Forall (fun t => t ∈ tokens \/ scopes t = [codes "text"])
       (fst (fillGaps themeData text lastEnd tokens)).
Proof.
  revert lastEnd. induction tokens as [|t tokens IH]; intros lastEnd; simpl.
  - split; constructor.
  - destruct (IH (endIndex t)) as [Hsub Hall]. split.
    + apply sublist_inserts_l. constructor. exact Hsub.
    + apply Forall_app. split.
      * destruct (lastEnd <? startIndex t);
          [constructor; [right; reflexivity|constructor]|constructor].
      * constructor; [left; apply elem_of_cons; auto|].
        revert Hall. apply List.Forall_impl. intros x [?|?]; [left|right; assumption].
        apply elem_of_cons. auto.
Qed.

Lemma tiles_located code from ts to : tiles code from ts to -> Forall (located code) ts.
Proof.
  revert from. induction ts as [|t ts IH]; intros from H; [constructor|].
  simpl in H. destruct H as (_ & Hl & H). constructor; [exact Hl|eauto].
Qed.

(** X14. The tokens of [createMinimalHighlighting] tile the code: the first
    starts at offset 0, each starts where the one before it ends, the last
    ends at [code.length], and each token's text is
    [code.substring(startIndex, endIndex)]. *)
Theorem createMinimalHighlighting_tiles (code language : jsstring) :
  exists result,
    createMinimalHighlighting code language themeData = Some result
    /\ tiles code 0 (tokens result) (len code)
    /\ Forall (located code) (tokens result).
Proof.
  destruct (createMinimalHighlighting_covers code language) as (result & H & Ht).
  exists result. split; [exact H|]. split; [exact Ht|].
  eapply tiles_located, Ht.
Qed.

Lemma fillGapsWithPlainTokens_kept (text : jsstring) (tokens : list Token) :
  tokens `sublist_of` fillGapsWithPlainTokens text tokens themeData
  /\ Forall (fun t => t ∈ tokens \/ scopes t = [codes "text"])
       (fillGapsWithPlainTokens text tokens themeData).
Proof.
  unfold fillGapsWithPlainTokens. destruct tokens as [|t tokens].
  - split; [apply sublist_nil_l|]. constructor; [right; reflexivity|constructor].
  - cbv zeta. split.
    + apply sublist_inserts_r. apply fillGaps_kept.
    + apply Forall_app. split; [apply fillGaps_kept|].
      destruct (_ <? len text);
        [constructor; [right; reflexivity|constructor]|constructor].
Qed.

Lemma fillGapsWithPlainTokens_placed (text : jsstring) (tokens : list Token) :
  placed text 0 tokens ->
  tiles text 0 (fillGapsWithPlainTokens text tokens themeData) (len text).
Proof.
  intros Hp. unfold fillGapsWithPlainTokens. destruct tokens as [|t tokens].
  - replace text with (substring text 0 (len text)) at 2 by apply substring_all.
    apply tiles_plain; unfold len; lia.
  - destruct (fillGaps_tiles text 0 (t :: tokens)) as [Ht Hb]; [lia|exact Hp|].
    cbv zeta. eapply tiles_app; [exact Ht|].
    destruct (_ <? len text) eqn:E.
    + unfold substringFrom. apply tiles_plain; lia.
    + cbn [tiles]. lia.
Qed.

Lemma tiles_all code ts :
  tiles code 0 ts (len code) -> tokenTexts ts = code.
Proof.
  intros H.
  destruct (tiles_texts code 0 ts (len code) ltac:(lia) ltac:(lia) H) as [_ ->].
  apply substring_all.
Qed.

(** X16. [fillGapsWithPlainTokens] never returns an empty list, keeps the
    tokens it is given, in order, and adds only plain text tokens.  When the
    given tokens are in order, do not overlap, lie inside the text and carry
    the text at their offsets, the result tiles the text and its texts
    concatenate to the text. *)
Theorem fillGapsWithPlainTokens_tiles (text : jsstring) (tokens : list Token) :
  fillGapsWithPlainTokens text tokens themeData <> []
  /\ tokens `sublist_of` fillGapsWithPlainTokens text tokens themeData
  /\ Forall (fun t => t ∈ tokens \/ scopes t = [codes "text"])
       (fillGapsWithPlainTokens text tokens themeData)
  /\ (placed text 0 tokens ->
      tiles text 0 (fillGapsWithPlainTokens text tokens themeData) (len text)
      /\ tokenTexts (fillGapsWithPlainTokens text tokens themeData) = text).
Proof.
  split; [|split; [|split]].
  - unfold fillGapsWithPlainTokens. destruct tokens as [|t tokens]; [discriminate|].
    cbv zeta. simpl. destruct (0 <? startIndex t); discriminate.
  - apply fillGapsWithPlainTokens_kept.
  - apply fillGapsWithPlainTokens_kept.
  - intros Hp. split; [apply fillGapsWithPlainTokens_placed, Hp|].
    apply tiles_all, fillGapsWithPlainTokens_placed, Hp.
Qed.

End TilingFacts.

(** ** Semantic tokens *)

Section SemanticFacts.
Import Theme TokenizationService.
Variable themeData : ThemeData.

Lemma len_nonneg (s : jsstring) : 0 <= len s.
Proof. unfold len. lia. Qed.

(** A substring of the middle part. *)
Lemma substring_middle (pre mid post : jsstring) a b :
  0 <= a <= b -> b <= len mid ->
  substring (pre ++ mid ++ post) (len pre + a) (len pre + b) = substring mid a b.
Proof.
  intros Ha Hb. pose proof (len_nonneg pre). pose proof (len_nonneg post).
  rewrite !substring_inside; try lia.
  - replace (Z.to_nat (len pre + a)) with (length pre + Z.to_nat a)%nat
      by (unfold len; lia).
    rewrite <- drop_drop, drop_app_length.
    replace (len pre + b - (len pre + a)) with (b - a) by lia.
    rewrite drop_app_le by (unfold len in Hb; lia).
    rewrite take_app_le; [reflexivity|].
    rewrite length_drop. unfold len in Hb. lia.
  - rewrite !len_app. lia.
Qed.

(** Where a line starts in the joined text. *)
Lemma lineStart_spec (lines : list jsstring) l line :
  lines !! l = Some line ->
  exists s pre post,
    lineStart lines l = Some s /\ join LF lines = pre ++ line ++ post /\ len pre = s.
Proof.
  revert lines. induction l as [|l IH]; intros lines Hl.
  - destruct lines as [|l0 rest]; [discriminate|]. simpl in Hl. inversion Hl; subst.
    exists 0, [], (match rest with [] => [] | _ => LF :: join LF rest end).
    split; [reflexivity|]. split; [apply join_cons|reflexivity].
  - destruct lines as [|l0 rest]; [discriminate|]. simpl in Hl.
    destruct (IH rest Hl) as (s & pre & post & Hs & Hj & Hp).
    exists (len l0 + 1 + s), (l0 ++ LF :: pre), post.
    split; [simpl; rewrite Hs; reflexivity|]. split.
    + rewrite join_cons. destruct rest as [|l1 rest']; [discriminate|].
      rewrite Hj, <- app_assoc. reflexivity.
    + rewrite len_app. change (len (LF :: pre)) with (Z.of_nat (S (length pre))).
      unfold len in *. lia.
Qed.

Lemma lineStart_later (lines : list jsstring) l l2 line s s2 :
  lines !! l = Some line -> (l < l2)%nat ->
  lineStart lines l = Some s -> lineStart lines l2 = Some s2 ->
  s + len line + 1 <= s2.
Proof.
  revert lines l2 s s2. induction l as [|l IH]; intros lines l2 s s2 Hl Hlt Hs Hs2.
  - destruct lines as [|l0 rest]; [discriminate|]. simpl in Hl. inversion Hl; subst.
    simpl in Hs. inversion Hs; subst.
    destruct l2 as [|l2]; [lia|]. simpl in Hs2.
    destruct (lineStart rest l2) as [s'|] eqn:E; [|discriminate].
    simpl in Hs2. inversion Hs2; subst.
    assert (0 <= s').
    { clear -E. revert rest s' E. induction l2 as [|l2 IH]; intros rest s' E.
      - simpl in E. inversion E. lia.
      - simpl in E. destruct rest as [|x rest]; [discriminate|].
        destruct (lineStart rest l2) as [s''|] eqn:E'; [|discriminate].
        simpl in E. inversion E; subst. specialize (IH _ _ E').
        pose proof (len_nonneg x). unfold len in *. lia. }
    unfold len in *. lia.
  - destruct lines as [|l0 rest]; [discriminate|]. simpl in Hl.
    destruct l2 as [|l2]; [lia|]. simpl in Hs, Hs2.
    destruct (lineStart rest l) as [s'|] eqn:E; [|discriminate].
    destruct (lineStart rest l2) as [s2'|] eqn:E2; [|discriminate].
    simpl in Hs, Hs2. inversion Hs; inversion Hs2; subst.
    specialize (IH rest l2 s' s2' Hl ltac:(lia) E E2). unfold len in *. lia.
Qed.

Lemma lineStart_None (lines : list jsstring) l :
  lineStart lines l = None <-> (length lines < l)%nat.
Proof.
  revert lines. induction l as [|l IH]; intros lines.
  - simpl. split; [discriminate|lia].
  - destruct lines as [|l0 rest]; simpl.
    + split; [lia|reflexivity].
    + specialize (IH rest). destruct (lineStart rest l) as [z|]; simpl.
      * split; [discriminate|]. intros H.
        assert (Some z = None) as E by (apply IH; lia). discriminate E.
      * split; [|reflexivity]. intros _.
        assert (length rest < l)%nat by (apply IH; reflexivity). lia.
Qed.

Lemma decodeSemanticTokens_placed text data currentLine currentChar previousLength
    line s :
  split LF text !! N.to_nat currentLine = Some line ->
  Z.of_N currentChar + Z.of_N previousLength <= len line ->
  lineStart (split LF text) (N.to_nat currentLine) = Some s ->
  onLines (split LF text) data currentLine currentChar previousLength ->
  exists decoded,
    decodeSemanticTokens themeData text data currentLine currentChar = Some decoded
    /\ placed text (s + Z.of_N currentChar + Z.of_N previousLength) decoded
    /\ map TokenizationService.text decoded
       = designated (split LF text) data currentLine currentChar.
Proof.
  revert currentLine currentChar previousLength line s.
  induction data as [|d rest IH];
    intros currentLine currentChar previousLength line s Hline Hfit Hs Hon.
  - exists []. split; [reflexivity|]. split; [|reflexivity].
    simpl. destruct (lineStart_spec _ _ _ Hline) as (s' & pre & post & Hs' & Hj & Hp).
    rewrite join_split in Hj. rewrite Hs in Hs'. inversion Hs'; subst s'.
    rewrite Hj, !len_app. pose proof (len_nonneg post). lia.
  - cbn [onLines] in Hon. cbv zeta in Hon.
    destruct Hon as (Hgap & (line' & Hline' & Hfit') & Hon).
    cbn [decodeSemanticTokens designated]. cbv zeta.
    set (currentLine' := (currentLine + deltaLine d)%N) in *.
    set (currentChar' := if (deltaLine d =? 0)%N
                         then (currentChar + deltaStartChar d)%N
                         else deltaStartChar d) in *.
    destruct (lineStart_spec _ _ _ Hline') as (s' & pre & post & Hs' & Hj & Hp).
    rewrite join_split in Hj.
    rewrite Hs'. cbn [mbind option_bind].
    destruct (IH currentLine' currentChar' (length_ d) line' s' Hline' Hfit' Hs' Hon)
      as (more & -> & Hplaced & Htexts).
    cbn [mbind option_bind]. eexists. split; [reflexivity|].
    assert (s + Z.of_N currentChar + Z.of_N previousLength
            <= s' + Z.of_N currentChar') as Horder.
    { destruct (deltaLine d =? 0)%N eqn:E.
      - apply N.eqb_eq in E. specialize (Hgap E).
        assert (currentLine' = currentLine) as Hsame by (subst currentLine'; lia).
        rewrite Hsame in Hs'. rewrite Hs in Hs'. inversion Hs'; subst s'.
        subst currentChar'. lia.
      - apply N.eqb_neq in E.
        pose proof (lineStart_later (split LF text) (N.to_nat currentLine)
                      (N.to_nat currentLine') line s s' Hline
                      ltac:(subst currentLine'; lia) Hs Hs').
        lia. }
    assert (substring text (s' + Z.of_N currentChar')
              (s' + Z.of_N currentChar' + Z.of_N (length_ d))
            = substring line' (Z.of_N currentChar')
                (Z.of_N currentChar' + Z.of_N (length_ d))) as Htext.
    { rewrite Hj at 1. rewrite <- Hp, <- Z.add_assoc.
      apply substring_middle; lia. }
    split; [|cbn [map TokenizationService.text]; f_equal; [|exact Htexts]].
    + cbn [placed startIndex endIndex]. split; [exact Horder|]. split; [|exact Hplaced].
      unfold located. cbn [startIndex endIndex TokenizationService.text].
      pose proof (lineStart_later (split LF text)) as _.
      assert (0 <= s') by (rewrite <- Hp; apply len_nonneg).
      split; [lia|]. split; [|reflexivity].
      rewrite Hj, !len_app. pose proof (len_nonneg post). lia.
    + unfold lineText. rewrite Hline'. exact Htext.
Qed.

(** X17. [parseSemanticTokens] on semantic tokens that each lie on one line
    of the text and do not start inside the token before them: every token
    gets the text its line, column and length designate, the decoded tokens
    are kept in order, and the result tiles the text, so its texts
    concatenate to the text.  A first token placed more than one line past
    the last line makes [parseSemanticTokens] throw. *)
Theorem parseSemanticTokens_lossless (text : jsstring) (data : list SemanticToken) :
  (onLines (split LF text) data 0 0 0 ->
   exists decoded ts,
     decodeSemanticTokens themeData text data 0 0 = Some decoded
     /\ map TokenizationService.text decoded = designated (split LF text) data 0 0
     /\ parseSemanticTokens text data themeData = Some ts
     /\ decoded `sublist_of` ts
     /\ tiles text 0 ts (len text)
     /\ tokenTexts ts = text)
  /\ (forall d rest,
        data = d :: rest ->
        (length (split LF text) < N.to_nat (deltaLine d))%nat ->
        parseSemanticTokens text data themeData = None).
Proof.
  split.
  - intros Hon.
    destruct (split LF text) as [|line0 rest0] eqn:Esplit;
      [exfalso; eapply split_nonempty; eauto|].
    destruct (decodeSemanticTokens_placed text data 0 0 0 line0 0)
      as (decoded & Hdec & Hplaced & Htexts).
    { rewrite Esplit. reflexivity. }
    { pose proof (len_nonneg line0). lia. }
    { reflexivity. }
    { rewrite Esplit. exact Hon. }
    rewrite Esplit in Htexts.
    exists decoded, (fillGapsWithPlainTokens text decoded themeData).
    split; [exact Hdec|]. split; [exact Htexts|].
    split; [unfold parseSemanticTokens; rewrite Hdec; reflexivity|].
    split; [apply fillGapsWithPlainTokens_kept|].
    simpl in Hplaced.
    split; [apply fillGapsWithPlainTokens_placed, Hplaced|].
    apply tiles_all, fillGapsWithPlainTokens_placed, Hplaced.
  - intros d rest -> Hfar. unfold parseSemanticTokens.
    cbn [decodeSemanticTokens]. cbv zeta.
    assert (lineStart (split LF text) (N.to_nat (0 + deltaLine d)) = None) as ->.
    { apply lineStart_None. lia. }
    reflexivity.
Qed.

End SemanticFacts.

(** X17 on a text of two lines with three semantic tokens. *)
Lemma parseSemanticTokens_lossless_witness :
  exists decoded ts,
    TokenizationService.decodeSemanticTokens mockThemeData sampleText sampleData 0 0
    = Some decoded
    /\ map TokenizationService.text decoded = [codes "x"; codes "foo"; codes "x"]
    /\ TokenizationService.parseSemanticTokens sampleText sampleData mockThemeData
       = Some ts
    /\ tokenTexts ts = sampleText.
Proof.
  destruct (parseSemanticTokens_lossless mockThemeData sampleText sampleData)
    as [H _].
  destruct H as (decoded & ts & H1 & H2 & H3 & _ & _ & H6).
  - vm_compute. repeat split; try discriminate; eexists; (split; [reflexivity|discriminate]).
  - exists decoded, ts. split; [exact H1|]. split; [exact H2|]. auto.
Defined.

(** ** Offsets in the chunked path *)

Section StreamingOffsets.
Import Theme TokenizationService.
Variable race : jsstring -> jsstring -> ThemeData -> float -> Settled TokenizedCode.
Variable themeData : ThemeData.

Lemma join_app sep (a b : list jsstring) :
  a <> [] -> b <> [] -> join sep (a ++ b) = join sep a ++ sep :: join sep b.
Proof.
  induction a as [|x a IH]; intros Ha Hb; [contradiction|].
  destruct a as [|y a].
  - simpl. destruct b; [contradiction|reflexivity].
  - specialize (IH ltac:(discriminate) Hb).
    rewrite <- app_comm_cons, (join_cons sep x), (join_cons sep x (y :: a)).
    cbn [app] in IH |- *. rewrite IH, <- app_assoc. reflexivity.
Qed.

(** The tokens of a chunk, moved to where the chunk lies in the code. *)
Lemma tiles_shift_placed code (pre chunk post : jsstring) ts more from next :
  code = pre ++ chunk ++ post ->
  0 <= from ->
  tiles chunk from ts (len chunk) ->
  len pre + len chunk <= next ->
  placed code next more ->
  placed code (len pre + from) (map (shift (len pre)) ts ++ more).
Proof.
  intros Hcode. revert from. induction ts as [|t ts IH]; intros from H0 Ht Hnext Hmore.
  - simpl in *. subst from.
    clear -Hnext Hmore. destruct more as [|m more]; simpl in *; [lia|].
    destruct Hmore as (? & ? & ?). split; [lia|auto].
  - simpl in Ht. destruct Ht as (Hs & (Hb & He & Htext) & Ht).
    cbn [map app placed]. unfold located.
    change (startIndex (shift (len pre) t)) with (startIndex t + len pre).
    change (endIndex (shift (len pre) t)) with (endIndex t + len pre).
    change (TokenizationService.text (shift (len pre) t))
      with (TokenizationService.text t).
    pose proof (len_nonneg pre). pose proof (len_nonneg post).
    split; [lia|]. split.
    + split; [lia|]. split; [rewrite Hcode, !len_app; lia|].
      rewrite Htext, Hcode, !(Z.add_comm _ (len pre)).
      symmetry. apply substring_middle; lia.
    + rewrite (Z.add_comm (endIndex t)).
      apply IH; [lia|exact Ht|exact Hnext|exact Hmore].
Qed.

Lemma streamChunks_placed (language : jsstring) timeout chunks code pre ts :
  (forall chunk t result,
     race chunk language themeData t = Fulfilled result ->
     tiles chunk 0 (tokens result) (len chunk)) ->
  Forall (fun chunk => chunk <> []) chunks ->
  code = pre ++ join LF (concat chunks) ->
  streamChunks race language themeData timeout chunks (len pre) = Some ts ->
  placed code (len pre) ts.
Proof.
  intros Hrace Hne. revert pre ts.
  induction Hne as [|chunkLines rest Hc Hne IH]; intros pre ts Hcode H.
  - inversion H. simpl. rewrite Hcode, len_app. pose proof (len_nonneg (join LF (concat []))). lia.
  - cbn [streamChunks] in H.
    assert (exists result,
              tokenizeWithTimeout race (join LF chunkLines) language themeData
                (timeout / 10)%float = Some (Fulfilled result)
              /\ tiles (join LF chunkLines) 0 (tokens result)
                   (len (join LF chunkLines))) as (result & Hres & Htiles).
    { unfold tokenizeWithTimeout.
      destruct (race (join LF chunkLines) language themeData (timeout / 10)%float)
        as [result|] eqn:E.
      - exists result. split; [reflexivity|]. exact (Hrace _ _ _ E).
      - destruct (createMinimalHighlighting_covers themeData (join LF chunkLines) language)
          as (result & -> & Ht). exists result. auto. }
    rewrite Hres in H. cbn [mbind option_bind] in H.
    set (chunk := join LF chunkLines) in *.
    assert (exists post, code = pre ++ chunk ++ post
              /\ (rest = [] -> post = [])
              /\ (rest <> [] -> post = LF :: join LF (concat rest))) as
      (post & Hcode' & Hlast & Hmid).
    { cbn [concat] in Hcode. destruct rest as [|c2 rest'].
      - exists []. cbn [concat] in Hcode. rewrite app_nil_r in Hcode.
        split; [rewrite app_nil_r; exact Hcode|]. split; [reflexivity|congruence].
      - exists (LF :: join LF (concat (c2 :: rest'))).
        split; [|split; [discriminate|reflexivity]].
        rewrite Hcode. f_equal. apply join_app; [exact Hc|].
        inversion Hne as [|? ? Hc2 _]; subst. cbn [concat].
        destruct c2; [contradiction|discriminate]. }
    destruct (bool_decide (rest = [])) eqn:Erest.
    + apply bool_decide_eq_true in Erest. subst rest.
      cbn [streamChunks mbind option_bind] in H. inversion H; subst ts.
      pose proof (tiles_shift_placed code pre chunk post (tokens result) []
                    0 (len pre + len chunk) Hcode' ltac:(lia) Htiles ltac:(lia)) as Hp.
      rewrite Z.add_0_r in Hp. apply Hp. simpl.
      rewrite Hcode', (Hlast eq_refl), !len_app. unfold len. simpl. lia.
    + apply bool_decide_eq_false in Erest.
      match type of H with
      | context [streamChunks race language themeData timeout rest ?p] =>
          destruct (streamChunks race language themeData timeout rest p)
            as [more|] eqn:Em; [|discriminate]
      end.
      cbn [mbind option_bind] in H. inversion H; subst ts.
      assert (len (pre ++ chunk ++ [LF]) = len pre + len chunk + 1) as Hlen.
      { rewrite !len_app. unfold len. simpl. lia. }
      rewrite <- Hlen in Em. apply IH in Em.
      * pose proof (tiles_shift_placed code pre chunk post (tokens result) more
                      0 (len (pre ++ chunk ++ [LF])) Hcode' ltac:(lia) Htiles
                      ltac:(lia) Em) as Hp.
        rewrite Z.add_0_r in Hp. exact Hp.
      * rewrite Hcode', (Hmid Erest), <- !app_assoc. reflexivity.
Qed.

Lemma len_cons (c : N) (s : jsstring) : len (c :: s) = 1 + len s.
Proof. unfold len. cbn [length]. lia. Qed.

Lemma tiles_le code from ts to : tiles code from ts to -> from <= to.
Proof.
  revert from. induction ts as [|t ts IH]; intros from H; simpl in H; [lia|].
  destruct H as (Hs & (Hb & _) & H). apply IH in H. lia.
Qed.

(** Tokens that tile a range cover exactly that range. *)
Lemma tiles_covered code from ts to i :
  tiles code from ts to -> covered ts i <-> from <= i < to.
Proof.
  unfold covered. revert from. induction ts as [|t ts IH]; intros from H; simpl in H.
  - rewrite Exists_nil. lia.
  - destruct H as (Hs & (Hb & _) & H). pose proof (tiles_le _ _ _ _ H).
    rewrite Exists_cons, (IH _ H). lia.
Qed.

Lemma covered_shift position ts i :
  covered (map (shift position) ts) i <-> covered ts (i - position).
Proof.
  unfold covered. induction ts as [|t ts IH]; simpl.
  - rewrite !Exists_nil. tauto.
  - rewrite !Exists_cons, IH. unfold shift. cbn [startIndex endIndex].
    assert (startIndex t + position <= i < endIndex t + position
            <-> startIndex t <= i - position < endIndex t) as -> by lia.
    reflexivity.
Qed.

Lemma separators_ge chunks position x :
  x ∈ separators chunks position -> position <= x.
Proof.
  revert position. induction chunks as [|c [|c2 rest] IH]; intros position H;
    try (inversion H; fail).
  change (separators (c :: c2 :: rest) position)
    with (position + len (join LF c)
          :: separators (c2 :: rest) (position + len (join LF c) + 1)) in H.
  pose proof (len_nonneg (join LF c)).
  apply elem_of_cons in H as [->|H]; [lia|]. apply IH in H. lia.
Qed.

Lemma separators_length chunks position :
  length (separators chunks position) = Nat.pred (length chunks).
Proof.
  revert position. induction chunks as [|c [|c2 rest] IH]; intros position;
    [reflexivity..|].
  change (length (separators (c :: c2 :: rest) position))
    with (S (length (separators (c2 :: rest) (position + len (join LF c) + 1)))).
  rewrite IH. reflexivity.
Qed.

(** How the code splits at the first chunk. *)
Lemma first_chunk (chunkLines : list jsstring) rest (code pre : jsstring) :
  chunkLines <> [] -> Forall (fun chunk : list jsstring => chunk <> []) rest ->
  code = pre ++ join LF (concat (chunkLines :: rest)) ->
  exists post,
    code = pre ++ join LF chunkLines ++ post
    /\ (rest = [] -> post = [])
    /\ (rest <> [] -> post = LF :: join LF (concat rest)).
Proof.
  intros Hc Hne Hcode. cbn [concat] in Hcode. destruct rest as [|c2 rest'].
  - exists []. cbn [concat] in Hcode. rewrite app_nil_r in Hcode.
    split; [rewrite app_nil_r; exact Hcode|]. split; [reflexivity|congruence].
  - exists (LF :: join LF (concat (c2 :: rest'))).
    split; [|split; [discriminate|reflexivity]].
    rewrite Hcode. f_equal. apply join_app; [exact Hc|].
    inversion Hne as [|? ? Hc2 _]; subst. cbn [concat].
    destruct c2; [contradiction|discriminate].
Qed.

(** Each separator is a newline of the code. *)
Lemma separators_newline chunks (code pre : jsstring) x :
  Forall (fun chunk => chunk <> []) chunks ->
  code = pre ++ join LF (concat chunks) ->
  x ∈ separators chunks (len pre) ->
  0 <= x < len code /\ code !! Z.to_nat x = Some LF.
Proof.
  intros Hne. revert pre.
  induction Hne as [|chunkLines rest Hc Hne IH]; intros pre Hcode Hx;
    [inversion Hx|].
  destruct (first_chunk chunkLines rest code pre Hc Hne Hcode)
    as (post & Hcode' & _ & Hmid).
  destruct rest as [|c2 rest']; [inversion Hx|].
  specialize (Hmid ltac:(discriminate)).
  change (separators (chunkLines :: c2 :: rest') (len pre))
    with (len pre + len (join LF chunkLines)
          :: separators (c2 :: rest') (len pre + len (join LF chunkLines) + 1)) in Hx.
  set (chunk := join LF chunkLines) in *.
  pose proof (len_nonneg pre). pose proof (len_nonneg chunk).
  apply elem_of_cons in Hx as [->|Hx].
  - rewrite Hcode', Hmid. split.
    + rewrite !len_app, len_cons.
      pose proof (len_nonneg (join LF (concat (c2 :: rest')))). lia.
    + rewrite app_assoc. unfold len. rewrite <- Nat2Z.inj_add, Nat2Z.id.
      rewrite <- length_app. apply list_lookup_middle. reflexivity.
  - assert (len (pre ++ chunk ++ [LF]) = len pre + len chunk + 1) as Hlen.
    { rewrite !len_app. unfold len. simpl. lia. }
    rewrite <- Hlen in Hx. apply (IH (pre ++ chunk ++ [LF])); [|exact Hx].
    rewrite Hcode', Hmid, <- !app_assoc. reflexivity.
Qed.

(** The tokens of the chunks cover the code but for the separators. *)
Lemma streamChunks_covered (language : jsstring) timeout chunks code pre ts i :
  (forall chunk t result,
     race chunk language themeData t = Fulfilled result ->
     tiles chunk 0 (tokens result) (len chunk)) ->
  Forall (fun chunk => chunk <> []) chunks ->
  code = pre ++ join LF (concat chunks) ->
  streamChunks race language themeData timeout chunks (len pre) = Some ts ->
  covered ts i <-> len pre <= i < len code /\ i ∉ separators chunks (len pre).
Proof.
  intros Hrace Hne. revert pre ts.
  induction Hne as [|chunkLines rest Hc Hne IH]; intros pre ts Hcode H.
  - inversion H. unfold covered. rewrite Exists_nil.
    rewrite Hcode. cbn [concat join]. rewrite app_nil_r. lia.
  - cbn [streamChunks] in H.
    assert (exists result,
              tokenizeWithTimeout race (join LF chunkLines) language themeData
                (timeout / 10)%float = Some (Fulfilled result)
              /\ tiles (join LF chunkLines) 0 (tokens result)
                   (len (join LF chunkLines))) as (result & Hres & Htiles).
    { unfold tokenizeWithTimeout.
      destruct (race (join LF chunkLines) language themeData (timeout / 10)%float)
        as [result|] eqn:E.
      - exists result. split; [reflexivity|]. exact (Hrace _ _ _ E).
      - destruct (createMinimalHighlighting_covers themeData (join LF chunkLines) language)
          as (result & -> & Ht). exists result. auto. }
    rewrite Hres in H. cbn [mbind option_bind] in H.
    destruct (first_chunk chunkLines rest code pre Hc Hne Hcode)
      as (post & Hcode' & Hlast & Hmid).
    set (chunk := join LF chunkLines) in *.
    pose proof (len_nonneg pre). pose proof (len_nonneg chunk).
    pose proof (tiles_covered chunk 0 (tokens result) (len chunk) (i - len pre) Htiles)
      as Hcov.
    destruct rest as [|c2 rest'].
    + rewrite bool_decide_eq_true_2 in H by reflexivity.
      cbn [streamChunks mbind option_bind] in H. inversion H; subst ts.
      rewrite app_nil_r, covered_shift, Hcov. cbn [separators].
      rewrite Hcode', (Hlast eq_refl), app_nil_r, len_app.
      split; [intros ?; split; [lia|apply not_elem_of_nil]|intros [? _]; lia].
    + rewrite bool_decide_eq_false_2 in H by discriminate.
      match type of H with
      | context [streamChunks race language themeData timeout (c2 :: rest') ?p] =>
          destruct (streamChunks race language themeData timeout (c2 :: rest') p)
            as [more|] eqn:Em; [|discriminate]
      end.
      cbn [mbind option_bind] in H. inversion H; subst ts.
      assert (len (pre ++ chunk ++ [LF]) = len pre + len chunk + 1) as Hlen.
      { rewrite !len_app. unfold len. simpl. lia. }
      rewrite <- Hlen in Em. apply IH in Em;
        [|rewrite Hcode', (Hmid ltac:(discriminate)), <- !app_assoc; reflexivity].
      unfold covered in *. rewrite Exists_app.
      fold (covered (map (shift (len pre)) (tokens result)) i).
      rewrite covered_shift. unfold covered. rewrite Hcov, Em. clear Em Hcov.
      change (separators (chunkLines :: c2 :: rest') (len pre))
        with (len pre + len chunk
              :: separators (c2 :: rest') (len pre + len chunk + 1)).
      rewrite not_elem_of_cons, Hlen.
      assert (len pre + len chunk < len code) as Hlt.
      { rewrite Hcode', (Hmid ltac:(discriminate)), !len_app, len_cons.
        pose proof (len_nonneg (join LF (concat (c2 :: rest')))). lia. }
      split.
      * intros [Hi|[Hi Hs]]; [|split; [lia|split; [lia|exact Hs]]].
        split; [lia|]. split; [lia|].
        intros Hin. apply separators_ge in Hin. lia.
      * intros (Hi & Hsep & Hs).
        destruct (Z_lt_le_dec i (len pre + len chunk)); [left; lia|right].
        split; [lia|exact Hs].
Qed.

(** X15. The chunked path keeps the offsets right.  When the internal
    tokenization, where it succeeds, tiles its chunk, [tokenizeWithStreaming]
    returns tokens that are in order, do not overlap, and each carry
    [code.substring(startIndex, endIndex)] of the whole code.  The offsets
    that no token covers are exactly those of the newlines between two
    chunks, one less than there are chunks; so filling the gaps with
    [fillGapsWithPlainTokens] gives back the code. *)
Theorem tokenizeWithStreaming_offsets (code language : jsstring) timeout :
  (forall chunk t r,
     race chunk language themeData t = Fulfilled r ->
     tiles chunk 0 (tokens r) (len chunk)) ->
  exists ts,
    tokenizeWithStreaming race code language themeData timeout
    = Some (Fulfilled {| language := normalizeLanguage language; tokens := ts |})
    /\ placed code 0 ts
    /\ (forall i, covered ts i <-> 0 <= i < len code /\ i ∉ chunkSeparators code)
    /\ (forall i, i ∈ chunkSeparators code ->
          0 <= i < len code /\ code !! Z.to_nat i = Some LF)
    /\ S (length (chunkSeparators code))
       = length (slices (length (split LF code)) STREAMING_CHUNK_SIZE
                   (split LF code))
    /\ tokenTexts (fillGapsWithPlainTokens code ts themeData) = code.
Proof.
  intros Hrace.
  destruct (tokenizeWithStreaming_total race code language themeData timeout)
    as (ts & H).
  exists ts. split; [exact H|]. unfold tokenizeWithStreaming in H.
  match type of H with
  | context [streamChunks race language themeData timeout ?c ?p] =>
      destruct (streamChunks race language themeData timeout c p)
        as [ts'|] eqn:E; [|discriminate]
  end.
  cbn [mbind option_bind] in H. injection H as ->.
  destruct (slices_concat STREAMING_CHUNK_SIZE (length (split LF code))
              (split LF code)) as [Hc Hne];
    [unfold STREAMING_CHUNK_SIZE; lia|lia|].
  assert (code = [] ++ join LF (concat (slices (length (split LF code))
                                          STREAMING_CHUNK_SIZE (split LF code))))
    as Hcode by (rewrite Hc, join_split; reflexivity).
  assert (placed code 0 ts) as Hp
    by (apply (streamChunks_placed language timeout _ code [] ts Hrace Hne Hcode E)).
  split; [exact Hp|]. split; [|split; [|split]].
  - intros i. apply (streamChunks_covered language timeout _ code [] ts i
                       Hrace Hne Hcode E).
  - intros i. apply (separators_newline _ code [] i Hne Hcode).
  - unfold chunkSeparators. cbv zeta. rewrite separators_length.
    destruct (split LF code) as [|l ls] eqn:Es;
      [pose proof (split_nonempty LF code); contradiction|].
    reflexivity.
  - apply tiles_all, fillGapsWithPlainTokens_placed, Hp.
Qed.

End StreamingOffsets.

(** X15 on 502 empty lines, which make two chunks, with an internal
    tokenization that always times out: the newline at offset 499, after
    the first 500 lines, is the one offset without a token. *)
Lemma tokenizeWithStreaming_offsets_witness :
  exists ts,
    TokenizationService.tokenizeWithStreaming alwaysRejected emptyLines
      (codes "text") mockThemeData 5000%float
    = Some (TokenizationService.Fulfilled
              {| TokenizationService.language := codes "text";
                 TokenizationService.tokens := ts |})
    /\ length ts = 500%nat
    /\ placed emptyLines 0 ts
    /\ chunkSeparators emptyLines = [499]
    /\ covered ts 498 /\ ~ covered ts 499 /\ covered ts 500.
Proof.
  destruct (tokenizeWithStreaming_offsets alwaysRejected mockThemeData emptyLines
              (codes "text") 5000%float) as (ts & H & Hp & Hcov & _).
  { intros chunk t r E. discriminate E. }
  assert (chunkSeparators emptyLines = [499]) as Hs by (vm_compute; reflexivity).
  assert (len emptyLines = 501) as Hlen by (vm_compute; reflexivity).
  exists ts. split; [exact H|]. split; [|split; [exact Hp|split; [exact Hs|]]].
  - assert (length <$> (TokenizationService.tokens <$>
              match TokenizationService.tokenizeWithStreaming alwaysRejected emptyLines
                      (codes "text") mockThemeData 5000%float with
              | Some (TokenizationService.Fulfilled r) => Some r
              | _ => None
              end) = Some 500%nat) as Hl by (vm_compute; reflexivity).
    rewrite H in Hl. simpl in Hl. injection Hl as Hl. exact Hl.
  - split; [|split].
    + apply Hcov. rewrite Hs, Hlen. split; [lia|].
      rewrite not_elem_of_cons. split; [lia|apply not_elem_of_nil].
    + intros Hc. apply Hcov in Hc as [_ Hn]. apply Hn. rewrite Hs.
      apply elem_of_cons. left. reflexivity.
    + apply Hcov. rewrite Hs, Hlen. split; [lia|].
      rewrite not_elem_of_cons. split; [lia|apply not_elem_of_nil].
Defined.

(** ** Lines and languages *)

Section LineFacts.
Import Patterns PreviewScript.

Lemma split_app (a b : jsstring) :
  split LF (a ++ LF :: b) = split LF a ++ split LF b.
Proof.
  induction a as [|c a IH]; [reflexivity|].
  simpl. destruct (N.eqb c LF).
  - rewrite IH. reflexivity.
  - rewrite IH. destruct (split LF a) as [|l ls] eqn:E;
      [exfalso; eapply split_nonempty; eauto|]. reflexivity.
Qed.

Lemma tokenizeLine_not_last line :
  tokenizeLine line false
  = (fun ts => ts ++ [ {| text := [LF]; type := codes "text" |} ])
      <$> tokenizeLine line true.
Proof.
  unfold tokenizeLine. destruct (filtered line) as [ms|]; [|reflexivity].
  simpl. rewrite app_nil_r, app_assoc. reflexivity.
Qed.

Lemma tokenizeLines_cons x (rest : list jsstring) :
  rest <> [] ->
  tokenizeLines (x :: rest)
  = ts ← tokenizeLine x false; more ← tokenizeLines rest; Some (ts ++ more).
Proof. intros H. cbn [tokenizeLines]. rewrite bool_decide_false by exact H. reflexivity. Qed.

Lemma tokenizeLines_app (l1 l2 : list jsstring) :
  l1 <> [] -> l2 <> [] ->
  tokenizeLines (l1 ++ l2)
  = ta ← tokenizeLines l1;
    tb ← tokenizeLines l2;
    Some (ta ++ {| text := [LF]; type := codes "text" |} :: tb).
Proof.
  induction l1 as [|x l1 IH]; intros H1 H2; [contradiction|].
  destruct l1 as [|y l1].
  - change ([x] ++ l2) with (x :: l2). rewrite tokenizeLines_cons by exact H2.
    cbn [tokenizeLines]. rewrite bool_decide_true by reflexivity.
    rewrite tokenizeLine_not_last.
    destruct (tokenizeLine x true) as [ts|]; [|reflexivity].
    cbn [fmap option_fmap option_map mbind option_bind].
    destruct (tokenizeLines l2) as [tb|]; [|reflexivity].
    cbn [mbind option_bind]. rewrite app_nil_r, <- app_assoc. reflexivity.
  - specialize (IH ltac:(discriminate) H2).
    rewrite <- app_comm_cons.
    rewrite tokenizeLines_cons by discriminate.
    rewrite (tokenizeLines_cons x (y :: l1)) by discriminate.
    rewrite IH.
    destruct (tokenizeLine x false) as [ts|]; [|reflexivity].
    cbn [mbind option_bind].
    destruct (tokenizeLines (y :: l1)) as [t1|]; [|reflexivity].
    cbn [mbind option_bind].
    destruct (tokenizeLines l2) as [tb|]; [|reflexivity].
    cbn [mbind option_bind]. rewrite <- app_assoc. reflexivity.
Qed.

(** X20. The preview tokenizer works line by line: the spans of two texts
    joined by a newline are the spans of the first, a newline span, and the
    spans of the second.  Nothing carries over a line end; a block comment
    opened on one line does not reach the next. *)
Theorem tokenizeCode_line_by_line (a b language : jsstring) :
  tokenizeCode (a ++ LF :: b) language
  = ta ← tokenizeCode a language;
    tb ← tokenizeCode b language;
    Some (ta ++ {| text := [LF]; type := codes "text" |} :: tb).
Proof.
  unfold tokenizeCode. rewrite split_app.
  apply tokenizeLines_app; apply split_nonempty.
Qed.

End LineFacts.

Section LanguageFacts.
Import TokenizationService.

Lemma toLowerCase_idem s : toLowerCase (toLowerCase s) = toLowerCase s.
Proof.
  unfold toLowerCase. rewrite map_map. apply map_ext. intros c.
  destruct ((65 <=? c)%N && (c <=? 90)%N) eqn:E; [|rewrite E; reflexivity].
  apply andb_prop in E as [E1 E2]. apply N.leb_le in E1, E2.
  assert ((c + 32 <=? 90)%N = false) as -> by (apply N.leb_gt; lia).
  rewrite andb_false_r. reflexivity.
Qed.

Lemma aliases_fixed :
  map_Forall (fun _ v => normalizeLanguage v = Theme.Str v /\ toLowerCase v = v
                         /\ v <> [])
    aliases.
Proof.
  apply map_Forall_to_list, (List.Forall_forall (A:=jsstring * jsstring)).
  intros [k v] Hin. cbn [uncurry].
  assert (v ∈ (map_to_list aliases).*2) as Hv.
  { apply list_elem_of_fmap. exists (k, v). split; [reflexivity|].
    apply list_elem_of_In, Hin. }
  clear Hin.
  assert (Forall (fun v => bool_decide (normalizeLanguage v = Theme.Str v)
                           && bool_decide (toLowerCase v = v)
                           && bool_decide (v <> []) = true)
            (map_to_list aliases).*2) as Hall.
  { apply (bool_decide_unpack _). vm_compute. exact I. }
  rewrite Forall_forall in Hall. specialize (Hall v Hv).
  apply andb_prop in Hall as [Hall H3]. apply andb_prop in Hall as [H1 H2].
  apply bool_decide_eq_true in H1, H2, H3. auto.
Qed.

(** A string in lower case is a name that [aliases] inherits only if it is
    [constructor] or [__proto__]: the other members have a capital. *)
Lemma lower_not_inherited (s : jsstring) :
  toLowerCase s ∉ [codes "constructor"; codes "__proto__"] ->
  toLowerCase s ∉ Theme.prototypeNames.
Proof.
  intros H Hin. unfold Theme.prototypeNames in Hin. cbn [map] in Hin.
  pose proof (toLowerCase_idem s) as Hi.
  repeat (apply elem_of_cons in Hin as [E|Hin];
          [first [ apply H; rewrite E; apply (bool_decide_unpack _);
                   vm_compute; exact I
                 | rewrite E in Hi; vm_compute in Hi; discriminate Hi ]|]).
  inversion Hin.
Qed.

Lemma toLowerCase_ascii s : isASCII s = true -> isASCII (toLowerCase s) = true.
Proof.
  unfold isASCII, toLowerCase. rewrite !forallb_forall. intros H c Hc.
  apply in_map_iff in Hc as (x & <- & Hx). specialize (H x Hx).
  apply N.ltb_lt in H. apply N.ltb_lt.
  destruct ((65 <=? x)%N && (x <=? 90)%N) eqn:E; [|exact H].
  apply andb_prop in E as [_ E]. apply N.leb_le in E. lia.
Qed.

(** X19. For a language name of ASCII code units whose lower-case form is
    neither [constructor] nor [__proto__], [normalizeLanguage] returns a
    string, in lower case and of ASCII code units; normalizing that string
    again gives it back, and the case of the letters of the name does not
    matter: no alias maps to another alias. *)
Theorem normalizeLanguage_idempotent (language : jsstring) :
  isASCII language = true ->
  toLowerCase language ∉ [codes "constructor"; codes "__proto__"] ->
  exists name,
    normalizeLanguage language = Theme.Str name
    /\ normalizeLanguage name = Theme.Str name
    /\ normalizeLanguage (toLowerCase language) = Theme.Str name
    /\ toLowerCase name = name
    /\ isASCII name = true.
Proof.
  intros Hascii Hown. apply lower_not_inherited in Hown.
  assert (normalizeLanguage (toLowerCase language) = normalizeLanguage language) as Hl.
  { unfold normalizeLanguage. rewrite toLowerCase_idem. reflexivity. }
  rewrite Hl. unfold normalizeLanguage at 1 3. rewrite (get_own _ _ Hown).
  destruct (aliases !! toLowerCase language) as [v|] eqn:E.
  - destruct (aliases_fixed _ _ E) as (Hv & Hlow & Hne).
    destruct v as [|c v]; [contradiction|]. exists (c :: v). cbn [fmap option_fmap option_map Theme.valueOrElse].
    split; [reflexivity|]. split; [exact Hv|]. split; [reflexivity|].
    split; [exact Hlow|].
    assert (Forall (fun v => isASCII v = true) (map_to_list aliases).*2) as Hall.
    { apply (bool_decide_unpack _). vm_compute. exact I. }
    rewrite Forall_forall in Hall. apply Hall.
    apply list_elem_of_fmap. exists (toLowerCase language, c :: v).
    split; [reflexivity|]. apply elem_of_map_to_list, E.
  - exists (toLowerCase language). cbn [fmap option_fmap option_map Theme.valueOrElse].
    split; [reflexivity|]. split; [|split; [reflexivity|split]].
    + rewrite Hl. unfold normalizeLanguage. rewrite (get_own _ _ Hown), E.
      reflexivity.
    + apply toLowerCase_idem.
    + apply toLowerCase_ascii, Hascii.
Qed.

End LanguageFacts.

(** X19 on [JS]: the alias of its lower-case form, which is its own
    normal form. *)
Lemma normalizeLanguage_idempotent_witness :
  TokenizationService.normalizeLanguage (codes "JS")
  = Theme.Str (codes "javascript")
  /\ TokenizationService.normalizeLanguage (codes "javascript")
     = Theme.Str (codes "javascript").
Proof.
  destruct (normalizeLanguage_idempotent (codes "JS")) as (name & H1 & H2 & _).
  - reflexivity.
  - apply (bool_decide_unpack _). vm_compute. exact I.
  - assert (TokenizationService.normalizeLanguage (codes "JS")
            = Theme.Str (codes "javascript")) as H by (vm_compute; reflexivity).
    rewrite H in H1. injection H1 as <-. split; [exact H|exact H2].
Defined.

(** The two names outside X19: the result is the member that [aliases]
    inherits, whatever the case of the letters. *)
Example normalizeLanguage_inherited :
  TokenizationService.normalizeLanguage (codes "Constructor")
  = Theme.Member (codes "constructor")
  /\ TokenizationService.normalizeLanguage (codes "__proto__")
     = Theme.Member (codes "__proto__")
  /\ TokenizationService.normalizeLanguage (codes "toString")
     = Theme.Str (codes "tostring").
Proof. repeat split; vm_compute; reflexivity. Qed.

(** ** Colors in the preview *)

Section ColorFacts.
Import Patterns Theme PreviewScript.

Lemma palette_family (k : ThemeKind) (ty : jsstring) :
  ty ∈ familyTypes ->
  exists c color,
    (extractTokenColorsFromTheme k !! ty : option jsstring) = Some (c :: color).
Proof.
  intros H. unfold familyTypes in H.
  repeat (apply elem_of_cons in H as [->|H]); [..|inversion H];
    destruct k; vm_compute; eauto.
Qed.

Lemma getColorForTokenType_family (theme : ThemeData) (ty : jsstring) :
  ty ∈ familyTypes ->
  getColorForTokenType (Some theme) ty = colors theme !! ty.
Proof.
  intros H. unfold familyTypes in H.
  repeat (apply elem_of_cons in H as [->|H]); [..|inversion H]; reflexivity.
Qed.

Lemma getColorForTokenType_text (theme : option ThemeData) :
  getColorForTokenType theme (codes "text") = None.
Proof. destruct theme; reflexivity. Qed.

Lemma family_nonempty (ty : jsstring) : ty ∈ familyTypes -> ty <> [] /\ ty <> codes "text".
Proof.
  intros H. unfold familyTypes in H.
  repeat (apply elem_of_cons in H as [->|H]); [..|inversion H]; split; discriminate.
Qed.

(** X21. Under a theme whose palette is the one [extractTokenColorsFromTheme]
    gives for its kind (as [detectThemeFromDOM] builds it), for every code:
    [tokenizeCode] returns, [applyHighlighting] makes one [span] per token
    with the token's text, the texts of the spans concatenate to the code,
    a text span gets no color of its own, and every other span gets the
    palette color of its type. *)
Theorem applyHighlighting_colors (theme : ThemeData) (code language : jsstring) :
  colors theme = extractTokenColorsFromTheme (kind theme) ->
  exists ts spans,
    tokenizeCode code language = Some ts
    /\ applyHighlighting (Some theme) ts = Some spans
    /\ concat (map textContent spans) = code
    /\ Forall2 (fun t span =>
                  textContent span = text t
                  /\ styleColor span
                     = (if bool_decide (type t = codes "text") then None
                        else extractTokenColorsFromTheme (kind theme) !! type t)
                  /\ (type t <> codes "text" -> is_Some (styleColor span)))
               ts spans.
Proof.
  intros Hcolors.
  destruct (tokenizeCode_spec code language) as (ts & Hts & Htexts & _ & Htypes).
  exists ts. eexists. split; [exact Hts|]. split; [reflexivity|]. split.
  - rewrite map_map. exact Htexts.
  - clear Hts Htexts. induction Htypes as [|t ts Ht _ IH]; [constructor|].
    cbn [map]. constructor; [|exact IH].
    cbn [textContent styleColor]. split; [reflexivity|].
    unfold spanTypes in Ht. apply elem_of_cons in Ht as [Ht|Ht].
    + rewrite Ht, getColorForTokenType_text.
      rewrite bool_decide_true by reflexivity.
      split; [reflexivity|]. intros H. contradiction.
    + destruct (palette_family (kind theme) (type t) Ht) as (c & color & Hcol).
      destruct (family_nonempty (type t) Ht) as [Hne Hnt].
      rewrite bool_decide_false by exact Hnt.
      rewrite (getColorForTokenType_family theme (type t) Ht), Hcolors, Hcol.
      split; [reflexivity|]. eauto.
Qed.

End ColorFacts.

Section ParseColorFacts.
Import Theme PreviewScript.

Lemma rgbPattern_needs_r (color : jsstring) i :
  114%N ∉ color -> matchAt false false color rgbPattern i = None.
Proof.
  intros H. unfold matchAt.
  change rgbPattern with (Seq (Seq (Lit 114%N) (Seq (Lit 103%N) (Lit 98%N)))
                            (seqs [ Opt (Lit 97%N); Lit 40%N;
                                    Group 1 (Plus (Cls Digit)); Lit 44%N;
                                    Star (Cls Space);
                                    Group 2 (Plus (Cls Digit)); Lit 44%N;
                                    Star (Cls Space);
                                    Group 3 (Plus (Cls Digit)) ])).
  cbn [m]. unfold charAt. destruct (color !! i) as [x|] eqn:E; [|reflexivity].
  cbn [canonicalize andb].
  destruct (N.eqb x 114) eqn:Ex; [|reflexivity].
  apply N.eqb_eq in Ex. exfalso. apply H. rewrite Ex in E.
  eapply list_elem_of_lookup_2, E.
Qed.

Lemma scan_none (color : jsstring) r n i :
  (forall j, matchAt false false color r j = None) ->
  scan false false color r n i = None.
Proof.
  intros H. revert i. induction n as [|n IH]; intros i; [reflexivity|].
  simpl. rewrite H. apply IH.
Qed.

(** X22. A background color that holds no letter [r] and is not [#] followed
    by exactly six characters does not parse, and [detectThemeKind] then
    answers dark: so for the short form [#fff], for a form with alpha such
    as [#ffffffff], and for a named color such as [white]. *)
Theorem detectThemeKind_unparsed (bgColor : jsstring) :
  114%N ∉ bgColor ->
  (forall hex, bgColor = 35%N :: hex -> length hex <> 6%nat) ->
  parseColor bgColor = None /\ detectThemeKind bgColor = dark.
Proof.
  intros Hr Hhex.
  assert (parseColor bgColor = None) as Hp.
  { unfold parseColor.
    assert (exec false false bgColor rgbPattern 0 = None) as ->.
    { unfold exec. simpl. rewrite rgbPattern_needs_r by exact Hr.
      apply scan_none. intros j. apply rgbPattern_needs_r, Hr. }
    destruct bgColor as [|c hex]; [reflexivity|].
    destruct (N.eq_dec c 35%N) as [->|Hc].
    - specialize (Hhex hex eq_refl).
      destruct (length hex =? 6)%nat eqn:E; [apply Nat.eqb_eq in E; contradiction|].
      reflexivity.
    - destruct c as [|p]; [reflexivity|].
      do 6 (destruct p as [p|p|]; try reflexivity). contradiction. }
  split; [exact Hp|]. unfold detectThemeKind. rewrite Hp. reflexivity.
Qed.

End ParseColorFacts.

(** X21 on a line with a number and a comment, under the dark palette. *)
Lemma applyHighlighting_colors_witness :
  exists ts spans,
    PreviewScript.tokenizeCode (codes "x = 1 // one") (codes "js") = Some ts
    /\ PreviewScript.applyHighlighting (Some mockThemeData) ts = Some spans
    /\ concat (map PreviewScript.textContent spans) = codes "x = 1 // one".
Proof.
  destruct (applyHighlighting_colors mockThemeData (codes "x = 1 // one") (codes "js"))
    as (ts & spans & H1 & H2 & H3 & _).
  - reflexivity.
  - exists ts, spans. auto.
Defined.

(** X22 on [#fff] and on [white]. *)
Lemma detectThemeKind_unparsed_witness :
  PreviewScript.detectThemeKind (codes "#fff") = Theme.dark
  /\ PreviewScript.detectThemeKind (codes "white") = Theme.dark.
Proof.
  split.
  - apply (detectThemeKind_unparsed (codes "#fff")).
    + apply (bool_decide_unpack _). vm_compute. exact I.
    + intros hex E. injection E as <-. discriminate.
  - apply (detectThemeKind_unparsed (codes "white")).
    + apply (bool_decide_unpack _). vm_compute. exact I.
    + intros hex E. discriminate E.
Defined.

(** ** The language of a code element *)

Section ClassRunFacts.
Variables (ignoreCase multiline : bool) (input : jsstring).

(** A greedy or lazy repetition of a character class without upper bound
    matches a run of characters of the class. *)
Lemma repeatMatcher_class cs groups greedy k fuel min i c z :
  repeatMatcher (m ignoreCase multiline input (Cls cs)) groups greedy k fuel min
    None i c = Some z ->
  exists j c',
    (i + min <= j)%nat
    /\ (forall p, (i <= p < j)%nat ->
          exists x, input !! p = Some x /\ inSet cs x = true)
    /\ k j c' = Some z.
Proof.
  revert min i c. induction fuel as [|fuel IH]; intros min i c H;
    [simpl in H; discriminate|].
  assert (forall c0 k0,
            m ignoreCase multiline input (Cls cs) i c0 k0 = Some z ->
            exists x, input !! i = Some x /\ inSet cs x = true
                      /\ k0 (S i) c0 = Some z) as Hstep.
  { intros c0 k0 Hm. cbn [m] in Hm. unfold charAt in Hm.
    destruct (input !! i) as [x|]; [|discriminate].
    destruct (inSet cs x) eqn:Ex; [|discriminate]. eauto. }
  cbn [repeatMatcher] in H. destruct min as [|mn].
  - cbn [Nat.eqb negb andb] in H.
    assert (k i c = Some z
            \/ m ignoreCase multiline input (Cls cs) i (clearCaptures groups c)
                 (fun j c' => if (j =? i)%nat then None
                              else repeatMatcher (m ignoreCase multiline input (Cls cs))
                                     groups greedy k fuel 0 None j c') = Some z)
      as [Hk|Hk].
    { destruct greedy.
      - destruct (m _ _ _ _ i _ _) eqn:E; [right; congruence|left; exact H].
      - destruct (k i c) eqn:E; [left; congruence|right; exact H]. }
    + exists i, c. split; [lia|]. split; [intros p Hp; lia|exact Hk].
    + apply Hstep in Hk as (x & Hx & Hin & Hk).
      destruct (S i =? i)%nat; [discriminate|].
      apply IH in Hk as (j & c' & Hj & Hrun & Hk).
      exists j, c'. split; [lia|]. split; [|exact Hk].
      intros p Hp. destruct (decide (p = i)) as [->|Hne]; [eauto|].
      apply Hrun. lia.
  - cbn [Nat.eqb negb andb Nat.pred] in H.
    apply Hstep in H as (x & Hx & Hin & Hk).
    apply IH in Hk as (j & c' & Hj & Hrun & Hk).
    exists j, c'. split; [lia|]. split; [|exact Hk].
    intros p Hp. destruct (decide (p = i)) as [->|Hne]; [eauto|].
    apply Hrun. lia.
Qed.

Lemma scan_matchAt r n i0 i z :
  scan ignoreCase multiline input r n i0 = Some (i, z) ->
  matchAt ignoreCase multiline input r i = Some z.
Proof.
  revert i0. induction n as [|n IH]; intros i0 H; simpl in H; [discriminate|].
  destruct (matchAt _ _ _ r i0) eqn:E; [inversion H; subst; exact E|eauto].
Qed.

Lemma getCapture_setCapture n v c : getCapture n (setCapture n v c) = Some v.
Proof. unfold getCapture, setCapture. simpl. rewrite Nat.eqb_refl. reflexivity. Qed.

End ClassRunFacts.

Section LanguageOfElement.
Import PreviewScript.

Lemma inSet_wordClass x : inSet wordClass x = true -> isWordChar x = true.
Proof.
  unfold wordClass. cbn [inSet]. intros H. apply bool_decide_eq_true in H.
  apply list_elem_of_In, filter_In in H. tauto.
Qed.

(** X23. [extractLanguage] never returns the empty string: its result is
    made of word characters ([A-Za-z0-9_]) only, whether it comes from the
    class name or is the default [plaintext]; in particular it holds no
    colon. *)
Theorem extractLanguage_identifier (className : jsstring) :
  extractLanguage className <> []
  /\ Forall (fun c => isWordChar c = true) (extractLanguage className)
  /\ 58%N ∉ extractLanguage className.
Proof.
  assert (extractLanguage className <> []
          /\ Forall (fun c => isWordChar c = true) (extractLanguage className))
    as [Hne Hword].
  { unfold extractLanguage.
    destruct (exec false false className languagePattern 0) as [[i [e caps]]|] eqn:E.
    - unfold exec in E. destruct (_ <? _)%nat; [discriminate|].
      apply scan_matchAt in E. unfold matchAt, languagePattern in E.
      cbn [seqs] in E. cbn [m] in E.
      apply (m_advances false false className (str "language-")) in E
        as (j & c1 & _ & _ & E).
      cbn [m] in E. unfold Plus in E. cbn [m] in E.
      apply (repeatMatcher_class false false className) in E
        as (j2 & c2 & Hj & Hrun & E).
      injection E as H1 H2. subst e caps. unfold captured.
      rewrite getCapture_setCapture.
      assert (j2 <= length className)%nat as Hj2.
      { destruct (Hrun (j2 - 1)%nat ltac:(lia)) as (x & Hx & _).
        apply lookup_lt_Some in Hx. lia. }
      rewrite substring_inside by (unfold len; lia).
      replace (Z.to_nat (Z.of_nat j2 - Z.of_nat j)) with (j2 - j)%nat by lia.
      rewrite Nat2Z.id. split.
      + intros Hnil. apply (f_equal length) in Hnil.
        rewrite length_take, length_drop in Hnil. simpl in Hnil. lia.
      + apply List.Forall_forall. intros x Hx. apply list_elem_of_In in Hx.
        apply list_elem_of_lookup in Hx as [p Hp].
        apply lookup_take_Some in Hp as [Hp Hlt]. rewrite lookup_drop in Hp.
        destruct (Hrun (j + p)%nat ltac:(lia)) as (x' & Hx' & Hin).
        assert (Some x = Some x') as Heq by exact (eq_trans (eq_sym Hp) Hx').
        injection Heq as ->. apply inSet_wordClass, Hin.
    - split; [discriminate|]. apply (bool_decide_unpack _). vm_compute. exact I. }
  split; [exact Hne|]. split; [exact Hword|].
  intros Hin. rewrite List.Forall_forall in Hword.
  apply list_elem_of_In, Hword in Hin. discriminate Hin.
Qed.

End LanguageOfElement.

(** ** Lines that start with a hash sign *)

Section CommentLineFacts.
Import Patterns PreviewScript.

Lemma clearCaptures_nil c : clearCaptures [] c = c.
Proof.
  unfold clearCaptures. induction c as [|p c IH]; [reflexivity|].
  cbn [List.filter]. rewrite bool_decide_false by apply not_elem_of_nil.
  cbn [negb]. f_equal. exact IH.
Qed.

(** A greedy [.*] in front of [$] runs to the end of a line that holds no
    line terminator. *)
Lemma dot_star_to_end (input : jsstring) ml k0 fuel i c z :
  Forall (fun x => isLineTerminator x = false) input ->
  (i <= length input)%nat -> (length input - i < fuel)%nat ->
  k0 (length input) c = Some z ->
  repeatMatcher (m false ml input (Cls Dot)) [] true
    (fun j c' => m false ml input Eol j c' k0) fuel 0 None i c = Some z.
Proof.
  intros Hline. set (mr := m false ml input (Cls Dot)).
  set (k := fun j c' => m false ml input Eol j c' k0).
  revert i c. induction fuel as [|fuel IH]; intros i c Hi Hf Hk; [lia|].
  cbn [repeatMatcher Nat.eqb negb andb]. rewrite clearCaptures_nil.
  match goal with
  | |- match mr i c ?d with _ => _ end = _ =>
      assert (mr i c d
              = match input !! i with
                | Some x => if negb (isLineTerminator x) then d (S i) c else None
                | None => None
                end) as -> by reflexivity
  end.
  destruct (input !! i) as [x|] eqn:E.
  - assert (isLineTerminator x = false) as Hx.
    { rewrite List.Forall_forall in Hline. apply Hline, list_elem_of_In.
      eapply list_elem_of_lookup_2, E. }
    rewrite Hx. cbn [negb].
    assert ((S i =? i)%nat = false) as -> by (apply Nat.eqb_neq; lia).
    cbn [Nat.pred fmap option_fmap option_map].
    apply lookup_lt_Some in E.
    rewrite (IH (S i) c); [reflexivity|lia|lia|exact Hk].
  - apply lookup_ge_None in E. assert (i = length input) as -> by lia.
    unfold k. cbn [m]. unfold charAt.
    match goal with
    | |- match ?t with _ => _ end = _ => destruct t as [x|] eqn:E2
    end.
    + apply lookup_lt_Some in E2. lia.
    + rewrite Nat.eqb_refl. exact Hk.
Qed.

Lemma lookup_terminator (line : jsstring) i x :
  Forall (fun x => isLineTerminator x = false) line ->
  line !! i = Some x -> isLineTerminator x = false.
Proof.
  intros H E. rewrite List.Forall_forall in H. apply H, list_elem_of_In.
  eapply list_elem_of_lookup_2, E.
Qed.

Lemma execLoop_step ic ml (input : jsstring) r fuel i :
  execLoop ic ml input r (S fuel) i
  = match exec ic ml input r i with
    | None => Some []
    | Some (j, (e, _)) => (fun l => (j, e) :: l) <$> execLoop ic ml input r fuel e
    end.
Proof. reflexivity. Qed.

(** On a line that starts with [#] and holds no line terminator, the comment
    pattern matches once, from the start to the end of the line. *)
Lemma findComments_hash (rest : jsstring) :
  Forall (fun x => isLineTerminator x = false) rest ->
  findComments (35%N :: rest)
  = Some [ {| start := 0; end_ := len (35%N :: rest); Patterns.type := codes "comment" |} ].
Proof.
  intros Hrest.
  assert (Forall (fun x => isLineTerminator x = false) (35%N :: rest)) as Hline
    by (constructor; [reflexivity|exact Hrest]).
  set (line := 35%N :: rest) in *.
  assert (matchAt false true line commentPattern 0
          = Some (length line, setCapture 1 (0%nat, length line) [])) as H0.
  { unfold matchAt, commentPattern.
    change (alts [ seqs [str "//"; Star (Cls Dot); Eol];
                   seqs [str "/*"; StarLazy (Cls (Union Space NotSpace)); str "*/"];
                   seqs [str "#"; Star (Cls Dot); Eol] ])
      with (Alt (Seq (Seq (Lit 47%N) (Lit 47%N)) (Seq (Star (Cls Dot)) Eol))
              (Alt (Seq (Seq (Lit 47%N) (Lit 42%N))
                      (Seq (StarLazy (Cls (Union Space NotSpace)))
                         (Seq (Lit 42%N) (Lit 47%N))))
                 (Seq (Lit 35%N) (Seq (Star (Cls Dot)) Eol)))).
    cbn [m]. unfold charAt at 1 2 3. subst line. cbn [lookup list_lookup].
    cbn [canonicalize andb N.eqb Pos.eqb].
    unfold Star.
    apply (dot_star_to_end (35%N :: rest) true); [exact Hline|simpl; lia|simpl; lia|].
    reflexivity. }
  assert (matchAt false true line commentPattern (length line) = None) as Hend.
  { unfold matchAt, commentPattern.
    change (alts [ seqs [str "//"; Star (Cls Dot); Eol];
                   seqs [str "/*"; StarLazy (Cls (Union Space NotSpace)); str "*/"];
                   seqs [str "#"; Star (Cls Dot); Eol] ])
      with (Alt (Seq (Seq (Lit 47%N) (Lit 47%N)) (Seq (Star (Cls Dot)) Eol))
              (Alt (Seq (Seq (Lit 47%N) (Lit 42%N))
                      (Seq (StarLazy (Cls (Union Space NotSpace)))
                         (Seq (Lit 42%N) (Lit 47%N))))
                 (Seq (Lit 35%N) (Seq (Star (Cls Dot)) Eol)))).
    assert (charAt line (length line) = None) as Hc
      by (unfold charAt; apply lookup_ge_None; lia).
    cbn [m]. rewrite !Hc. reflexivity. }
  assert (exec false true line commentPattern 0
          = Some (0%nat, (length line, setCapture 1 (0%nat, length line) []))) as He0.
  { unfold exec. change (length line <? 0)%nat with false. cbv iota.
    rewrite Nat.sub_0_r. cbn [scan]. rewrite H0. reflexivity. }
  assert (exec false true line commentPattern (length line) = None) as Heend.
  { unfold exec. rewrite Nat.ltb_irrefl, Nat.sub_diag. cbn [scan].
    rewrite Hend. reflexivity. }
  unfold findComments, findAll, execAll.
  change (S (length line)) with (S (S (length rest))).
  rewrite execLoop_step, He0. cbv beta iota.
  rewrite execLoop_step, Heend. reflexivity.
Qed.

Lemma removeOverlaps_all_inside lastEnd ms :
  Forall (fun x => start x < lastEnd) ms -> removeOverlaps lastEnd ms = [].
Proof.
  induction 1 as [|x ms Hx _ IH]; [reflexivity|].
  simpl. assert ((lastEnd <=? start x) = false) as -> by lia. exact IH.
Qed.

Lemma sortByStart_first x ms :
  Forall (fun y => start x <= start y) ms ->
  sortByStart (x :: ms) = x :: sortByStart ms.
Proof.
  intros H. simpl.
  assert (Forall (fun y => start x <= start y) (sortByStart ms)) as Hs
    by (apply sortByStart_Forall, H).
  destruct (sortByStart ms) as [|y l]; [reflexivity|].
  inversion Hs; subst. simpl.
  assert ((start x <=? start y) = true) as -> by lia. reflexivity.
Qed.

(** The preview tokenizer on such a line. *)
Lemma preview_hash_line (rest language : jsstring) :
  Forall (fun x => isLineTerminator x = false) rest ->
  tokenizeCode (35%N :: rest) language
  = Some [ {| text := 35%N :: rest; type := codes "comment" |} ].
Proof.
  intros Hrest.
  assert (LF ∉ 35%N :: rest) as HLF.
  { intros Hin. apply elem_of_cons in Hin as [Hin|Hin]; [discriminate Hin|].
    rewrite List.Forall_forall in Hrest.
    apply list_elem_of_In, Hrest in Hin. discriminate Hin. }
  unfold tokenizeCode. rewrite split_single by exact HLF.
  set (line := 35%N :: rest) in *.
  cbn [tokenizeLines]. rewrite bool_decide_true by reflexivity.
  unfold tokenizeLine, filtered, candidates.
  pose proof (findComments_hash rest Hrest) as Hc. fold line in Hc. rewrite Hc.
  unfold findStrings, findNumbers, findKeywords.
  destruct (findAll_total false false stringPattern "string" line)
    as (ss & -> & Hss); [apply minLength_stringPattern|vm_compute; set_solver|].
  destruct (findAll_total false false numberPattern "number" line)
    as (ns & -> & Hns); [apply minLength_numberPattern|vm_compute; set_solver|].
  destruct (findAll_total true false (keywordPattern keywords) "keyword" line)
    as (ks & -> & Hks); [apply minLength_preview_keywords|vm_compute; set_solver|].
  cbn [mbind option_bind fmap option_fmap option_map compose].
  assert (Forall (goodMatch line) (ss ++ ns ++ ks)) as Hgood
    by (repeat (apply Forall_app; split); assumption).
  set (others := ss ++ ns ++ ks) in *.
  set (x := {| start := 0; end_ := len line; Patterns.type := codes "comment" |}).
  change ([x] ++ others) with (x :: others).
  rewrite sortByStart_first
    by (revert Hgood; apply List.Forall_impl; intros y (? & _); simpl; lia).
  cbn [removeOverlaps]. change (-1 <=? start x) with true. cbv iota.
  rewrite removeOverlaps_all_inside.
  2:{ apply sortByStart_Forall. revert Hgood. apply List.Forall_impl.
      intros y (? & ? & ? & _). simpl. lia. }
  cbn [createTokens fst snd start end_ Patterns.type x].
  rewrite !Z.ltb_irrefl, substring_all. reflexivity.
Qed.

End CommentLineFacts.

Section ServiceCommentLine.
Import Patterns Theme TokenizationService.

(** Tier 3 of the service on such a line. *)
Lemma service_hash_line (rest language : jsstring) (themeData : ThemeData) :
  Forall (fun x => isLineTerminator x = false) rest ->
  createMinimalHighlighting (35%N :: rest) language themeData
  = Some {| language := language;
            tokens := [ {| text := 35%N :: rest;
                           scopes := [codes "comment"];
                           startIndex := 0;
                           endIndex := len (35%N :: rest);
                           color := Some (getColorForTokenType (codes "comment")
                                            themeData) |} ] |}.
Proof.
  intros Hrest.
  assert (LF ∉ 35%N :: rest) as HLF.
  { intros Hin. apply elem_of_cons in Hin as [Hin|Hin]; [discriminate Hin|].
    rewrite List.Forall_forall in Hrest.
    apply list_elem_of_In, Hrest in Hin. discriminate Hin. }
  unfold createMinimalHighlighting. rewrite split_single by exact HLF.
  set (line := 35%N :: rest) in *.
  cbn [tokenizeLines]. rewrite bool_decide_true by reflexivity.
  unfold tokenizeLine, filteredMatches, candidates.
  pose proof (findComments_hash rest Hrest) as Hc. fold line in Hc. rewrite Hc.
  unfold findStrings, findNumbers, findKeywords.
  destruct (findAll_total false false stringPattern "string" line)
    as (ss & -> & Hss); [apply minLength_stringPattern|vm_compute; set_solver|].
  destruct (findAll_total true false (keywordPattern keywords) "keyword" line)
    as (ks & -> & Hks); [apply minLength_service_keywords|vm_compute; set_solver|].
  destruct (findAll_total false false numberPattern "number" line)
    as (ns & -> & Hns); [apply minLength_numberPattern|vm_compute; set_solver|].
  cbn [mbind option_bind fmap option_fmap option_map compose].
  assert (Forall (goodMatch line) (ss ++ ks ++ ns)) as Hgood
    by (repeat (apply Forall_app; split); assumption).
  set (others := ss ++ ks ++ ns) in *.
  set (x := {| start := 0; end_ := len line; Patterns.type := codes "comment" |}).
  change ([x] ++ others) with (x :: others).
  rewrite sortByStart_first
    by (revert Hgood; apply List.Forall_impl; intros y (? & _); simpl; lia).
  cbn [removeOverlaps]. change (-1 <=? start x) with true. cbv iota.
  rewrite removeOverlaps_all_inside.
  2:{ apply sortByStart_Forall. revert Hgood. apply List.Forall_impl.
      intros y (? & ? & ? & _). simpl. lia. }
  cbn [createTokens fst snd start end_ Patterns.type x].
  rewrite !Z.ltb_irrefl, substring_all. reflexivity.
Qed.

End ServiceCommentLine.

(** X24. A line that starts with [#] and holds no line terminator is one
    comment span, in the preview tokenizer and in tier 3 of the service,
    whatever the language and whatever follows the [#]: strings, numbers and
    keywords after it are not highlighted.  So a C preprocessor line, a CSS
    id selector or a Markdown heading is shown as a comment. *)
Theorem hash_line_is_one_comment (rest language : jsstring)
    (themeData : Theme.ThemeData) :
  Forall (fun x => isLineTerminator x = false) rest ->
  PreviewScript.tokenizeCode (35%N :: rest) language
  = Some [ {| PreviewScript.text := 35%N :: rest;
              PreviewScript.type := codes "comment" |} ]
  /\ TokenizationService.createMinimalHighlighting (35%N :: rest) language themeData
     = Some {| TokenizationService.language := language;
               TokenizationService.tokens :=
                 [ {| TokenizationService.text := 35%N :: rest;
                      TokenizationService.scopes := [codes "comment"];
                      TokenizationService.startIndex := 0;
                      TokenizationService.endIndex := len (35%N :: rest);
                      TokenizationService.color :=
                        Some (TokenizationService.getColorForTokenType
                                (codes "comment") themeData) |} ] |}.
Proof.
  intros Hrest. split.
  - apply preview_hash_line, Hrest.
  - apply service_hash_line, Hrest.
Qed.

(** X24 on a C preprocessor line. *)
Lemma hash_line_is_one_comment_witness :
  PreviewScript.tokenizeCode (codes "#include <stdio.h>") (codes "c")
  = Some [ {| PreviewScript.text := codes "#include <stdio.h>";
              PreviewScript.type := codes "comment" |} ].
Proof.
  apply (hash_line_is_one_comment (codes "include <stdio.h>") (codes "c")
           mockThemeData).
  repeat (constructor; [reflexivity|]). constructor.
Defined.
